(** * The states table of the SARIF viewer: projection, navigation, token scan

    A shallow embedding of the non-visual logic of the details panel
    ([src/panel/details.tsx]): the projection of a step's raw state to
    display strings, the four "where did this variable change" queries of
    the context menu, and the scanner that finds variable-shaped tokens in a
    displayed value ([renderVariableName]).  The table engine
    ([tableStore.ts]) is described at the end. *)

From Stdlib Require Import String.
From Stdlib Require DecimalString.
From Stdlib Require Import List Ascii ZArith Lia Bool Arith PeanoNat Sorted Permutation.
Import ListNotations.
Local Open Scope list_scope.

Set Implicit Arguments.

(** ** JavaScript strings

    A string is its sequence of code units, and a code unit is a number
    (JavaScript's are below 65536).  A character of a pattern or of a literal
    stands for its code; [lit] reads a literal. *)

Definition jsstring := list N.

Coercion N_of_ascii : ascii >-> N.

Definition lit (s : String.string) : jsstring :=
  map N_of_ascii (String.list_ascii_of_string s).

Arguments lit s%_string.

Definition jsstring_eq_dec : forall a b : jsstring, {a = b} + {a <> b} :=
  list_eq_dec N.eq_dec.

(** [a === b] on strings. *)
Definition strictEq (a b : jsstring) : bool :=
  if jsstring_eq_dec a b then true else false.

(** [s.substring(from, to)] for [from <= to]. *)
Definition substring (s : jsstring) (from to : nat) : jsstring :=
  firstn (to - from) (skipn from s).

(** ** Outcomes: a value, or no value

    [TypeError] is the exception thrown when a property of [undefined] is
    read; [Hang] stands for a loop that does not end. *)

Inductive exn := TypeError | Hang.

Inductive outcome (A : Type) : Type :=
| Ret (a : A)
| Throw (e : exn).

Arguments Ret {A} a.
Arguments Throw {A} e.

Definition bind {A B} (c : outcome A) (k : A -> outcome B) : outcome B :=
  match c with
  | Ret a => k a
  | Throw e => Throw e
  end.

Notation "x <- c ;; k" := (bind c (fun x => k))
  (at level 61, c at next level, right associativity).

(** A [for] loop whose body either returns from the enclosing function
    ([Some a]) or falls through to the next iteration ([None]).
    [forUp body count i] runs [for (j = i; j < i + count; j++)],
    [forDown body n] runs [for (j = n - 1; j >= 0; j--)]. *)

Fixpoint forUp {A} (body : nat -> outcome (option A)) (count i : nat)
  : outcome (option A) :=
  match count with
  | 0 => Ret None
  | S c =>
      r <- body i ;;
      match r with
      | Some a => Ret (Some a)
      | None => forUp body c (S i)
      end
  end.

Fixpoint forDown {A} (body : nat -> outcome (option A)) (n : nat)
  : outcome (option A) :=
  match n with
  | 0 => Ret None
  | S i =>
      r <- body i ;;
      match r with
      | Some a => Ret (Some a)
      | None => forDown body i
      end
  end.

(** ** [String.prototype.replace] with the pattern [/\{expr\}/g]

    The replacement argument is a template: [GetSubstitution] expands [$$],
    [$&], [$`] and [$'] in it (the pattern has no capture group, so [$1] and
    the like stay as they are). *)

Definition dollar : N := "$"%char.

Fixpoint GetSubstitution (matched before after template : jsstring) : jsstring :=
  match template with
  | [] => []
  | c :: rest =>
      if N.eqb c dollar then
        match rest with
        | d :: rest' =>
            if N.eqb d dollar then dollar :: GetSubstitution matched before after rest'
            else if N.eqb d "&"%char then matched ++ GetSubstitution matched before after rest'
            else if N.eqb d "`"%char then before ++ GetSubstitution matched before after rest'
            else if N.eqb d "'"%char then after ++ GetSubstitution matched before after rest'
            else c :: GetSubstitution matched before after rest
        | [] => [c]
        end
      else c :: GetSubstitution matched before after rest
  end.

Fixpoint startsWith (p s : jsstring) : bool :=
  match p, s with
  | [], _ => true
  | _ :: _, [] => false
  | a :: p', b :: s' => N.eqb a b && startsWith p' s'
  end.

Definition exprPlaceholder : jsstring := lit "{expr}".

(** [replaceExprFrom template skip before s]: [s] is what is left of the
    subject, [before] what was read, [skip] the number of code units of the
    current match still to pass over. *)
Fixpoint replaceExprFrom (template : jsstring) (skip : nat) (before s : jsstring)
  : jsstring :=
  match s with
  | [] => []
  | c :: s' =>
      match skip with
      | S k => replaceExprFrom template k (before ++ [c]) s'
      | 0 =>
          if startsWith exprPlaceholder s then
            GetSubstitution exprPlaceholder before
              (skipn (length exprPlaceholder) s) template
            ++ replaceExprFrom template (length exprPlaceholder - 1) (before ++ [c]) s'
          else c :: replaceExprFrom template 0 (before ++ [c]) s'
      end
  end.

Definition replaceExpr (s template : jsstring) : jsstring :=
  replaceExprFrom template 0 [] s.

(** ** Steps and their raw state *)

(** How a number prints ([String(n)]) is left to the host. *)
Class NumberModel := {
  Num : Type;
  Number_toString : Num -> jsstring
}.

(** What a state object inherits.  A state is an object of the parsed log,
    so [state[name]] finds its own property [name] or else the property
    [name] of [Object.prototype] ([constructor], [toString], [valueOf],
    [hasOwnProperty], [__proto__], ...).  [Object_prototype name] is
    [String(Object.prototype[name])] for the names [Object.prototype] has;
    which names there are, and how a built-in function prints, is left to
    the host. *)
Class PrototypeModel := {
  Object_prototype : jsstring -> option jsstring
}.

Section Details.

Context `{NumberModel} `{PrototypeModel}.

(** A value read from a state: a primitive, [null], an object, of which
    only the [text] field is ever read ([MultiformatMessageString]), or a
    built-in inherited from [Object.prototype] (a function, or
    [Object.prototype] itself, which has no [text]), of which only
    [String(value)] is observed. *)
Inductive RawValue :=
| VString (s : jsstring)
| VNumber (n : Num)
| VBoolean (b : bool)
| VNull
| VObject (text : option jsstring)
| VBuiltin (printed : jsstring).

(** A [ThreadFlowLocation]: [ref] is the identity of the object (what [===]
    compares), [state] its optional state object, as [Object.entries] lists
    it: its own properties. *)
Record ThreadFlowLocation := {
  ref : nat;
  state : option (list (jsstring * RawValue))
}.

Record StateEntry := { key : jsstring; value : jsstring }.

(** The own property [name] of [o]. *)
Fixpoint getProperty (o : list (jsstring * RawValue)) (name : jsstring)
  : option RawValue :=
  match o with
  | [] => None
  | (k, v) :: rest => if strictEq k name then Some v else getProperty rest name
  end.

(** [o[name]]: the own property, or else the one [o] inherits from
    [Object.prototype]; [undefined] ([None]) when there is neither. *)
Definition Get (o : list (jsstring * RawValue)) (name : jsstring)
  : option RawValue :=
  match getProperty o name with
  | Some v => Some v
  | None => option_map VBuiltin (Object_prototype name)
  end.

(** [String(value)] *)
Definition String_ (v : RawValue) : jsstring :=
  match v with
  | VString s => s
  | VNumber n => Number_toString n
  | VBoolean true => lit "true"
  | VBoolean false => lit "false"
  | VNull => lit "null"
  | VObject _ => lit "[object Object]"
  | VBuiltin printed => printed
  end.

(** [typeof value === 'object' && value?.text ? value.text : String(value)];
    the empty string is falsy. *)
Definition displayText (v : RawValue) : jsstring :=
  match v with
  | VObject (Some (c :: t)) => c :: t
  | _ => String_ v
  end.

(** The two statements shared by [statesTableStore] and [getVariableValue]:
    the display text, then [{expr}] replaced with the template
    [`(${key})`]. *)
Definition processedValue (key : jsstring) (v : RawValue) : jsstring :=
  replaceExpr (displayText v) (lit "(" ++ key ++ lit ")").

Definition statesTableStore (selectedLocation : option ThreadFlowLocation)
  : list StateEntry :=
  match selectedLocation with
  | Some loc =>
      match state loc with
      | Some st => map (fun kv => {| key := fst kv; value := processedValue (fst kv) (snd kv) |}) st
      | None => []
      end
  | None => []
  end.

(** *** Core functions of the navigation

    A step read from the array may be [undefined] ([None]); reading its
    [state] then throws. *)

Definition findIndex {A} (p : A -> bool) (l : list A) : Z :=
  (fix go (l : list A) (i : Z) : Z :=
     match l with
     | [] => (-1)%Z
     | a :: rest => if p a then i else go rest (i + 1)%Z
     end) l 0%Z.

Definition getCurrentStepIndex (threadFlowLocations : list ThreadFlowLocation)
  (selected : option ThreadFlowLocation) : Z :=
  findIndex (fun tfl =>
               match selected with
               | Some s => Nat.eqb (ref tfl) (ref s)
               | None => false
               end) threadFlowLocations.

(** [a[i]] for a number [i] *)
Definition index {A} (a : list A) (i : Z) : option A :=
  if (i <? 0)%Z then None else nth_error a (Z.to_nat i).

Definition getVariableValue (step : option ThreadFlowLocation) (variable : jsstring)
  : outcome (option jsstring) :=
  match step with
  | None => Throw TypeError
  | Some step =>
      match state step with
      | None => Ret None
      | Some st =>
          match Get st variable with
          | None => Ret None
          | Some v => Ret (Some (processedValue variable v))
          end
      end
  end.

Definition hasValidState (step : option ThreadFlowLocation) : outcome bool :=
  match step with
  | None => Throw TypeError
  | Some step =>
      match state step with
      | None => Ret false
      | Some st => Ret (0 <? length st)
      end
  end.

(** *** Search functions *)

Section Search.

Variable threadFlowLocations : list ThreadFlowLocation.
Variable variable : jsstring.

Definition findInitialized : outcome (option nat) :=
  forUp (fun i =>
           let step := nth_error threadFlowLocations i in
           valid <- hasValidState step ;;
           if negb valid then Ret None
           else
             stepValue <- getVariableValue step variable ;;
             match stepValue with
             | Some _ => Ret (Some i)
             | None => Ret None
             end)
        (length threadFlowLocations) 0.

(** The body shared by the two loops of [findPreviouslyChanged] and
    [findNextChanged]. *)
Definition changedBody (currentValue : jsstring) (i : nat) : outcome (option nat) :=
  let step := nth_error threadFlowLocations i in
  valid <- hasValidState step ;;
  if negb valid then Ret None
  else
    stepValue <- getVariableValue step variable ;;
    match stepValue with
    | None => Ret None
    | Some v => if negb (strictEq v currentValue) then Ret (Some i) else Ret None
    end.

(** [findPreviouslyChanged] and [findNextChanged] from the line after
    [const currentStepIndex = this.getCurrentStepIndex()] on. *)
Definition findPreviouslyChangedAt (currentStepIndex : Z) : outcome (option nat) :=
  if (currentStepIndex <=? 0)%Z then Ret None
  else
    let currentStep := index threadFlowLocations currentStepIndex in
    currentValue <- getVariableValue currentStep variable ;;
    match currentValue with
    | None => Ret None
    | Some currentValue =>
        forDown (changedBody currentValue) (Z.to_nat currentStepIndex)
    end.

Definition findNextChangedAt (currentStepIndex : Z) : outcome (option nat) :=
  if (currentStepIndex =? -1)%Z
     || (Z.of_nat (length threadFlowLocations) - 1 <=? currentStepIndex)%Z
  then Ret None
  else
    let currentStep := index threadFlowLocations currentStepIndex in
    currentValue <- getVariableValue currentStep variable ;;
    match currentValue with
    | None => Ret None
    | Some currentValue =>
        forUp (changedBody currentValue)
              (length threadFlowLocations - Z.to_nat (currentStepIndex + 1))
              (Z.to_nat (currentStepIndex + 1))
    end.

Definition findLastChanged : outcome (option nat) :=
  if length threadFlowLocations =? 0 then Ret None
  else
    let finalStep := nth_error threadFlowLocations (length threadFlowLocations - 1) in
    valid <- hasValidState finalStep ;;
    if negb valid then Ret None
    else
      finalValue <- getVariableValue finalStep variable ;;
      match finalValue with
      | None => Ret None
      | Some finalValue =>
          forDown (fun i =>
                     let step := nth_error threadFlowLocations i in
                     valid <- hasValidState step ;;
                     if negb valid then Ret None
                     else
                       stepValue <- getVariableValue step variable ;;
                       match stepValue with
                       | None => Ret None
                       | Some v =>
                           if negb (strictEq v finalValue) then
                             let targetStepIndex := i + 1 in
                             if targetStepIndex <? length threadFlowLocations then
                               targetValid <- hasValidState (nth_error threadFlowLocations targetStepIndex) ;;
                               if targetValid then Ret (Some targetStepIndex) else Ret None
                             else Ret None
                           else Ret None
                       end)
                  (length threadFlowLocations - 1)
      end.

Variable selected : option ThreadFlowLocation.

Definition findPreviouslyChanged : outcome (option nat) :=
  findPreviouslyChangedAt (getCurrentStepIndex threadFlowLocations selected).

Definition findNextChanged : outcome (option nat) :=
  findNextChangedAt (getCurrentStepIndex threadFlowLocations selected).

End Search.

End Details.

(** ** Regular expressions

    The backtracking matcher of ECMAScript, for the part of the pattern
    language the five patterns of [renderVariableName] are written in: no
    flag but [g], greedy quantifiers, numbered groups. *)

Inductive regex :=
| Empty
| Chr (c : ascii)
| Class (neg : bool) (ranges : list (ascii * ascii))
| Bol
| Eol
| Seq (r1 r2 : regex)
| Alt (r1 r2 : regex)
| Star (r : regex)
| Plus (r : regex)
| Opt (r : regex)
| Group (n : nat) (r : regex).

Definition inRange (c : N) (range : ascii * ascii) : bool :=
  N.leb (N_of_ascii (fst range)) c && N.leb c (N_of_ascii (snd range)).

Definition inClass (neg : bool) (ranges : list (ascii * ascii)) (c : N) : bool :=
  xorb neg (existsb (inRange c) ranges).

Fixpoint groups (r : regex) : list nat :=
  match r with
  | Empty | Chr _ | Class _ _ | Bol | Eol => []
  | Seq r1 r2 | Alt r1 r2 => groups r1 ++ groups r2
  | Star r | Plus r | Opt r => groups r
  | Group n r => n :: groups r
  end.

Record MatchState := {
  endIndex : nat;
  captures : list (nat * (nat * nat))
}.

Definition Continuation := MatchState -> option MatchState.

Fixpoint getCapture (caps : list (nat * (nat * nat))) (n : nat) : option (nat * nat) :=
  match caps with
  | [] => None
  | (g, range) :: rest => if g =? n then Some range else getCapture rest n
  end.

Definition clearCaptures (gs : list nat) (caps : list (nat * (nat * nat)))
  : list (nat * (nat * nat)) :=
  filter (fun p => negb (existsb (Nat.eqb (fst p)) gs)) caps.

Definition orElse {A} (a : option A) (b : option A) : option A :=
  match a with
  | Some z => Some z
  | None => b
  end.

(** [RepeatMatcher] with [min = 0] and no upper bound: each iteration
    forgets the captures of the groups inside the atom, and an iteration that
    matches the empty string is refused.  Every accepted iteration moves the
    end index forward, so [fuel] iterations are all there can be when [fuel]
    exceeds the distance to the end of the input ([RepeatMatcher_fuel]). *)
Fixpoint RepeatMatcher (m : MatchState -> Continuation -> option MatchState)
  (gs : list nat) (c : Continuation) (fuel : nat) (x : MatchState)
  : option MatchState :=
  match fuel with
  | 0 => c x
  | S fuel' =>
      let xr := {| endIndex := endIndex x; captures := clearCaptures gs (captures x) |} in
      orElse (m xr (fun y => if endIndex y =? endIndex x then None
                             else RepeatMatcher m gs c fuel' y))
             (c x)
  end.

Section Matcher.

Variable input : jsstring.

Fixpoint matcher (r : regex) (x : MatchState) (c : Continuation) {struct r}
  : option MatchState :=
  match r with
  | Empty => c x
  | Chr ch =>
      match nth_error input (endIndex x) with
      | Some a => if N.eqb a ch
                  then c {| endIndex := S (endIndex x); captures := captures x |}
                  else None
      | None => None
      end
  | Class neg ranges =>
      match nth_error input (endIndex x) with
      | Some a => if inClass neg ranges a
                  then c {| endIndex := S (endIndex x); captures := captures x |}
                  else None
      | None => None
      end
  | Bol => if endIndex x =? 0 then c x else None
  | Eol => if endIndex x =? length input then c x else None
  | Seq r1 r2 => matcher r1 x (fun y => matcher r2 y c)
  | Alt r1 r2 => orElse (matcher r1 x c) (matcher r2 x c)
  | Star r1 =>
      RepeatMatcher (matcher r1) (groups r1) c (S (length input - endIndex x)) x
  | Plus r1 =>
      let xr := {| endIndex := endIndex x; captures := clearCaptures (groups r1) (captures x) |} in
      matcher r1 xr (fun y =>
        RepeatMatcher (matcher r1) (groups r1) c (S (length input - endIndex y)) y)
  | Opt r1 =>
      let xr := {| endIndex := endIndex x; captures := clearCaptures (groups r1) (captures x) |} in
      orElse (matcher r1 xr (fun y => if endIndex y =? endIndex x then None else c y))
             (c x)
  | Group n r1 =>
      matcher r1 x (fun y =>
        c {| endIndex := endIndex y;
             captures := (n, (endIndex x, endIndex y)) :: captures y |})
  end.

(** [RegExpBuiltinExec] for a global, non-sticky pattern: the first index at
    or after [lastIndex] where the pattern matches.  The result is the
    index of the match and the final state; the new [lastIndex] is the end
    index of that state. *)
Fixpoint search (r : regex) (count i : nat) : option (nat * MatchState) :=
  match count with
  | 0 => None
  | S count' =>
      match matcher r {| endIndex := i; captures := [] |} (fun y => Some y) with
      | Some y => Some (i, y)
      | None => search r count' (S i)
      end
  end.

Definition exec (r : regex) (lastIndex : nat) : option (nat * MatchState) :=
  if length input <? lastIndex then None
  else search r (S (length input - lastIndex)) lastIndex.

(** [match[n]] *)
Definition group (y : MatchState) (n : nat) : option jsstring :=
  match getCapture (captures y) n with
  | Some (from, to) => Some (substring input from to)
  | None => None
  end.

End Matcher.

(** ** [renderVariableName] *)

Module MatchInfo.
Record t := { match_ : jsstring; index : nat; length : nat }.
End MatchInfo.

(** The classes [[a-zA-Z_]], [[a-zA-Z0-9_]] and [[a-zA-Z0-9_.]]. *)
Definition identStart := [("a", "z"); ("A", "Z"); ("_", "_")]%char.
Definition identChar := [("a", "z"); ("A", "Z"); ("0", "9"); ("_", "_")]%char.
Definition identOrDot := [("a", "z"); ("A", "Z"); ("0", "9"); ("_", "_"); (".", ".")]%char.

(** An identifier: one of [[a-zA-Z_]], then any number of [[a-zA-Z0-9_]]. *)
Definition identifier : regex :=
  Seq (Class false identStart) (Star (Class false identChar)).

(** The optional subscript: a backtick, one or more of [\d], and one of
    [[a-z]] or none; all of it or nothing. *)
Definition subscript : regex :=
  Opt (Seq (Chr "`") (Seq (Plus (Class false [("0", "9")%char]))
                          (Opt (Class false [("a", "z")%char])))).

(** 1. Dot notation: one group around an identifier, one or more times a
    dot and an identifier, an optional pair of parentheses, the optional
    subscript. *)
Definition pattern1 : regex :=
  Group 1 (Seq identifier
          (Seq (Plus (Seq (Chr ".") identifier))
          (Seq (Opt (Seq (Chr "(") (Chr ")")))
               subscript))).

(** 2. Arrow notation: the same with [->] for the dot, and no
    parentheses. *)
Definition pattern2 : regex :=
  Group 1 (Seq identifier
          (Seq (Plus (Seq (Chr "-") (Seq (Chr ">") identifier)))
               subscript)).

(** 3. Offset expressions: [offset], an opening parenthesis, one or more
    code units that are not a closing parenthesis, a closing parenthesis,
    the optional subscript. *)
Definition pattern3 : regex :=
  Group 1 (Seq (Chr "o") (Seq (Chr "f") (Seq (Chr "f") (Seq (Chr "s")
          (Seq (Chr "e") (Seq (Chr "t") (Seq (Chr "(")
          (Seq (Plus (Class true [(")", ")")%char]))
          (Seq (Chr ")")
               subscript))))))))).

(** 4. Curly braces: an opening brace, one or more code units that are not
    a closing brace, a closing brace, and an optional subscript that starts
    with a backtick or a single quote. *)
Definition pattern4 : regex :=
  Group 1 (Seq (Chr "{")
          (Seq (Plus (Class true [("}", "}")%char]))
          (Seq (Chr "}")
               (Opt (Seq (Class false [("`", "`"); ("'", "'")]%char)
                    (Seq (Plus (Class false [("0", "9")%char]))
                         (Opt (Class false [("a", "z")%char])))))))).

(** 5. Simple words, in three groups: the start of the text or a code
    unit outside [[a-zA-Z0-9_.]]; an identifier with the optional subscript;
    the end of the text or a code unit outside [[a-zA-Z0-9_.]]. *)
Definition pattern5 : regex :=
  Seq (Group 1 (Alt Bol (Class true identOrDot)))
 (Seq (Group 2 (Seq identifier subscript))
      (Group 3 (Alt Eol (Class true identOrDot)))).

Definition patterns : list regex :=
  [pattern1; pattern2; pattern3; pattern4; pattern5].

(** White space and line terminators, for [trim]: U+0009 to U+000D,
    U+0020, U+00A0, U+1680, U+2000 to U+200A, U+2028, U+2029, U+202F,
    U+205F, U+3000 and U+FEFF. *)
Definition isWhiteSpace (n : N) : bool :=
  (N.leb 9 n && N.leb n 13) || N.eqb n 32 || N.eqb n 160 || N.eqb n 5760
  || (N.leb 8192 n && N.leb n 8202) || N.eqb n 8232 || N.eqb n 8233
  || N.eqb n 8239 || N.eqb n 8287 || N.eqb n 12288 || N.eqb n 65279.

Fixpoint trimStart (s : jsstring) : jsstring :=
  match s with
  | [] => []
  | c :: rest => if isWhiteSpace c then trimStart rest else s
  end.

Definition trim (s : jsstring) : jsstring :=
  rev (trimStart (rev (trimStart s))).

Definition truthy (s : jsstring) : bool :=
  match s with
  | [] => false
  | _ :: _ => true
  end.

Section Render.

Variable text : jsstring.

(** What one turn of the [while] loop pushes, for the match [y] found at
    [matchAt] by the pattern of index [patternIndex]. *)
Definition pushed (patternIndex matchAt : nat) (y : MatchState)
  : outcome (list MatchInfo.t) :=
  found <-
    (if patternIndex =? 4 then
       match group text y 1 with
       | Some prefix => Ret (group text y 2, matchAt + length prefix)
       | None => Throw TypeError
       end
     else Ret (group text y 1, matchAt)) ;;
  match fst found with
  | Some matchText =>
      if truthy matchText && truthy (trim matchText) then
        Ret [ {| MatchInfo.match_ := matchText;
                 MatchInfo.index := snd found;
                 MatchInfo.length := length matchText |} ]
      else Ret []
  | None => Ret []
  end.

(** [while ((match = pattern.exec(text)) !== null) ...]: the loop goes on
    for as long as [exec] finds a match; [turns] bounds the turns the model
    follows, and running out of them is [Hang]. *)
Fixpoint whileExec (patternIndex : nat) (pattern : regex) (turns lastIndex : nat)
  : outcome (list MatchInfo.t) :=
  match turns with
  | 0 => Throw Hang
  | S turns' =>
      match exec text pattern lastIndex with
      | None => Ret []
      | Some (matchAt, y) =>
          now <- pushed patternIndex matchAt y ;;
          later <- whileExec patternIndex pattern turns' (endIndex y) ;;
          Ret (now ++ later)
      end
  end.

(** The matches one pattern contributes; every pattern object is new, so
    its [lastIndex] starts at 0. *)
Definition patternMatches (patternIndex : nat) (pattern : regex)
  : outcome (list MatchInfo.t) :=
  whileExec patternIndex pattern (length text + 2) 0.

Fixpoint forEachPattern (ps : list regex) (patternIndex : nat)
  : outcome (list MatchInfo.t) :=
  match ps with
  | [] => Ret []
  | p :: rest =>
      here <- patternMatches patternIndex p ;;
      there <- forEachPattern rest (S patternIndex) ;;
      Ret (here ++ there)
  end.

Definition collectMatches : outcome (list MatchInfo.t) :=
  forEachPattern patterns 0.

End Render.

(** [matches.sort((a, b) => a.index - b.index)]: the sort is stable. *)
Fixpoint insertMatch (m : MatchInfo.t) (sorted : list MatchInfo.t) : list MatchInfo.t :=
  match sorted with
  | [] => [m]
  | m' :: rest =>
      if MatchInfo.index m <=? MatchInfo.index m' then m :: sorted
      else m' :: insertMatch m rest
  end.

Fixpoint sortMatches (matches : list MatchInfo.t) : list MatchInfo.t :=
  match matches with
  | [] => []
  | m :: rest => insertMatch m (sortMatches rest)
  end.

(** The sweep that removes overlaps. *)
Definition removeOverlaps (matches : list MatchInfo.t) : list MatchInfo.t :=
  fold_left
    (fun uniqueMatches currentMatch =>
       match last (map Some uniqueMatches) None with
       | None => uniqueMatches ++ [currentMatch]
       | Some lastMatch =>
           if MatchInfo.index lastMatch + MatchInfo.length lastMatch
              <=? MatchInfo.index currentMatch
           then uniqueMatches ++ [currentMatch]
           else uniqueMatches
       end)
    matches [].

Inductive Part :=
| PlainText (s : jsstring)
| VariableSpan (variable : jsstring).

Inductive Rendered :=
| Fragment (parts : list Part)
| Unchanged (text : jsstring).

(** One turn of the loop that builds [parts]; the state is
    [(parts, lastIndex)]. *)
Definition addParts (text : jsstring) (st : list Part * nat) (matchInfo : MatchInfo.t)
  : list Part * nat :=
  let '(parts, lastIndex) := st in
  let parts :=
    if lastIndex <? MatchInfo.index matchInfo
    then parts ++ [PlainText (substring text lastIndex (MatchInfo.index matchInfo))]
    else parts in
  (parts ++ [VariableSpan (MatchInfo.match_ matchInfo)],
   MatchInfo.index matchInfo + MatchInfo.length matchInfo).

Definition buildParts (text : jsstring) (uniqueMatches : list MatchInfo.t)
  : list Part * nat :=
  fold_left (addParts text) uniqueMatches ([], 0).

Definition uniqueMatchesOf (text : jsstring) : outcome (list MatchInfo.t) :=
  matches <- collectMatches text ;;
  Ret (removeOverlaps (sortMatches matches)).

Definition renderVariableName (text : jsstring) : outcome Rendered :=
  uniqueMatches <- uniqueMatchesOf text ;;
  let '(parts, lastIndex) := buildParts text uniqueMatches in
  let parts :=
    if lastIndex <? length text
    then parts ++ [PlainText (skipn lastIndex text)]
    else parts in
  Ret (if 0 <? length uniqueMatches then Fragment parts else Unchanged text).

(** ** The table engine

    [tableStore.ts], the generic table store that [StatesTableStore]
    extends, is outside the files embedded here; what follows is written
    from its description. *)

Module TabularEngine.

(** Modelled from the spec: the sort direction, which [toggleSort] flips
    between ascending and descending. *)
Inductive SortDir := Asc | Desc.

Definition reverseDir (d : SortDir) : SortDir :=
  match d with
  | Asc => Desc
  | Desc => Asc
  end.

(** Modelled from the spec: the view state the engine owns, a sort column
    and a direction. *)
Record ViewState := { sortColumn : option jsstring; sortDir : SortDir }.

(** Modelled from the spec: [toggleSort] of the missing [tableStore.ts].
    If the named column is already the active sort column, the direction
    flips; otherwise the column becomes active with ascending direction. *)
Definition toggleSort (columnName : jsstring) (view : ViewState) : ViewState :=
  match sortColumn view with
  | Some active =>
      if strictEq active columnName
      then {| sortColumn := Some active; sortDir := reverseDir (sortDir view) |}
      else {| sortColumn := Some columnName; sortDir := Asc |}
  | None => {| sortColumn := Some columnName; sortDir := Asc |}
  end.

Section Engine.

Variables Entity GroupKey Field : Type.

(** The total order on what the accessors return. *)
Variable fieldLeb : Field -> Field -> bool.
Variable groupKeyEqb : GroupKey -> GroupKey -> bool.

Record Column := {
  name : jsstring;
  defaultWidth : nat;
  accessor : Entity -> Field
}.

Inductive Row :=
| GroupHeader (k : GroupKey)
| ItemRow (item : Entity).

Variable columns : list Column.
Variable groupOf : Entity -> option GroupKey.
Variable accept : Entity -> bool.

Definition sameGroup (a b : option GroupKey) : bool :=
  match a, b with
  | Some x, Some y => groupKeyEqb x y
  | None, None => true
  | _, _ => false
  end.

Fixpoint addToGroup (k : option GroupKey) (item : Entity)
  (gs : list (option GroupKey * list Entity)) : list (option GroupKey * list Entity) :=
  match gs with
  | [] => [(k, [item])]
  | (k', items) :: rest =>
      if sameGroup k' k then (k', items ++ [item]) :: rest
      else (k', items) :: addToGroup k item rest
  end.

Fixpoint insertBy (le : Entity -> Entity -> bool) (item : Entity) (sorted : list Entity)
  : list Entity :=
  match sorted with
  | [] => [item]
  | other :: rest =>
      if le item other then item :: sorted else other :: insertBy le item rest
  end.

Definition sortBy (le : Entity -> Entity -> bool) (items : list Entity) : list Entity :=
  fold_right (insertBy le) [] items.

Definition sortItems (view : ViewState) (items : list Entity) : list Entity :=
  match sortColumn view with
  | None => items
  | Some active =>
      match find (fun col => strictEq (name col) active) columns with
      | None => items
      | Some col =>
          match sortDir view with
          | Asc => sortBy (fun a b => fieldLeb (accessor col a) (accessor col b)) items
          | Desc => sortBy (fun a b => fieldLeb (accessor col b) (accessor col a)) items
          end
      end
  end.

(** Modelled from the spec: [sortedFilteredGroups] of the missing
    [tableStore.ts].  The entities are partitioned by group key in
    first-seen order, filtered within each group, and sorted within each
    group by the accessor of the active column, in the active direction. *)
Definition sortedFilteredGroups (view : ViewState) (entities : list Entity)
  : list (option GroupKey * list Entity) :=
  map (fun g => (fst g, sortItems view (filter accept (snd g))))
      (fold_left (fun gs item => addToGroup (groupOf item) item gs) entities []).

(** Modelled from the spec: [rows] of the missing [tableStore.ts].  The
    groups are flattened; a group without a key has no header row. *)
Definition rows (view : ViewState) (entities : list Entity) : list Row :=
  flat_map (fun g =>
              match fst g with
              | Some k => GroupHeader k :: map ItemRow (snd g)
              | None => map ItemRow (snd g)
              end)
           (sortedFilteredGroups view entities).

End Engine.

(** The order on strings: code unit by code unit. *)
Fixpoint stringLeb (a b : jsstring) : bool :=
  match a, b with
  | [], _ => true
  | _ :: _, [] => false
  | x :: a', y :: b' =>
      if N.ltb x y then true
      else if N.ltb y x then false
      else stringLeb a' b'
  end.

End TabularEngine.

(** ** [StatesTableStore]

    The store of [statesTableStore.ts]: two columns, no grouping, no filter,
    sorted by the first column to begin with, and rows without group
    headers. *)

Module StatesTableStore.

Definition statesColumns : list (TabularEngine.Column StateEntry jsstring) :=
  [ {| TabularEngine.name := lit "Key"; TabularEngine.defaultWidth := 150;
       TabularEngine.accessor := key |};
    {| TabularEngine.name := lit "Value"; TabularEngine.defaultWidth := 200;
       TabularEngine.accessor := value |} ].

Definition columns := statesColumns.

Definition filter (_ : StateEntry) : bool := true.

(** The grouping function of the constructor, [() => undefined]. *)
Definition groupBy (_ : StateEntry) : option unit := None.

(** The view state after the constructor: [sortColumn = columns[0].name],
    in the direction the table store starts with. *)
Definition initialView : TabularEngine.ViewState :=
  {| TabularEngine.sortColumn := option_map (@TabularEngine.name _ _) (hd_error columns);
     TabularEngine.sortDir := TabularEngine.Asc |}.

Definition groupsFilteredSorted (view : TabularEngine.ViewState)
  (states : list StateEntry) : list (option unit * list StateEntry) :=
  TabularEngine.sortedFilteredGroups TabularEngine.stringLeb (fun _ _ => true)
    columns groupBy filter view states.

Definition rows (view : TabularEngine.ViewState) (states : list StateEntry)
  : list (TabularEngine.Row StateEntry unit) :=
  flat_map (fun group => map (@TabularEngine.ItemRow _ _) (snd group))
           (groupsFilteredSorted view states).

End StatesTableStore.

(** ** Vocabulary of the statements *)

(** What a loop whose body is the pure [b] returns: [lastBelow] for a
    downward loop from [n - 1], [firstFrom] for an upward one. *)
Fixpoint lastBelow {A} (b : nat -> option A) (n : nat) : option A :=
  match n with
  | 0 => None
  | S i => match b i with Some a => Some a | None => lastBelow b i end
  end.

Fixpoint firstFrom {A} (b : nat -> option A) (count i : nat) : option A :=
  match count with
  | 0 => None
  | S c => match b i with Some a => Some a | None => firstFrom b c (S i) end
  end.


Section NavigationVocabulary.

Context `{NumberModel} `{PrototypeModel}.

Variable threadFlowLocations : list ThreadFlowLocation.
Variable variable : jsstring.

(** Step [i] exists and its state is not empty. *)
Definition validAt (i : nat) : Prop :=
  exists step, nth_error threadFlowLocations i = Some step
               /\ hasValidState (Some step) = Ret true.

(** What a loop reads at step [i]: the step exists, its state is not empty
    and [getVariableValue] returns [v] for the variable, from a key of the
    state or, when the state has no such key, from a name inherited from
    [Object.prototype]. *)
Definition readsAt (i : nat) (v : jsstring) : Prop :=
  exists step, nth_error threadFlowLocations i = Some step
               /\ hasValidState (Some step) = Ret true
               /\ getVariableValue (Some step) variable = Ret (Some v).

(** ... and that value is not [reference]. *)
Definition differsAt (reference : jsstring) (i : nat) : Prop :=
  exists v, readsAt i v /\ v <> reference.

(** What [getVariableValue] returns at step [i] of the timeline. *)
Definition valueAt (i : nat) : option jsstring :=
  match nth_error threadFlowLocations i with
  | Some step =>
      match state step with
      | Some st =>
          match Get st variable with
          | Some v => Some (processedValue variable v)
          | None => None
          end
      | None => None
      end
  | None => None
  end.

Definition nonEmptyAt (i : nat) : bool :=
  match nth_error threadFlowLocations i with
  | Some step =>
      match state step with
      | Some st => 0 <? length st
      | None => false
      end
  | None => false
  end.

(** The bodies of the loops, without their effects. *)
Definition stepValueAt (i : nat) : option jsstring :=
  if nonEmptyAt i then valueAt i else None.

Definition changedAt (reference : jsstring) (i : nat) : option nat :=
  match stepValueAt i with
  | Some v => if strictEq v reference then None else Some i
  | None => None
  end.

Definition lastChangedAt (reference : jsstring) (i : nat) : option nat :=
  match stepValueAt i with
  | Some v => if strictEq v reference then None
              else if nonEmptyAt (i + 1) then Some (i + 1) else None
  | None => None
  end.

Definition initializedAt (i : nat) : option nat :=
  match stepValueAt i with
  | Some _ => Some i
  | None => None
  end.

End NavigationVocabulary.

(** The timeline of scenario 2: [ptr] is "0x0" at step 0, step 1 has an
    empty state, [ptr] is "0x0" at step 2 and "0x4" at step 3. *)
Definition scenario2 `{NumberModel} : list ThreadFlowLocation :=
  [ {| ref := 10; state := Some [(lit "ptr", VObject (Some (lit "0x0")))] |};
    {| ref := 11; state := Some [] |};
    {| ref := 12; state := Some [(lit "ptr", VObject (Some (lit "0x0")))] |};
    {| ref := 13; state := Some [(lit "ptr", VObject (Some (lit "0x4")))] |} ].

(** The numbers of the examples: integers, printed in decimal, as [String]
    prints an integer of magnitude below 10^21 (from there on it prints an
    exponent, which no example needs). *)
Definition integerNumbers : NumberModel := {|
  Num := Z;
  Number_toString := fun z => lit (DecimalString.NilZero.string_of_int (Z.to_int z))
|}.

(** A built-in function as V8 prints it. *)
Definition nativeFunction (name : jsstring) : jsstring :=
  lit "function " ++ name ++ lit "() { [native code] }".

(** [Object.prototype] in V8, the engine the panel runs on: [constructor]
    is the function [Object], [__proto__] gives [Object.prototype] itself,
    the other names are functions of their own name. *)
Definition v8ObjectPrototype : PrototypeModel := {|
  Object_prototype := fun name =>
    if strictEq name (lit "constructor") then Some (nativeFunction (lit "Object"))
    else if strictEq name (lit "__proto__") then Some (lit "[object Object]")
    else if existsb (strictEq name)
              [ lit "hasOwnProperty"; lit "isPrototypeOf"; lit "propertyIsEnumerable";
                lit "toLocaleString"; lit "toString"; lit "valueOf";
                lit "__defineGetter__"; lit "__defineSetter__";
                lit "__lookupGetter__"; lit "__lookupSetter__" ]
    then Some (nativeFunction name)
    else None
|}.

(** A timeline in which [constructor], a name every state inherits, is a
    key of the second step only. *)
Definition shadowTimeline `{NumberModel} : list ThreadFlowLocation :=
  [ {| ref := 30; state := Some [(lit "x", VObject (Some (lit "1")))] |};
    {| ref := 31; state := Some [(lit "constructor", VObject (Some (lit "A")))] |};
    {| ref := 32; state := Some [(lit "x", VObject (Some (lit "1")))] |} ].

(** The replacement the comment in the source describes: every occurrence
    of [{expr}] becomes [replacement], read literally. *)
Fixpoint replaceLiteralFrom (replacement : jsstring) (skip : nat) (s : jsstring)
  : jsstring :=
  match s with
  | [] => []
  | c :: s' =>
      match skip with
      | S k => replaceLiteralFrom replacement k s'
      | 0 =>
          if startsWith exprPlaceholder s then
            replacement ++ replaceLiteralFrom replacement (length exprPlaceholder - 1) s'
          else c :: replaceLiteralFrom replacement 0 s'
      end
  end.

Definition hasDollar (s : jsstring) : bool := existsb (fun c => N.eqb c dollar) s.

(** The states of the test of the sort. *)
Definition threeStates : list StateEntry :=
  [ {| key := lit "z_key"; value := lit "z_value" |};
    {| key := lit "a_key"; value := lit "a_value" |};
    {| key := lit "m_key"; value := lit "m_value" |} ].


(** The language of a pattern over one input, by positions: [Lang r i j]
    when [r] can match the code units from [i] up to [j]. *)
Inductive iter (R : nat -> nat -> Prop) : nat -> nat -> Prop :=
| iter_done i : iter R i i
| iter_step i m j : R i m -> iter R m j -> iter R i j.

Section Language.

Variable input : jsstring.

Fixpoint Lang (r : regex) (i j : nat) : Prop :=
  match r with
  | Empty => j = i
  | Chr ch => nth_error input i = Some (N_of_ascii ch) /\ j = S i
  | Class neg ranges =>
      exists a, nth_error input i = Some a /\ inClass neg ranges a = true /\ j = S i
  | Bol => i = 0 /\ j = i
  | Eol => i = length input /\ j = i
  | Seq r1 r2 => exists m, Lang r1 i m /\ Lang r2 m j
  | Alt r1 r2 => Lang r1 i j \/ Lang r2 i j
  | Star r1 => iter (Lang r1) i j
  | Plus r1 => exists m, Lang r1 i m /\ iter (Lang r1) m j
  | Opt r1 => Lang r1 i j \/ j = i
  | Group _ r1 => Lang r1 i j
  end.

End Language.

(** The least number of code units a match of the pattern takes. *)
Fixpoint minLen (r : regex) : nat :=
  match r with
  | Empty | Bol | Eol => 0
  | Chr _ | Class _ _ => 1
  | Seq r1 r2 => minLen r1 + minLen r2
  | Alt r1 r2 => Nat.min (minLen r1) (minLen r2)
  | Star _ | Opt _ => 0
  | Plus r1 => minLen r1
  | Group _ r1 => minLen r1
  end.

(** The state a match attempt at index [i] starts from. *)
Definition startAt (i : nat) : MatchState := {| endIndex := i; captures := [] |}.

(** A continuation that accepts every state ending at [j]. *)
Definition acceptsAt (c : Continuation) (j : nat) : Prop :=
  forall y, endIndex y = j -> c y <> None.

(** What a successful run of the matcher says about the state its
    continuation accepted. *)
Definition Reaches (R : nat -> nat -> Prop) (gs : list nat)
  (x : MatchState) (c : Continuation) (z : MatchState) : Prop :=
  exists y, c y = Some z
            /\ R (endIndex x) (endIndex y)
            /\ forall g, ~ In g gs ->
                 getCapture (captures y) g = getCapture (captures x) g.

(** The matcher calls its continuation only on states further on, inside
    the input. *)
Definition agreeFrom (input : jsstring) (x : MatchState) (c1 c2 : Continuation) : Prop :=
  forall y, endIndex x <= endIndex y ->
            endIndex y - endIndex x <= length input - endIndex x ->
            c1 y = c2 y.

(** ** Vocabulary for the scanner *)

(** The offset just past a match. *)
Definition endOf (m : MatchInfo.t) : nat := MatchInfo.index m + MatchInfo.length m.

(** A match record that says where its text is in [text]: the text is the
    substring at its range, the range is inside [text] and not empty. *)
Definition WellFormed (text : jsstring) (m : MatchInfo.t) : Prop :=
  MatchInfo.match_ m = substring text (MatchInfo.index m) (endOf m)
  /\ endOf m <= length text
  /\ 0 < MatchInfo.length m.

(** Each match ends before the later ones start. *)
Definition Disjoint (ms : list MatchInfo.t) : Prop :=
  StronglySorted (fun a b => endOf a <= MatchInfo.index b) ms.

(** The sweep, by the end of the last match kept. *)
Fixpoint sweepFrom (bound : nat) (matches : list MatchInfo.t) : list MatchInfo.t :=
  match matches with
  | [] => []
  | currentMatch :: rest =>
      if bound <=? MatchInfo.index currentMatch
      then currentMatch :: sweepFrom (endOf currentMatch) rest
      else sweepFrom bound rest
  end.

Definition partText (p : Part) : jsstring :=
  match p with
  | PlainText s => s
  | VariableSpan variable => variable
  end.

(** The text a rendering shows. *)
Definition renderedText (r : Rendered) : jsstring :=
  match r with
  | Fragment parts => concat (map partText parts)
  | Unchanged text => text
  end.

(** What the loop pushes for a match of [pattern] found at [s]: well-formed
    records inside the span of the match. *)
Definition PushesInside (patternIndex : nat) (pattern : regex) : Prop :=
  forall text s y,
    matcher text pattern (startAt s) (fun y => Some y) = Some y ->
    exists ms,
      pushed text patternIndex s y = Ret ms
      /\ Forall (WellFormed text) ms
      /\ Forall (fun m => s <= MatchInfo.index m /\ endOf m <= endIndex y) ms
      /\ length ms <= 1.

(** The matches the pattern of index [patternIndex] contributes (family
    [patternIndex + 1] of the grammar). *)
Definition rawMatches (text : jsstring) (patternIndex : nat) : outcome (list MatchInfo.t) :=
  patternMatches text patternIndex (nth patternIndex patterns Empty).

(** The end of the last match kept so far, 0 when there is none. *)
Definition boundOf (uniqueMatches : list MatchInfo.t) : nat :=
  match last (map Some uniqueMatches) None with
  | None => 0
  | Some lastMatch => endOf lastMatch
  end.

Definition startsAt (i : nat) (m : MatchInfo.t) : bool := MatchInfo.index m =? i.

(** The order the sort puts the matches in. *)
Definition byIndex (a b : MatchInfo.t) : Prop := MatchInfo.index a <= MatchInfo.index b.

(** The texts of the scenarios. *)
Definition scenario1 : jsstring := lit "obj.method() returned offset(x+1)`123a".

Definition token (s : jsstring) (at_ : nat) : MatchInfo.t :=
  {| MatchInfo.match_ := s; MatchInfo.index := at_; MatchInfo.length := length s |}.

(** ** Vocabulary for the bare identifiers *)

Definition isIdentStart (c : N) : bool := inClass false identStart c.
Definition isIdentChar (c : N) : bool := inClass false identChar c.
Definition isDigit (c : N) : bool := inClass false [("0", "9")%char] c.
Definition isLower (c : N) : bool := inClass false [("a", "z")%char] c.

(** What the fifth pattern accepts on either side of an identifier: a
    code unit outside [[a-zA-Z0-9_.]]. *)
Definition isBoundary (c : N) : bool := inClass true identOrDot c.

Definition backtick : N := "`"%char.

Definition charAt (text : jsstring) (i : nat) (p : N -> bool) : Prop :=
  exists c, nth_error text i = Some c /\ p c = true.

(** From [j] up to [j2] there is a run of letters, digits and underscores
    that does not start with a digit. *)
Definition IdentifierRun (text : jsstring) (j j2 : nat) : Prop :=
  j < j2
  /\ charAt text j isIdentStart
  /\ forall k, j < k < j2 -> charAt text k isIdentChar.

(** The run ends the text, or a boundary code unit follows it. *)
Definition BoundedRight (text : jsstring) (j2 : nat) : Prop :=
  j2 = length text \/ charAt text j2 isBoundary.

(** The run starts the text, or a boundary code unit comes before it that
    is not the one right after a match of [bare] (the bare-identifier
    matches of the text). *)
Definition BoundedLeft (text : jsstring) (bare : list MatchInfo.t) (j : nat) : Prop :=
  j = 0
  \/ (charAt text (j - 1) isBoundary
      /\ forall m, In m bare -> endOf m <> j - 1).

(** The ranges of two matches are apart. *)
Definition Apart (m m' : MatchInfo.t) : Prop :=
  endOf m' <= MatchInfo.index m \/ endOf m <= MatchInfo.index m'.

(** The three groups of the fifth pattern. *)
Definition leftBoundary : regex := Alt Bol (Class true identOrDot).
Definition bareToken : regex := Seq identifier subscript.
Definition rightBoundary : regex := Alt Eol (Class true identOrDot).

(** A timeline where the step after the one that differs has an empty
    state: [ptr] is "0x0", then an empty step, then "0x4". *)
Definition gapTimeline `{NumberModel} : list ThreadFlowLocation :=
  [ {| ref := 20; state := Some [(lit "ptr", VObject (Some (lit "0x0")))] |};
    {| ref := 21; state := None |};
    {| ref := 22; state := Some [(lit "ptr", VObject (Some (lit "0x4")))] |} ].

(** ** The functions that navigate

    The part of the component's state they touch: the selected step and the
    context menu, which holds the variable that was clicked and where. *)

Section Navigate.

Context `{NumberModel} `{PrototypeModel}.

Variable Menu : Type.

Record DetailsState := {
  selectedThreadFlowLocation : option ThreadFlowLocation;
  contextMenu : option Menu
}.

Variable threadFlowLocations : list ThreadFlowLocation.

(** [navigateToStep]: the selection becomes [threadFlowLocations[stepIndex]]
    unless [stepIndex] is [null]; the menu is closed in both cases. *)
Definition navigateToStep (stepIndex : option nat) (st : DetailsState) : DetailsState :=
  {| selectedThreadFlowLocation :=
       match stepIndex with
       | Some i => nth_error threadFlowLocations i
       | None => selectedThreadFlowLocation st
       end;
     contextMenu := None |}.

Variable variable : jsstring.

Definition navigateToInitialized (st : DetailsState) : outcome DetailsState :=
  targetIndex <- findInitialized threadFlowLocations variable ;;
  Ret (navigateToStep targetIndex st).

Definition navigateToPreviouslyChanged (st : DetailsState) : outcome DetailsState :=
  targetIndex <- findPreviouslyChanged threadFlowLocations variable
                   (selectedThreadFlowLocation st) ;;
  Ret (navigateToStep targetIndex st).

Definition navigateToNextChanged (st : DetailsState) : outcome DetailsState :=
  targetIndex <- findNextChanged threadFlowLocations variable
                   (selectedThreadFlowLocation st) ;;
  Ret (navigateToStep targetIndex st).

Definition navigateToLastChanged (st : DetailsState) : outcome DetailsState :=
  targetIndex <- findLastChanged threadFlowLocations variable ;;
  Ret (navigateToStep targetIndex st).

(** What a navigation function leaves behind when its query answered [r]:
    the menu is closed, and the current step index is the answer, or the
    selection is what it was when there was no answer. *)
Definition Lands (st : DetailsState) (r : option nat) (st' : DetailsState) : Prop :=
  contextMenu st' = None
  /\ match r with
     | Some t =>
         getCurrentStepIndex threadFlowLocations (selectedThreadFlowLocation st')
         = Z.of_nat t
     | None => selectedThreadFlowLocation st' = selectedThreadFlowLocation st
     end.

(** [x !== null] *)
Definition notNull {A} (x : option A) : bool :=
  match x with
  | Some _ => true
  | None => false
  end.

Definition canNavigateToInitialized : outcome bool :=
  r <- findInitialized threadFlowLocations variable ;; Ret (notNull r).

Definition canNavigateToPreviouslyChanged (st : DetailsState) : outcome bool :=
  r <- findPreviouslyChanged threadFlowLocations variable
         (selectedThreadFlowLocation st) ;;
  Ret (notNull r).

Definition canNavigateToNextChanged (st : DetailsState) : outcome bool :=
  r <- findNextChanged threadFlowLocations variable
         (selectedThreadFlowLocation st) ;;
  Ret (notNull r).

Definition canNavigateToLastChanged : outcome bool :=
  r <- findLastChanged threadFlowLocations variable ;; Ret (notNull r).

End Navigate.

(** ** Vocabulary for the projection *)

(** [{expr}] occurs somewhere in [s]. *)
Fixpoint hasPlaceholder (s : jsstring) : bool :=
  match s with
  | [] => false
  | _ :: rest => startsWith exprPlaceholder s || hasPlaceholder rest
  end.

(** ** Vocabulary for the tokens *)

(** The part of a pattern that a token is the match of: the group of the
    patterns 1 to 4, the second group of pattern 5. *)
Definition tokenPattern (patternIndex : nat) : regex :=
  match nth patternIndex patterns Empty with
  | Group _ body => body
  | Seq (Group _ _) (Seq (Group _ tok) _) => tok
  | r => r
  end.

(** The texts of the variable spans of a rendering, in order. *)
Definition spansOf (parts : list Part) : list jsstring :=
  flat_map (fun p => match p with
                     | VariableSpan variable => [variable]
                     | PlainText _ => []
                     end) parts.

Definition openBrace : N := "{"%char.

(** ** The link of a GitHub alert

    In [render], the property [github/alertUrl] of a result is shown as a
    link whose address is the value after two [replace] calls with string
    patterns. *)

(** [StringIndexOf(string, searchValue, 0)] *)
Fixpoint StringIndexOf (string searchValue : jsstring) {struct string} : option nat :=
  if startsWith searchValue string then Some 0
  else match string with
       | [] => None
       | _ :: rest => option_map S (StringIndexOf rest searchValue)
       end.

(** [string.replace(searchValue, replaceValue)] for a string
    [searchValue]: the first occurrence only, [replaceValue] read as a
    replacement template. *)
Definition String_replace (string searchValue replaceValue : jsstring) : jsstring :=
  match StringIndexOf string searchValue with
  | None => string
  | Some position =>
      let preceding := firstn position string in
      let following := skipn (position + length searchValue) string in
      preceding ++ GetSubstitution searchValue preceding following replaceValue
      ++ following
  end.

Definition alertHref (value : jsstring) : jsstring :=
  String_replace
    (String_replace value (lit "api.github.com/repos") (lit "github.com"))
    (lit "/code-scanning/alerts") (lit "/security/code-scanning").

Definition slash : N := "/"%char.

(** ** Inputs of the examples *)

(** The last step of scenario 2 is selected and the menu is open. *)
Definition atLastStep `{NumberModel} : DetailsState unit :=
  {| selectedThreadFlowLocation := nth_error scenario2 3; contextMenu := Some tt |}.

(** The step of scenario 4: [count] is the object whose text is
    ["{expr} == 5"]. *)
Definition countStep `{NumberModel} : ThreadFlowLocation :=
  {| ref := 40; state := Some [(lit "count", VObject (Some (lit "{expr} == 5")))] |}.

(** * Properties *)

(** ** Loops *)

Lemma forDown_pure {A} (body : nat -> outcome (option A)) (b : nat -> option A) n :
  (forall i, i < n -> body i = Ret (b i)) ->
  forDown body n = Ret (lastBelow b n).
Proof.
  induction n as [|n IH]; intros Hb; simpl.
  - reflexivity.
  - rewrite (Hb n) by lia. simpl.
    destruct (b n); [reflexivity|].
    apply IH. intros i Hi. apply Hb. lia.
Qed.

Lemma forUp_pure {A} (body : nat -> outcome (option A)) (b : nat -> option A) count :
  forall i,
  (forall j, i <= j < i + count -> body j = Ret (b j)) ->
  forUp body count i = Ret (firstFrom b count i).
Proof.
  induction count as [|c IH]; intros i Hb; simpl.
  - reflexivity.
  - rewrite (Hb i) by lia. simpl.
    destruct (b i); [reflexivity|].
    apply IH. intros j Hj. apply Hb. lia.
Qed.

Lemma lastBelow_Some {A} (b : nat -> option A) n a :
  lastBelow b n = Some a <->
  exists i, i < n /\ b i = Some a /\ forall j, i < j < n -> b j = None.
Proof.
  induction n as [|n IH]; simpl.
  - split; [discriminate|]. intros (i & Hi & _). lia.
  - destruct (b n) as [a'|] eqn:E.
    + split.
      * intros Ha. exists n. split; [lia|]. split; [congruence|]. intros j Hj. lia.
      * intros (i & Hi & Hbi & Hlast).
        destruct (Nat.eq_dec i n) as [->|Hne]; [congruence|].
        rewrite (Hlast n) in E by lia. discriminate.
    + rewrite IH. split.
      * intros (i & Hi & Hbi & Hlast). exists i. split; [lia|]. split; [assumption|].
        intros j Hj. destruct (Nat.eq_dec j n) as [->|Hne]; [assumption|].
        apply Hlast. lia.
      * intros (i & Hi & Hbi & Hlast).
        destruct (Nat.eq_dec i n) as [->|Hne]; [congruence|].
        exists i. split; [lia|]. split; [assumption|]. intros j Hj. apply Hlast. lia.
Qed.

Lemma lastBelow_None {A} (b : nat -> option A) n :
  lastBelow b n = None <-> forall j, j < n -> b j = None.
Proof.
  induction n as [|n IH]; simpl.
  - split; [intros _ j Hj; lia | reflexivity].
  - destruct (b n) eqn:E.
    + split; [discriminate|]. intros Hn. rewrite Hn in E by lia. discriminate.
    + rewrite IH. split.
      * intros Hn j Hj. destruct (Nat.eq_dec j n) as [->|Hne]; [assumption|].
        apply Hn. lia.
      * intros Hn j Hj. apply Hn. lia.
Qed.

Lemma firstFrom_Some {A} (b : nat -> option A) count a :
  forall i,
  firstFrom b count i = Some a <->
  exists j, i <= j < i + count /\ b j = Some a /\ forall k, i <= k < j -> b k = None.
Proof.
  induction count as [|c IH]; intros i; simpl.
  - split; [discriminate|]. intros (j & Hj & _). lia.
  - destruct (b i) as [a'|] eqn:E.
    + split.
      * intros Ha. exists i. split; [lia|]. split; [congruence|]. intros k Hk. lia.
      * intros (j & Hj & Hbj & Hfirst).
        destruct (Nat.eq_dec j i) as [->|Hne]; [congruence|].
        rewrite (Hfirst i) in E by lia. discriminate.
    + rewrite IH. split.
      * intros (j & Hj & Hbj & Hfirst). exists j. split; [lia|]. split; [assumption|].
        intros k Hk. destruct (Nat.eq_dec k i) as [->|Hne]; [assumption|].
        apply Hfirst. lia.
      * intros (j & Hj & Hbj & Hfirst).
        destruct (Nat.eq_dec j i) as [->|Hne]; [congruence|].
        exists j. split; [lia|]. split; [assumption|]. intros k Hk. apply Hfirst. lia.
Qed.

Lemma firstFrom_None {A} (b : nat -> option A) count :
  forall i,
  firstFrom b count i = None <-> forall j, i <= j < i + count -> b j = None.
Proof.
  induction count as [|c IH]; intros i; simpl.
  - split; [intros _ j Hj; lia | reflexivity].
  - destruct (b i) eqn:E.
    + split; [discriminate|]. intros Hn. rewrite Hn in E by lia. discriminate.
    + rewrite IH. split.
      * intros Hn j Hj. destruct (Nat.eq_dec j i) as [->|Hne]; [assumption|].
        apply Hn. lia.
      * intros Hn j Hj. apply Hn. lia.
Qed.

Lemma strictEq_true a b : strictEq a b = true <-> a = b.
Proof.
  unfold strictEq. destruct (jsstring_eq_dec a b); split; congruence.
Qed.

Lemma strictEq_false a b : strictEq a b = false <-> a <> b.
Proof.
  unfold strictEq. destruct (jsstring_eq_dec a b); split; congruence.
Qed.

Lemma findIndex_range {A} (p : A -> bool) (l : list A) :
  (findIndex p l = -1 \/ 0 <= findIndex p l < Z.of_nat (length l))%Z.
Proof.
  unfold findIndex.
  enough (G : forall i,
    let r := (fix go (l : list A) (i : Z) : Z :=
       match l with
       | [] => (-1)%Z
       | a :: rest => if p a then i else go rest (i + 1)%Z
       end) l i in
    (0 <= i -> r = -1 \/ i <= r < i + Z.of_nat (length l))%Z).
  { specialize (G 0%Z). simpl in G. lia. }
  induction l as [|a l IH]; intros i; simpl.
  - intros _. left. reflexivity.
  - intros Hi. destruct (p a).
    + right. lia.
    + specialize (IH (i + 1)%Z). simpl in IH. lia.
Qed.

(** ** Navigation *)

Section NavigationFacts.

Context `{NumberModel} `{PrototypeModel}.

Variable locs : list ThreadFlowLocation.
Variable variable : jsstring.

(** Inside the timeline [valueAt] is what [getVariableValue] returns. *)
Lemma getVariableValue_inside i :
  i < length locs ->
  getVariableValue (nth_error locs i) variable = Ret (valueAt locs variable i).
Proof.
  intros Hi. unfold valueAt.
  destruct (nth_error locs i) as [step|] eqn:E.
  - cbn [getVariableValue]. destruct (state step) as [st|]; [|reflexivity].
    destruct (Get st variable); reflexivity.
  - apply nth_error_None in E. lia.
Qed.

Lemma valueAt_Some i v :
  valueAt locs variable i = Some v <->
  exists step, nth_error locs i = Some step
               /\ getVariableValue (Some step) variable = Ret (Some v).
Proof.
  unfold valueAt. split.
  - destruct (nth_error locs i) as [step|] eqn:E; [|discriminate].
    intros Hv. exists step. split; [reflexivity|]. cbn [getVariableValue].
    destruct (state step) as [st|]; [|discriminate].
    destruct (Get st variable); [|discriminate]. congruence.
  - intros (step & -> & Hvalue). cbn [getVariableValue] in Hvalue.
    destruct (state step) as [st|]; [|discriminate].
    destruct (Get st variable); congruence.
Qed.

Lemma stepValueAt_Some i v :
  stepValueAt locs variable i = Some v <-> readsAt locs variable i v.
Proof.
  unfold stepValueAt, readsAt. split.
  - destruct (nonEmptyAt locs i) eqn:En; [|discriminate].
    intros Hv. apply valueAt_Some in Hv. destruct Hv as (step & Hs & Hv).
    exists step. split; [exact Hs|]. split; [|exact Hv].
    unfold nonEmptyAt in En. rewrite Hs in En. cbn [hasValidState].
    destruct (state step); congruence.
  - intros (step & Hs & Hvalid & Hvalue).
    assert (En : nonEmptyAt locs i = true).
    { unfold nonEmptyAt. rewrite Hs. cbn [hasValidState] in Hvalid.
      destruct (state step); congruence. }
    rewrite En. apply valueAt_Some. exists step. auto.
Qed.

Lemma stepValueAt_None i :
  stepValueAt locs variable i = None <-> forall v, ~ readsAt locs variable i v.
Proof.
  split.
  - intros Hn v Hd. apply stepValueAt_Some in Hd. congruence.
  - intros Hn. destruct (stepValueAt locs variable i) as [v|] eqn:E; [|reflexivity].
    exfalso. apply (Hn v). apply stepValueAt_Some. assumption.
Qed.

Lemma nonEmptyAt_true i : nonEmptyAt locs i = true <-> validAt locs i.
Proof.
  unfold nonEmptyAt, validAt. split.
  - destruct (nth_error locs i) as [step|]; [|discriminate].
    intros Hv. exists step. split; [reflexivity|]. simpl.
    destruct (state step); congruence.
  - intros (step & -> & Hvalid). simpl in Hvalid.
    destruct (state step); congruence.
Qed.

Lemma readsAt_valid i v : readsAt locs variable i v -> validAt locs i.
Proof. intros (step & ? & ? & ?). exists step. auto. Qed.

Lemma readsAt_inj i v w :
  readsAt locs variable i v -> readsAt locs variable i w -> v = w.
Proof.
  intros Hv Hw. apply stepValueAt_Some in Hv, Hw. congruence.
Qed.

Lemma changedAt_Some reference i t :
  changedAt locs variable reference i = Some t <->
  t = i /\ differsAt locs variable reference i.
Proof.
  unfold changedAt, differsAt. split.
  - destruct (stepValueAt locs variable i) as [v|] eqn:E; [|discriminate].
    destruct (strictEq v reference) eqn:Eq; [discriminate|].
    intros [= <-]. split; [reflexivity|]. exists v.
    split; [apply stepValueAt_Some; assumption | apply strictEq_false; assumption].
  - intros (-> & v & Hd & Hne). apply stepValueAt_Some in Hd. rewrite Hd.
    apply strictEq_false in Hne. rewrite Hne. reflexivity.
Qed.

Lemma changedAt_None reference i :
  changedAt locs variable reference i = None <-> ~ differsAt locs variable reference i.
Proof.
  split.
  - intros Hn Hd. assert (G : changedAt locs variable reference i = Some i).
    { apply changedAt_Some. auto. }
    congruence.
  - intros Hn. destruct (changedAt locs variable reference i) as [t|] eqn:E; [|reflexivity].
    apply changedAt_Some in E. tauto.
Qed.

Lemma lastChangedAt_Some reference i t :
  lastChangedAt locs variable reference i = Some t <->
  t = i + 1 /\ differsAt locs variable reference i /\ validAt locs (i + 1).
Proof.
  unfold lastChangedAt, differsAt. split.
  - destruct (stepValueAt locs variable i) as [v|] eqn:E; [|discriminate].
    destruct (strictEq v reference) eqn:Eq; [discriminate|].
    destruct (nonEmptyAt locs (i + 1)) eqn:En; [|discriminate].
    intros [= <-]. split; [reflexivity|]. split.
    + exists v. split; [apply stepValueAt_Some; assumption | apply strictEq_false; assumption].
    + apply nonEmptyAt_true. assumption.
  - intros (-> & (v & Hd & Hne) & Hvalid). apply stepValueAt_Some in Hd. rewrite Hd.
    apply strictEq_false in Hne. rewrite Hne.
    apply nonEmptyAt_true in Hvalid. rewrite Hvalid. reflexivity.
Qed.

Lemma lastChangedAt_None reference i :
  lastChangedAt locs variable reference i = None <->
  ~ (differsAt locs variable reference i /\ validAt locs (i + 1)).
Proof.
  split.
  - intros Hn Hd. assert (G : lastChangedAt locs variable reference i = Some (i + 1)).
    { apply lastChangedAt_Some. tauto. }
    congruence.
  - intros Hn. destruct (lastChangedAt locs variable reference i) as [t|] eqn:E; [|reflexivity].
    apply lastChangedAt_Some in E. tauto.
Qed.

(** Inside the array the loop bodies never throw. *)

Lemma hasValidState_at i :
  i < length locs ->
  hasValidState (nth_error locs i) = Ret (nonEmptyAt locs i).
Proof.
  intros Hi. unfold nonEmptyAt.
  destruct (nth_error locs i) as [step|] eqn:E.
  - simpl. destruct (state step); reflexivity.
  - apply nth_error_None in E. lia.
Qed.

Lemma getVariableValue_at i :
  i < length locs ->
  nonEmptyAt locs i = true ->
  getVariableValue (nth_error locs i) variable = Ret (stepValueAt locs variable i).
Proof.
  intros Hi En. unfold stepValueAt. rewrite En. apply getVariableValue_inside. exact Hi.
Qed.

Lemma stepValueAt_empty i :
  nonEmptyAt locs i = false -> stepValueAt locs variable i = None.
Proof. intros En. unfold stepValueAt. rewrite En. reflexivity. Qed.

Lemma changedBody_pure reference i :
  i < length locs ->
  changedBody locs variable reference i = Ret (changedAt locs variable reference i).
Proof.
  intros Hi. unfold changedBody, changedAt.
  rewrite hasValidState_at by assumption. simpl.
  destruct (nonEmptyAt locs i) eqn:En; simpl.
  - rewrite getVariableValue_at by assumption. simpl.
    destruct (stepValueAt locs variable i) as [v|]; [|reflexivity].
    destruct (strictEq v reference); reflexivity.
  - rewrite stepValueAt_empty by assumption. reflexivity.
Qed.

Lemma findInitialized_pure :
  findInitialized locs variable
  = Ret (firstFrom (initializedAt locs variable) (length locs) 0).
Proof.
  unfold findInitialized. apply forUp_pure. intros j Hj.
  rewrite hasValidState_at by lia. simpl. unfold initializedAt.
  destruct (nonEmptyAt locs j) eqn:En; simpl.
  - rewrite getVariableValue_at by (assumption || lia). simpl.
    destruct (stepValueAt locs variable j); reflexivity.
  - rewrite stepValueAt_empty by assumption. reflexivity.
Qed.

Lemma index_inside (idx : Z) :
  (0 <= idx < Z.of_nat (length locs))%Z ->
  index locs idx = nth_error locs (Z.to_nat idx) /\ Z.to_nat idx < length locs.
Proof.
  intros Hr. unfold index.
  destruct (idx <? 0)%Z eqn:E; [apply Z.ltb_lt in E; lia|].
  split; [reflexivity | lia].
Qed.

Lemma findPreviouslyChangedAt_pure (idx : Z) :
  (0 < idx < Z.of_nat (length locs))%Z ->
  findPreviouslyChangedAt locs variable idx
  = Ret match valueAt locs variable (Z.to_nat idx) with
        | Some currentValue =>
            lastBelow (changedAt locs variable currentValue) (Z.to_nat idx)
        | None => None
        end.
Proof.
  intros Hr. unfold findPreviouslyChangedAt.
  destruct (idx <=? 0)%Z eqn:E; [apply Z.leb_le in E; lia|].
  destruct (index_inside (idx := idx)) as [-> Hlt]; [lia|].
  rewrite getVariableValue_inside by assumption. simpl.
  destruct (valueAt locs variable (Z.to_nat idx)) as [cur|]; [|reflexivity].
  apply forDown_pure. intros i Hi. apply changedBody_pure. lia.
Qed.

Lemma findNextChangedAt_pure (idx : Z) :
  (0 <= idx < Z.of_nat (length locs) - 1)%Z ->
  findNextChangedAt locs variable idx
  = Ret match valueAt locs variable (Z.to_nat idx) with
        | Some currentValue =>
            firstFrom (changedAt locs variable currentValue)
                      (length locs - (Z.to_nat idx + 1)) (Z.to_nat idx + 1)
        | None => None
        end.
Proof.
  intros Hr. unfold findNextChangedAt.
  destruct (idx =? -1)%Z eqn:E1; [apply Z.eqb_eq in E1; lia|].
  destruct (Z.of_nat (length locs) - 1 <=? idx)%Z eqn:E2; [apply Z.leb_le in E2; lia|].
  simpl.
  destruct (index_inside (idx := idx)) as [-> Hlt]; [lia|].
  rewrite getVariableValue_inside by assumption. simpl.
  destruct (valueAt locs variable (Z.to_nat idx)) as [cur|]; [|reflexivity].
  replace (Z.to_nat (idx + 1)) with (Z.to_nat idx + 1) by lia.
  apply forUp_pure. intros i Hi. apply changedBody_pure. lia.
Qed.

Lemma findLastChanged_pure :
  findLastChanged locs variable
  = Ret (if length locs =? 0 then None
         else if nonEmptyAt locs (length locs - 1) then
           match stepValueAt locs variable (length locs - 1) with
           | Some finalValue =>
               lastBelow (lastChangedAt locs variable finalValue) (length locs - 1)
           | None => None
           end
         else None).
Proof.
  unfold findLastChanged.
  destruct (length locs =? 0) eqn:E0; [reflexivity|].
  apply Nat.eqb_neq in E0.
  rewrite hasValidState_at by lia. simpl.
  destruct (nonEmptyAt locs (length locs - 1)) eqn:En; [|reflexivity]. simpl.
  rewrite getVariableValue_at by (assumption || lia). simpl.
  destruct (stepValueAt locs variable (length locs - 1)) as [finalValue|]; [|reflexivity].
  apply forDown_pure. intros i Hi.
  rewrite hasValidState_at by lia. simpl. unfold lastChangedAt.
  destruct (nonEmptyAt locs i) eqn:Ei; simpl.
  - rewrite getVariableValue_at by (assumption || lia). simpl.
    destruct (stepValueAt locs variable i) as [v|]; [|reflexivity].
    destruct (strictEq v finalValue); simpl; [reflexivity|].
    replace (i + 1 <? length locs) with true by (symmetry; apply Nat.ltb_lt; lia).
    rewrite hasValidState_at by lia. simpl.
    destruct (nonEmptyAt locs (i + 1)); reflexivity.
  - rewrite stepValueAt_empty by assumption. reflexivity.
Qed.

End NavigationFacts.


Section NavigationTheorems.

Context `{NumberModel} `{PrototypeModel}.

Variable locs : list ThreadFlowLocation.
Variable variable : jsstring.

(** Reading the current value returns only inside the timeline. *)
Lemma index_getVariableValue (idx : Z) x :
  getVariableValue (index locs idx) variable = Ret x ->
  (0 <= idx < Z.of_nat (length locs))%Z /\ valueAt locs variable (Z.to_nat idx) = x.
Proof.
  unfold index. destruct (idx <? 0)%Z eqn:E; [discriminate|].
  apply Z.ltb_ge in E. intros Hv.
  destruct (le_lt_dec (length locs) (Z.to_nat idx)) as [Hout | Hin].
  - apply nth_error_None in Hout. rewrite Hout in Hv. discriminate.
  - rewrite getVariableValue_inside in Hv by exact Hin. split; [lia | congruence].
Qed.

(** X19.  [findPreviouslyChanged] at the current index [idx]: not-found when
    [idx] is 0 or negative, and when [getVariableValue] returns [null] for
    the current step; otherwise, with [currentValue] what it returns there
    (read from a key of the state or from a name inherited from
    [Object.prototype], whether the state is empty or not), the answer is
    the greatest index below [idx] whose step has a non-empty state and
    reads a value different from [currentValue], and not-found exactly when
    there is no such index. *)
Theorem findPreviouslyChanged_spec (idx : Z) :
  ((idx <= 0)%Z -> findPreviouslyChangedAt locs variable idx = Ret None)
  /\ (getVariableValue (index locs idx) variable = Ret None ->
      findPreviouslyChangedAt locs variable idx = Ret None)
  /\ (forall currentValue,
      getVariableValue (index locs idx) variable = Ret (Some currentValue) ->
      (forall i,
          findPreviouslyChangedAt locs variable idx = Ret (Some i) <->
          i < Z.to_nat idx
          /\ differsAt locs variable currentValue i
          /\ forall j, i < j < Z.to_nat idx -> ~ differsAt locs variable currentValue j)
      /\ (findPreviouslyChangedAt locs variable idx = Ret None <->
          forall j, j < Z.to_nat idx -> ~ differsAt locs variable currentValue j)).
Proof.
  assert (Hfirst : (idx <= 0)%Z -> findPreviouslyChangedAt locs variable idx = Ret None).
  { intros Hle. unfold findPreviouslyChangedAt.
    apply Z.leb_le in Hle. rewrite Hle. reflexivity. }
  split; [exact Hfirst|]. split.
  - intros Hnull. apply index_getVariableValue in Hnull. destruct Hnull as [Hr Hnull].
    destruct (Z.eq_dec idx 0) as [-> | Hnz]; [apply Hfirst; lia|].
    rewrite findPreviouslyChangedAt_pure by lia. rewrite Hnull. reflexivity.
  - intros cur Hcur. apply index_getVariableValue in Hcur. destruct Hcur as [Hr Hcur].
    destruct (Z.eq_dec idx 0) as [-> | Hnz].
    { rewrite Hfirst by lia. cbn [Z.to_nat]. split.
      - intros i. split; [discriminate | intros [Hi _]; lia].
      - split; [intros _ j Hj; lia | reflexivity]. }
    rewrite findPreviouslyChangedAt_pure by lia. rewrite Hcur. split.
    + intros i. split.
      * intros [= Hi]. apply lastBelow_Some in Hi.
        destruct Hi as (k & Hk & Hbk & Hlast).
        apply changedAt_Some in Hbk. destruct Hbk as [-> Hdiff].
        split; [assumption|]. split; [assumption|].
        intros j Hj. apply changedAt_None. apply Hlast. assumption.
      * intros (Hi & Hdiff & Hlast). f_equal. apply lastBelow_Some.
        exists i. split; [assumption|]. split.
        -- apply changedAt_Some. auto.
        -- intros j Hj. apply changedAt_None. apply Hlast. assumption.
    + split.
      * intros [= Hn] j Hj. apply changedAt_None.
        apply (proj1 (lastBelow_None _ _) Hn). assumption.
      * intros Hn. f_equal. apply lastBelow_None. intros j Hj.
        apply changedAt_None. apply Hn. assumption.
Qed.

(** X20.  [findLastChanged]: not-found when the final step has an empty state or
    [getVariableValue] returns [null] for it; otherwise, with [finalValue]
    what is read at the final step, the answer is [i + 1] for the greatest
    [i] below the final index such that step [i] has a non-empty state and
    reads a value different from [finalValue], and step [i + 1] has a
    non-empty state (differing steps whose target has an empty state are
    passed over and the scan goes on); not-found exactly when there is no
    such [i], so in particular when no step differs. *)
Theorem findLastChanged_spec :
  (~ validAt locs (length locs - 1) -> findLastChanged locs variable = Ret None)
  /\ ((forall v, ~ readsAt locs variable (length locs - 1) v) ->
      findLastChanged locs variable = Ret None)
  /\ (forall finalValue,
      readsAt locs variable (length locs - 1) finalValue ->
      (forall target,
          findLastChanged locs variable = Ret (Some target) <->
          exists i,
            target = i + 1
            /\ i < length locs - 1
            /\ differsAt locs variable finalValue i
            /\ validAt locs (i + 1)
            /\ forall j, i < j < length locs - 1 ->
                 ~ (differsAt locs variable finalValue j /\ validAt locs (j + 1)))
      /\ (findLastChanged locs variable = Ret None <->
          forall j, j < length locs - 1 ->
            ~ (differsAt locs variable finalValue j /\ validAt locs (j + 1)))
      /\ ((forall j, j < length locs - 1 -> ~ differsAt locs variable finalValue j) ->
          findLastChanged locs variable = Ret None)).
Proof.
  assert (Hne : forall v, readsAt locs variable (length locs - 1) v ->
                          (length locs =? 0) = false).
  { intros v (step & Hs & _). apply Nat.eqb_neq. intros E0.
    destruct locs; [destruct (length (@nil ThreadFlowLocation) - 1); discriminate|].
    discriminate. }
  rewrite findLastChanged_pure. split; [|split].
  - intros Hinv. destruct (length locs =? 0); [reflexivity|].
    destruct (nonEmptyAt locs (length locs - 1)) eqn:En; [|reflexivity].
    apply nonEmptyAt_true in En. tauto.
  - intros Hundef. apply stepValueAt_None in Hundef. rewrite Hundef.
    destruct (length locs =? 0); [reflexivity|].
    destruct (nonEmptyAt locs (length locs - 1)); reflexivity.
  - intros finalValue Hdef. rewrite (Hne _ Hdef).
    pose proof (readsAt_valid Hdef) as Hvalid.
    apply nonEmptyAt_true in Hvalid. rewrite Hvalid.
    apply stepValueAt_Some in Hdef. rewrite Hdef.
    assert (HNone : lastBelow (lastChangedAt locs variable finalValue) (length locs - 1) = None <->
                    forall j, j < length locs - 1 ->
                      ~ (differsAt locs variable finalValue j /\ validAt locs (j + 1))).
    { rewrite lastBelow_None. split; intros Hn j Hj.
      - apply lastChangedAt_None. apply Hn. assumption.
      - apply lastChangedAt_None. apply Hn. assumption. }
    split; [|split].
    + intros target. split.
      * intros [= Ht]. apply lastBelow_Some in Ht.
        destruct Ht as (i & Hi & Hbi & Hlast).
        apply lastChangedAt_Some in Hbi. destruct Hbi as (-> & Hdiff & Hv).
        exists i. repeat split; try assumption.
        intros j Hj. apply lastChangedAt_None. apply Hlast. assumption.
      * intros (i & -> & Hi & Hdiff & Hv & Hlast). f_equal. apply lastBelow_Some.
        exists i. split; [assumption|]. split.
        -- apply lastChangedAt_Some. auto.
        -- intros j Hj. apply lastChangedAt_None. apply Hlast. assumption.
    + split.
      * intros [= Hn]. apply HNone. assumption.
      * intros Hn. f_equal. apply HNone. assumption.
    + intros Hsame. f_equal. apply HNone. intros j Hj [Hd _].
      apply (Hsame j Hj Hd).
Qed.

(** X21.  An index returned by [findPreviouslyChanged] or [findNextChanged],
    whatever the current index, is an index of the timeline whose step has a
    non-empty state and for which [getVariableValue] returns a value: the
    value of a key of the state, or of a name the state inherits. *)
Theorem changed_index_is_read (idx : Z) (i : nat) :
  findPreviouslyChangedAt locs variable idx = Ret (Some i)
  \/ findNextChangedAt locs variable idx = Ret (Some i) ->
  exists step v,
    nth_error locs i = Some step
    /\ i < length locs
    /\ hasValidState (Some step) = Ret true
    /\ getVariableValue (Some step) variable = Ret (Some v).
Proof.
  assert (G : forall cur, differsAt locs variable cur i ->
    exists step v, nth_error locs i = Some step /\ i < length locs
      /\ hasValidState (Some step) = Ret true
      /\ getVariableValue (Some step) variable = Ret (Some v)).
  { intros cur (v & (step & Hs & Hv & Hg) & _). exists step, v.
    repeat split; try assumption. apply nth_error_Some. congruence. }
  intros [Hprev | Hnext].
  - destruct (Z_le_gt_dec idx 0) as [Hle | Hgt].
    { unfold findPreviouslyChangedAt in Hprev.
      apply Z.leb_le in Hle. rewrite Hle in Hprev. discriminate. }
    destruct (Z_lt_ge_dec idx (Z.of_nat (length locs))) as [Hlt | Hge].
    + rewrite findPreviouslyChangedAt_pure in Hprev by lia.
      destruct (valueAt locs variable (Z.to_nat idx)) as [cur|]; [|discriminate].
      injection Hprev as Hprev. apply lastBelow_Some in Hprev.
      destruct Hprev as (k & _ & Hbk & _). apply changedAt_Some in Hbk.
      destruct Hbk as [-> Hdiff]. apply (G cur). assumption.
    + exfalso. unfold findPreviouslyChangedAt in Hprev.
      destruct (idx <=? 0)%Z eqn:E; [apply Z.leb_le in E; lia|].
      unfold index in Hprev.
      destruct (idx <? 0)%Z eqn:E'; [discriminate|].
      assert (Hnone : nth_error locs (Z.to_nat idx) = None) by (apply nth_error_None; lia).
      rewrite Hnone in Hprev. discriminate.
  - destruct (Z_lt_ge_dec idx 0) as [Hneg | Hpos].
    { exfalso. unfold findNextChangedAt in Hnext.
      destruct ((idx =? -1)%Z || (Z.of_nat (length locs) - 1 <=? idx)%Z); [discriminate|].
      unfold index in Hnext.
      apply Z.ltb_lt in Hneg. rewrite Hneg in Hnext. discriminate. }
    destruct (Z_lt_ge_dec idx (Z.of_nat (length locs) - 1)) as [Hlt | Hge].
    + rewrite findNextChangedAt_pure in Hnext by lia.
      destruct (valueAt locs variable (Z.to_nat idx)) as [cur|]; [|discriminate].
      injection Hnext as Hnext. apply firstFrom_Some in Hnext.
      destruct Hnext as (k & _ & Hbk & _). apply changedAt_Some in Hbk.
      destruct Hbk as [-> Hdiff]. apply (G cur). assumption.
    + exfalso. unfold findNextChangedAt in Hnext.
      replace (Z.of_nat (length locs) - 1 <=? idx)%Z with true in Hnext
        by (symmetry; apply Z.leb_le; lia).
      rewrite orb_true_r in Hnext. discriminate.
Qed.

Lemma getCurrentStepIndex_range selected :
  (getCurrentStepIndex locs selected = -1
   \/ 0 <= getCurrentStepIndex locs selected < Z.of_nat (length locs))%Z.
Proof. apply findIndex_range. Qed.

Lemma findPreviouslyChanged_returns selected :
  exists r, findPreviouslyChanged locs variable selected = Ret r.
Proof.
  unfold findPreviouslyChanged.
  destruct (getCurrentStepIndex_range selected) as [-> | Hr].
  - exists None. reflexivity.
  - destruct (Z.eq_dec (getCurrentStepIndex locs selected) 0) as [-> | Hnz].
    + exists None. reflexivity.
    + rewrite findPreviouslyChangedAt_pure by lia. eexists. reflexivity.
Qed.

Lemma findNextChanged_returns selected :
  exists r, findNextChanged locs variable selected = Ret r.
Proof.
  unfold findNextChanged.
  destruct (getCurrentStepIndex_range selected) as [-> | Hr].
  - exists None. reflexivity.
  - destruct (Z_lt_ge_dec (getCurrentStepIndex locs selected) (Z.of_nat (length locs) - 1))
      as [Hlt | Hge].
    + rewrite findNextChangedAt_pure by lia. eexists. reflexivity.
    + exists None. unfold findNextChangedAt.
      replace (Z.of_nat (length locs) - 1 <=? getCurrentStepIndex locs selected)%Z with true
        by (symmetry; apply Z.leb_le; lia).
      rewrite orb_true_r. reflexivity.
Qed.

(** The four queries never throw. *)
Lemma queries_return selected :
  (exists r, findInitialized locs variable = Ret r)
  /\ (exists r, findPreviouslyChanged locs variable selected = Ret r)
  /\ (exists r, findNextChanged locs variable selected = Ret r)
  /\ (exists r, findLastChanged locs variable = Ret r).
Proof.
  split; [|split; [|split]].
  - rewrite findInitialized_pure. eexists. reflexivity.
  - apply findPreviouslyChanged_returns.
  - apply findNextChanged_returns.
  - rewrite findLastChanged_pure. eexists. reflexivity.
Qed.

(** X22.  Where the queries answer not-found: the two that depend on the
    selection when the selected step is not in the timeline (index -1) and
    when [getVariableValue] returns [null] for it; all four when the
    timeline is empty, and when no step with a non-empty state reads a value
    for the variable. *)
Theorem navigation_sentinels (selected : option ThreadFlowLocation) :
  (getCurrentStepIndex locs selected = (-1)%Z ->
   findPreviouslyChanged locs variable selected = Ret None
   /\ findNextChanged locs variable selected = Ret None)
  /\ (getVariableValue (index locs (getCurrentStepIndex locs selected)) variable = Ret None ->
      findPreviouslyChanged locs variable selected = Ret None
      /\ findNextChanged locs variable selected = Ret None)
  /\ (locs = [] ->
      findInitialized locs variable = Ret None
      /\ findPreviouslyChanged locs variable selected = Ret None
      /\ findNextChanged locs variable selected = Ret None
      /\ findLastChanged locs variable = Ret None)
  /\ ((forall i v, ~ readsAt locs variable i v) ->
      findInitialized locs variable = Ret None
      /\ findPreviouslyChanged locs variable selected = Ret None
      /\ findNextChanged locs variable selected = Ret None
      /\ findLastChanged locs variable = Ret None).
Proof.
  assert (Hout : forall idx, (Z.of_nat (length locs) - 1 <= idx)%Z ->
            findNextChangedAt locs variable idx = Ret None).
  { intros idx Hge. unfold findNextChangedAt.
    replace (Z.of_nat (length locs) - 1 <=? idx)%Z with true
      by (symmetry; apply Z.leb_le; lia).
    rewrite orb_true_r. reflexivity. }
  assert (Hnodiff : (forall i v, ~ readsAt locs variable i v) ->
            forall cur j, changedAt locs variable cur j = None).
  { intros Hundef cur j. apply changedAt_None. intros (v & Hd & _). apply (Hundef j v Hd). }
  assert (Hnever : (forall i v, ~ readsAt locs variable i v) ->
      findInitialized locs variable = Ret None
      /\ findPreviouslyChanged locs variable selected = Ret None
      /\ findNextChanged locs variable selected = Ret None
      /\ findLastChanged locs variable = Ret None).
  { intros Hundef. split; [|split; [|split]].
    - rewrite findInitialized_pure. f_equal. apply firstFrom_None. intros j _.
      unfold initializedAt.
      rewrite (proj2 (stepValueAt_None locs variable j) (Hundef j)). reflexivity.
    - unfold findPreviouslyChanged.
      destruct (getCurrentStepIndex_range selected) as [-> | Hr]; [reflexivity|].
      destruct (Z.eq_dec (getCurrentStepIndex locs selected) 0) as [-> | Hnz]; [reflexivity|].
      rewrite findPreviouslyChangedAt_pure by lia.
      destruct (valueAt locs variable _) as [cur|]; [|reflexivity].
      f_equal. apply lastBelow_None. intros j _. apply Hnodiff. exact Hundef.
    - unfold findNextChanged.
      destruct (getCurrentStepIndex_range selected) as [-> | Hr]; [reflexivity|].
      destruct (Z_lt_ge_dec (getCurrentStepIndex locs selected) (Z.of_nat (length locs) - 1))
        as [Hlt | Hge]; [|apply Hout; lia].
      rewrite findNextChangedAt_pure by lia.
      destruct (valueAt locs variable _) as [cur|]; [|reflexivity].
      f_equal. apply firstFrom_None. intros j _. apply Hnodiff. exact Hundef.
    - rewrite findLastChanged_pure.
      rewrite (proj2 (stepValueAt_None locs variable _) (Hundef (length locs - 1))).
      destruct (length locs =? 0); [reflexivity|].
      destruct (nonEmptyAt locs (length locs - 1)); reflexivity. }
  split; [|split; [|split]].
  - intros E. unfold findPreviouslyChanged, findNextChanged. rewrite E.
    split; reflexivity.
  - intros Hnull. apply index_getVariableValue in Hnull. destruct Hnull as [Hr Hnull].
    unfold findPreviouslyChanged, findNextChanged. split.
    + destruct (Z.eq_dec (getCurrentStepIndex locs selected) 0) as [E0 | Hnz].
      * rewrite E0. reflexivity.
      * rewrite findPreviouslyChangedAt_pure by lia. rewrite Hnull. reflexivity.
    + destruct (Z_lt_ge_dec (getCurrentStepIndex locs selected) (Z.of_nat (length locs) - 1))
        as [Hlt | Hge]; [|apply Hout; lia].
      rewrite findNextChangedAt_pure by lia. rewrite Hnull. reflexivity.
  - intros Hempty. apply Hnever. intros i v (step & Hs & _).
    rewrite Hempty in Hs. destruct i; discriminate.
  - exact Hnever.
Qed.

End NavigationTheorems.

(** ** Projection of the raw state *)

Section ProjectionFacts.

Context `{NumberModel} `{PrototypeModel}.

Lemma GetSubstitution_plain matched before after template :
  hasDollar template = false ->
  GetSubstitution matched before after template = template.
Proof.
  induction template as [|c rest IH]; simpl; [reflexivity|].
  intros Hd. apply orb_false_iff in Hd. destruct Hd as [Hc Hrest].
  rewrite Hc. f_equal. apply IH. exact Hrest.
Qed.

Lemma replaceExprFrom_plain template :
  hasDollar template = false ->
  forall s skip before,
    replaceExprFrom template skip before s = replaceLiteralFrom template skip s.
Proof.
  intros Hd. induction s as [|c s IH]; intros skip before;
    cbn [replaceExprFrom replaceLiteralFrom]; [reflexivity|].
  destruct skip as [|k]; [|apply IH].
  destruct (startsWith exprPlaceholder (c :: s)).
  - rewrite GetSubstitution_plain by assumption. f_equal. apply IH.
  - f_equal. apply IH.
Qed.

(** Where the projection is the literal one: a [text] that is not empty is
    displayed as it is, anything else through [String], and a key without
    [$] replaces every [{expr}] literally. *)
Lemma processedValue_plain_key k v :
  hasDollar k = false ->
  processedValue k v
  = replaceLiteralFrom (lit "(" ++ k ++ lit ")") 0
      match v with
      | VObject (Some (c :: t)) => c :: t
      | _ => String_ v
      end.
Proof.
  intros Hd. unfold processedValue, replaceExpr.
  rewrite replaceExprFrom_plain; [reflexivity|].
  unfold hasDollar in *. simpl. rewrite existsb_app. rewrite Hd. reflexivity.
Qed.

Lemma statesTableStore_entries step st :
  state step = Some st ->
  statesTableStore (Some step)
  = map (fun kv => {| key := fst kv; value := processedValue (fst kv) (snd kv) |}) st.
Proof. intros E. unfold statesTableStore. rewrite E. reflexivity. Qed.

(** C7.  Scenario 4 holds: ["{expr} == 5"] under the key [count] is
    displayed as ["(count) == 5"].  But the replacement is a template: under
    the key [$&] the same value is displayed as ["({expr}) == 5"], not as
    ["($&) == 5"]; and an object whose [text] is the empty string is
    displayed as ["[object Object]"], not as its [text]. *)
Theorem projection_at_failing_inputs :
  statesTableStore
    (Some {| ref := 0; state := Some [(lit "count", VObject (Some (lit "{expr} == 5")))] |})
  = [ {| key := lit "count"; value := lit "(count) == 5" |} ]
  /\ statesTableStore
       (Some {| ref := 0; state := Some [(lit "$&", VObject (Some (lit "{expr} == 5")))] |})
     = [ {| key := lit "$&"; value := lit "({expr}) == 5" |} ]
  /\ lit "({expr}) == 5" <> lit "(" ++ lit "$&" ++ lit ")" ++ lit " == 5"
  /\ statesTableStore
       (Some {| ref := 0; state := Some [(lit "count", VObject (Some (lit "")))] |})
     = [ {| key := lit "count"; value := lit "[object Object]" |} ]
  /\ getVariableValue
       (Some {| ref := 0; state := Some [(lit "$&", VObject (Some (lit "{expr} == 5")))] |})
       (lit "$&")
     = Ret (Some (lit "({expr}) == 5")).
Proof.
  repeat split; try reflexivity. discriminate.
Qed.

End ProjectionFacts.

(** ** The table engine *)

Module TabularFacts.

Import TabularEngine.

Lemma reverseDir_involutive d : reverseDir (reverseDir d) = d.
Proof. destruct d; reflexivity. Qed.

Lemma toggleSort_active columnName view :
  sortColumn view = Some columnName ->
  toggleSort columnName view
  = {| sortColumn := Some columnName; sortDir := reverseDir (sortDir view) |}.
Proof.
  intros E. unfold toggleSort. rewrite E.
  rewrite (proj2 (strictEq_true columnName columnName) eq_refl). reflexivity.
Qed.

Lemma toggleSort_other columnName view :
  sortColumn view <> Some columnName ->
  toggleSort columnName view = {| sortColumn := Some columnName; sortDir := Asc |}.
Proof.
  intros E. unfold toggleSort. destruct (sortColumn view) as [active|]; [|reflexivity].
  destruct (strictEq active columnName) eqn:Eq; [|reflexivity].
  apply strictEq_true in Eq. congruence.
Qed.

(** C9, as the engine has it.  Two calls of [toggleSort] with the name of
    the column that is the active sort column restore the view state, so
    the groups and the rows of every entity collection are what they were,
    and an ascending order is ascending again.  With the name of any other
    column the two calls leave that column active in descending
    direction. *)
Theorem toggleSort_twice
  (Entity GroupKey Field : Type)
  (fieldLeb : Field -> Field -> bool) (groupKeyEqb : GroupKey -> GroupKey -> bool)
  (columns : list (Column Entity Field))
  (groupOf : Entity -> option GroupKey) (accept : Entity -> bool)
  (entities : list Entity) (columnName : jsstring) (view : ViewState) :
  (sortColumn view = Some columnName ->
   toggleSort columnName (toggleSort columnName view) = view
   /\ rows fieldLeb groupKeyEqb columns groupOf accept
        (toggleSort columnName (toggleSort columnName view)) entities
      = rows fieldLeb groupKeyEqb columns groupOf accept view entities
   /\ (sortDir view = Asc ->
       sortDir (toggleSort columnName view) = Desc
       /\ sortDir (toggleSort columnName (toggleSort columnName view)) = Asc))
  /\ (sortColumn view <> Some columnName ->
      toggleSort columnName (toggleSort columnName view)
      = {| sortColumn := Some columnName; sortDir := Desc |}).
Proof.
  split.
  - intros Hactive.
    assert (Hback : toggleSort columnName (toggleSort columnName view) = view).
    { rewrite (@toggleSort_active columnName view Hactive).
      rewrite toggleSort_active by reflexivity. simpl.
      rewrite reverseDir_involutive. destruct view as [c d]. simpl in *.
      congruence. }
    split; [exact Hback|]. split.
    + rewrite Hback. reflexivity.
    + intros Hasc. rewrite Hback. split; [|exact Hasc].
      rewrite (@toggleSort_active columnName view Hactive). simpl. rewrite Hasc. reflexivity.
  - intros Hother. rewrite (@toggleSort_other columnName view Hother).
    rewrite toggleSort_active by reflexivity. reflexivity.
Qed.

(** The test of the sort, on the model: by key ascending to begin with,
    descending after [toggleSort "Key"], by value ascending after
    [toggleSort "Value"]. *)
Example sort_test :
  map (fun s => key s)
      (concat (map snd (StatesTableStore.groupsFilteredSorted
                          StatesTableStore.initialView threeStates)))
  = [lit "a_key"; lit "m_key"; lit "z_key"]
  /\ map (fun s => key s)
        (concat (map snd (StatesTableStore.groupsFilteredSorted
                            (toggleSort (lit "Key") StatesTableStore.initialView)
                            threeStates)))
     = [lit "z_key"; lit "m_key"; lit "a_key"]
  /\ map (fun s => value s)
        (concat (map snd (StatesTableStore.groupsFilteredSorted
                            (toggleSort (lit "Value")
                               (toggleSort (lit "Key") StatesTableStore.initialView))
                            threeStates)))
     = [lit "a_value"; lit "m_value"; lit "z_value"].
Proof. repeat split. Qed.

(** The states table sorted by key, and [toggleSort "Value"] called twice:
    the rows are now in descending order of the value, not in the original
    order. *)
Lemma toggleSort_twice_other_column :
  StatesTableStore.rows StatesTableStore.initialView threeStates
  = map (@ItemRow StateEntry unit)
      [ {| key := lit "a_key"; value := lit "a_value" |};
        {| key := lit "m_key"; value := lit "m_value" |};
        {| key := lit "z_key"; value := lit "z_value" |} ]
  /\ StatesTableStore.rows
       (toggleSort (lit "Value") (toggleSort (lit "Value") StatesTableStore.initialView))
       threeStates
     = map (@ItemRow StateEntry unit)
         [ {| key := lit "z_key"; value := lit "z_value" |};
           {| key := lit "m_key"; value := lit "m_value" |};
           {| key := lit "a_key"; value := lit "a_value" |} ]
  /\ StatesTableStore.rows
       (toggleSort (lit "Value") (toggleSort (lit "Value") StatesTableStore.initialView))
       threeStates
     <> StatesTableStore.rows StatesTableStore.initialView threeStates.
Proof.
  split; [reflexivity|]. split; [reflexivity|]. discriminate.
Qed.

Lemma toggleSort_twice_witness :
  sortColumn StatesTableStore.initialView = Some (lit "Key")
  /\ StatesTableStore.rows
       (toggleSort (lit "Key") (toggleSort (lit "Key") StatesTableStore.initialView))
       threeStates
     = StatesTableStore.rows StatesTableStore.initialView threeStates.
Proof.
  split; [reflexivity|].
  destruct (toggleSort_twice TabularEngine.stringLeb (fun _ _ : unit => true)
              StatesTableStore.columns StatesTableStore.groupBy StatesTableStore.filter
              threeStates (lit "Key") StatesTableStore.initialView) as [Hactive _].
  destruct (Hactive eq_refl) as [Hback _].
  rewrite Hback. reflexivity.
Defined.

End TabularFacts.

(** ** The matcher *)

Unset Implicit Arguments.

Section MatcherFacts.

Variable input : jsstring.

Lemma iter_trans (R : nat -> nat -> Prop) i m j :
  iter R i m -> iter R m j -> iter R i j.
Proof.
  induction 1 as [|i m' m Him _ IH]; intros Hj; [assumption|].
  eapply iter_step; [exact Him|]. apply IH. assumption.
Qed.

Lemma iter_bounds (R : nat -> nat -> Prop) :
  (forall i j, R i j -> i <= j /\ j - i <= length input - i) ->
  forall i j, iter R i j -> i <= j /\ j - i <= length input - i.
Proof.
  intros HR. induction 1 as [|i m j Him _ IH]; [lia|].
  apply HR in Him. lia.
Qed.

(** A match goes forward and never past the end of the input. *)
Lemma Lang_bounds r :
  forall i j, Lang input r i j -> i <= j /\ j - i <= length input - i.
Proof.
  induction r as [ | ch | neg ranges | | | r1 IH1 r2 IH2 | r1 IH1 r2 IH2
                 | r1 IH1 | r1 IH1 | r1 IH1 | n r1 IH1 ]; simpl; intros i j HL.
  - lia.
  - destruct HL as [Hc ->].
    assert (i < length input) by (apply nth_error_Some; congruence). lia.
  - destruct HL as (a & Hc & _ & ->).
    assert (i < length input) by (apply nth_error_Some; congruence). lia.
  - lia.
  - lia.
  - destruct HL as (m & H1 & H2). apply IH1 in H1. apply IH2 in H2. lia.
  - destruct HL as [H1 | H2]; [apply IH1 in H1 | apply IH2 in H2]; lia.
  - apply (iter_bounds _ IH1). assumption.
  - destruct HL as (m & H1 & H2). apply IH1 in H1.
    apply (iter_bounds _ IH1) in H2. lia.
  - destruct HL as [H1 | ->]; [apply IH1 in H1|]; lia.
  - apply IH1. assumption.
Qed.

Lemma Lang_minLen r :
  forall i j, Lang input r i j -> i + minLen r <= j.
Proof.
  induction r as [ | ch | neg ranges | | | r1 IH1 r2 IH2 | r1 IH1 r2 IH2
                 | r1 IH1 | r1 IH1 | r1 IH1 | n r1 IH1 ]; simpl; intros i j HL.
  - lia.
  - lia.
  - destruct HL as (a & _ & _ & ->). lia.
  - lia.
  - lia.
  - destruct HL as (m & H1 & H2). apply IH1 in H1. apply IH2 in H2. lia.
  - destruct HL as [H1 | H2]; [apply IH1 in H1 | apply IH2 in H2]; lia.
  - apply (iter_bounds _ (Lang_bounds r1)) in HL. lia.
  - destruct HL as (m & H1 & H2). apply IH1 in H1.
    apply (iter_bounds _ (Lang_bounds r1)) in H2. lia.
  - destruct HL as [H1 | ->]; [apply Lang_bounds in H1|]; lia.
  - apply IH1. assumption.
Qed.

Lemma getCapture_clear gs caps g :
  ~ In g gs -> getCapture (clearCaptures gs caps) g = getCapture caps g.
Proof.
  intros Hg. induction caps as [|[g' range] caps IH]; simpl; [reflexivity|].
  destruct (existsb (Nat.eqb g') gs) eqn:E; simpl.
  - destruct (g' =? g) eqn:Eg; [|exact IH].
    apply Nat.eqb_eq in Eg. subst g'. exfalso. apply Hg.
    apply existsb_exists in E. destruct E as (k & Hk & Ek).
    apply Nat.eqb_eq in Ek. subst k. assumption.
  - destruct (g' =? g); [reflexivity | exact IH].
Qed.

Lemma orElse_Some {A} (a b : option A) z :
  orElse a b = Some z -> a = Some z \/ (a = None /\ b = Some z).
Proof. destruct a; simpl; intros E; [left | right]; auto. Qed.

Lemma RepeatMatcher_sound r1 :
  (forall x c z, matcher input r1 x c = Some z -> Reaches (Lang input r1) (groups r1) x c z) ->
  forall c fuel x z,
    RepeatMatcher (matcher input r1) (groups r1) c fuel x = Some z ->
    Reaches (iter (Lang input r1)) (groups r1) x c z.
Proof.
  intros IHr c. induction fuel as [|fuel IH]; intros x z Hm; simpl in Hm.
  - exists x. split; [assumption|]. split; [constructor | reflexivity].
  - apply orElse_Some in Hm. destruct Hm as [Hm | [_ Hm]].
    + apply IHr in Hm. destruct Hm as (y1 & Hd & HL & Hcap). simpl in HL, Hcap.
      destruct (endIndex y1 =? endIndex x); [discriminate|].
      apply IH in Hd. destruct Hd as (y & Hc & Hit & Hcap').
      exists y. split; [assumption|]. split.
      * eapply iter_step; eassumption.
      * intros g Hg. rewrite Hcap' by assumption. rewrite Hcap by assumption.
        apply getCapture_clear. assumption.
    + exists x. split; [assumption|]. split; [constructor | reflexivity].
Qed.

Theorem matcher_sound r :
  forall x c z, matcher input r x c = Some z -> Reaches (Lang input r) (groups r) x c z.
Proof.
  induction r as [ | ch | neg ranges | | | r1 IH1 r2 IH2 | r1 IH1 r2 IH2
                 | r1 IH1 | r1 IH1 | r1 IH1 | n r1 IH1 ];
    cbn [matcher Lang groups]; intros x c z Hm.
  - exists x. auto.
  - destruct (nth_error input (endIndex x)) as [a|] eqn:E; [|discriminate].
    destruct (N.eqb a ch) eqn:Ea; [|discriminate].
    apply N.eqb_eq in Ea. subst a.
    eexists. split; [eassumption|]. simpl. auto.
  - destruct (nth_error input (endIndex x)) as [a|] eqn:E; [|discriminate].
    destruct (inClass neg ranges a) eqn:Ea; [|discriminate].
    eexists. split; [eassumption|]. simpl. split; [|reflexivity].
    exists a. auto.
  - destruct (endIndex x =? 0) eqn:E; [|discriminate].
    apply Nat.eqb_eq in E. exists x. auto.
  - destruct (endIndex x =? length input) eqn:E; [|discriminate].
    apply Nat.eqb_eq in E. exists x. auto.
  - apply IH1 in Hm. destruct Hm as (y1 & Hm & HL1 & Hcap1).
    apply IH2 in Hm. destruct Hm as (y & Hc & HL2 & Hcap2).
    exists y. split; [assumption|]. split; [exists (endIndex y1); auto|].
    intros g Hg. rewrite in_app_iff in Hg.
    rewrite Hcap2 by tauto. apply Hcap1. tauto.
  - apply orElse_Some in Hm. destruct Hm as [Hm | [_ Hm]].
    + apply IH1 in Hm. destruct Hm as (y & Hc & HL & Hcap).
      exists y. split; [assumption|]. split; [left; assumption|].
      intros g Hg. rewrite in_app_iff in Hg. apply Hcap. tauto.
    + apply IH2 in Hm. destruct Hm as (y & Hc & HL & Hcap).
      exists y. split; [assumption|]. split; [right; assumption|].
      intros g Hg. rewrite in_app_iff in Hg. apply Hcap. tauto.
  - apply (RepeatMatcher_sound r1 IH1) in Hm. assumption.
  - apply IH1 in Hm. destruct Hm as (y1 & Hm & HL1 & Hcap1). simpl in HL1, Hcap1.
    apply (RepeatMatcher_sound r1 IH1) in Hm. destruct Hm as (y & Hc & Hit & Hcap).
    exists y. split; [assumption|]. split; [exists (endIndex y1); auto|].
    intros g Hg. rewrite Hcap by assumption. rewrite Hcap1 by assumption.
    apply getCapture_clear. assumption.
  - apply orElse_Some in Hm. destruct Hm as [Hm | [_ Hm]].
    + apply IH1 in Hm. destruct Hm as (y & Hc & HL & Hcap). simpl in HL, Hcap.
      destruct (endIndex y =? endIndex x); [discriminate|].
      exists y. split; [assumption|]. split; [left; assumption|].
      intros g Hg. rewrite Hcap by assumption. apply getCapture_clear. assumption.
    + exists x. split; [assumption|]. split; [right|]; reflexivity.
  - apply IH1 in Hm. destruct Hm as (y & Hc & HL & Hcap).
    eexists. split; [eassumption|]. simpl. split; [assumption|].
    intros g Hg. destruct (n =? g) eqn:E.
    + apply Nat.eqb_eq in E. tauto.
    + apply Hcap. tauto.
Qed.

(** The matcher finds a match whenever there is one. *)
Lemma RepeatMatcher_complete r1 :
  (forall i j, Lang input r1 i j ->
     forall x c, endIndex x = i -> acceptsAt c j -> matcher input r1 x c <> None) ->
  forall c i j, iter (Lang input r1) i j ->
    forall fuel x, endIndex x = i -> j - i < fuel -> acceptsAt c j ->
      RepeatMatcher (matcher input r1) (groups r1) c fuel x <> None.
Proof.
  intros IHr c i j Hit.
  induction Hit as [i | i m j Him Hit IH]; intros fuel x Hx Hfuel Hc.
  - destruct fuel as [|fuel]; simpl.
    + apply Hc. assumption.
    + destruct (matcher input r1 _ _); simpl; [discriminate|]. apply Hc. assumption.
  - pose proof (Lang_bounds _ _ _ Him) as Hb1.
    pose proof (iter_bounds _ (Lang_bounds r1) _ _ Hit) as Hb2.
    destruct (Nat.eq_dec m i) as [-> | Hne].
    + apply IH; assumption.
    + destruct fuel as [|fuel]; [lia|]. simpl.
      destruct (matcher input r1 _ _) eqn:E; simpl; [discriminate|].
      exfalso. revert E. apply (IHr i m Him); [simpl; assumption|].
      intros y Hy. rewrite Hy, Hx.
      replace (m =? i) with false by (symmetry; apply Nat.eqb_neq; assumption).
      apply IH; [assumption | lia | assumption].
Qed.

Theorem matcher_complete r :
  forall i j, Lang input r i j ->
    forall x c, endIndex x = i -> acceptsAt c j -> matcher input r x c <> None.
Proof.
  induction r as [ | ch | neg ranges | | | r1 IH1 r2 IH2 | r1 IH1 r2 IH2
                 | r1 IH1 | r1 IH1 | r1 IH1 | n r1 IH1 ];
    cbn [matcher Lang]; intros i j HL x c Hx Hc.
  - subst. apply Hc. reflexivity.
  - destruct HL as [Hch ->]. rewrite Hx, Hch. rewrite N.eqb_refl.
    apply Hc. simpl. congruence.
  - destruct HL as (a & Hch & Hin & ->). rewrite Hx, Hch, Hin.
    apply Hc. simpl. congruence.
  - destruct HL as [-> ->]. rewrite Hx. simpl. apply Hc. assumption.
  - destruct HL as [-> ->]. rewrite Hx. rewrite Nat.eqb_refl. apply Hc. assumption.
  - destruct HL as (m & H1 & H2). apply (IH1 i m H1); [assumption|].
    intros y Hy. apply (IH2 m j H2); assumption.
  - destruct HL as [H1 | H2].
    + destruct (matcher input r1 x c) eqn:E; simpl; [discriminate|].
      exfalso. revert E. apply (IH1 i j H1); assumption.
    + destruct (matcher input r1 x c); simpl; [discriminate|].
      apply (IH2 i j H2); assumption.
  - pose proof (iter_bounds _ (Lang_bounds r1) _ _ HL) as Hb.
    apply (RepeatMatcher_complete r1 IH1 c _ _ HL); [assumption | lia | assumption].
  - destruct HL as (m & H1 & H2). apply (IH1 i m H1); [simpl; assumption|].
    intros y Hy.
    pose proof (iter_bounds _ (Lang_bounds r1) _ _ H2) as Hb.
    apply (RepeatMatcher_complete r1 IH1 c _ _ H2); [assumption | lia | assumption].
  - destruct HL as [H1 | ->].
    + pose proof (Lang_bounds _ _ _ H1) as Hb.
      destruct (Nat.eq_dec j i) as [-> | Hne].
      * destruct (matcher input r1 _ _); simpl; [discriminate|]. apply Hc. assumption.
      * destruct (matcher input r1 _ _) eqn:E; simpl; [discriminate|].
        exfalso. revert E. apply (IH1 i j H1); [simpl; assumption|].
        intros y Hy. rewrite Hy, Hx.
        replace (j =? i) with false by (symmetry; apply Nat.eqb_neq; assumption).
        apply Hc. assumption.
    + destruct (matcher input r1 _ _); simpl; [discriminate|]. apply Hc. assumption.
  - apply (IH1 i j HL); [assumption|].
    intros y Hy. apply Hc. simpl. assumption.
Qed.

End MatcherFacts.

Section FuelFacts.

Variable input : jsstring.

Lemma agreeFrom_later x y c1 c2 :
  agreeFrom input x c1 c2 ->
  endIndex x <= endIndex y ->
  endIndex y - endIndex x <= length input - endIndex x ->
  agreeFrom input y c1 c2.
Proof.
  intros Hag H1 H2 y' H3 H4. apply Hag; lia.
Qed.

Lemma RepeatMatcher_ext r1 :
  (forall x c1 c2, agreeFrom input x c1 c2 -> matcher input r1 x c1 = matcher input r1 x c2) ->
  forall gs fuel x c1 c2, agreeFrom input x c1 c2 ->
    RepeatMatcher (matcher input r1) gs c1 fuel x
    = RepeatMatcher (matcher input r1) gs c2 fuel x.
Proof.
  intros IHr gs. induction fuel as [|fuel IH]; intros x c1 c2 Hag; simpl.
  - apply Hag; lia.
  - f_equal; [|apply Hag; lia].
    apply IHr. intros y H1 H2. cbn [endIndex] in H1, H2.
    destruct (endIndex y =? endIndex x); [reflexivity|].
    apply IH. eapply agreeFrom_later; eassumption.
Qed.

Lemma matcher_ext r :
  forall x c1 c2, agreeFrom input x c1 c2 -> matcher input r x c1 = matcher input r x c2.
Proof.
  induction r as [ | ch | neg ranges | | | r1 IH1 r2 IH2 | r1 IH1 r2 IH2
                 | r1 IH1 | r1 IH1 | r1 IH1 | n r1 IH1 ];
    cbn [matcher]; intros x c1 c2 Hag.
  - apply Hag; lia.
  - destruct (nth_error input (endIndex x)) as [a|] eqn:E; [|reflexivity].
    assert (endIndex x < length input) by (apply nth_error_Some; congruence).
    destruct (N.eqb a ch); [|reflexivity]. apply Hag; cbn [endIndex]; lia.
  - destruct (nth_error input (endIndex x)) as [a|] eqn:E; [|reflexivity].
    assert (endIndex x < length input) by (apply nth_error_Some; congruence).
    destruct (inClass neg ranges a); [|reflexivity]. apply Hag; cbn [endIndex]; lia.
  - destruct (endIndex x =? 0); [|reflexivity]. apply Hag; lia.
  - destruct (endIndex x =? length input); [|reflexivity]. apply Hag; lia.
  - apply IH1. intros y H1 H2. apply IH2. eapply agreeFrom_later; eassumption.
  - f_equal; [apply IH1 | apply IH2]; assumption.
  - apply (RepeatMatcher_ext r1 IH1). assumption.
  - apply IH1. intros y H1 H2. cbn [endIndex] in H1, H2.
    apply (RepeatMatcher_ext r1 IH1). eapply agreeFrom_later; eassumption.
  - f_equal; [|apply Hag; lia].
    apply IH1. intros y H1 H2. cbn [endIndex] in H1, H2.
    destruct (endIndex y =? endIndex x); [reflexivity|]. apply Hag; assumption.
  - apply IH1. intros y H1 H2. apply Hag; cbn [endIndex]; assumption.
Qed.

(** The fuel of [RepeatMatcher] is never what stops it. *)
Lemma RepeatMatcher_fuel_step r1 gs c :
  forall fuel x,
    length input - endIndex x < fuel ->
    RepeatMatcher (matcher input r1) gs c (S fuel) x
    = RepeatMatcher (matcher input r1) gs c fuel x.
Proof.
  induction fuel as [|fuel IH]; intros x Hfuel; [lia|].
  cbn [RepeatMatcher]. f_equal.
  apply matcher_ext. intros y H1 H2. cbn [endIndex] in H1, H2.
  destruct (endIndex y =? endIndex x) eqn:E; [reflexivity|].
  apply Nat.eqb_neq in E. apply IH. lia.
Qed.

Theorem RepeatMatcher_fuel r1 gs c x fuel :
  length input - endIndex x < fuel ->
  RepeatMatcher (matcher input r1) gs c fuel x
  = RepeatMatcher (matcher input r1) gs c (S (length input - endIndex x)) x.
Proof.
  intros Hfuel.
  replace fuel with ((fuel - S (length input - endIndex x)) + S (length input - endIndex x)) by lia.
  induction (fuel - S (length input - endIndex x)) as [|k IH]; [reflexivity|].
  cbn [Nat.add]. rewrite RepeatMatcher_fuel_step by lia. exact IH.
Qed.

End FuelFacts.

(** ** [exec] *)

Section ExecFacts.

Variable input : jsstring.

Lemma search_Some r count :
  forall i s y,
    search input r count i = Some (s, y) ->
    i <= s < i + count
    /\ matcher input r (startAt s) (fun y => Some y) = Some y
    /\ forall k, i <= k < s -> matcher input r (startAt k) (fun y => Some y) = None.
Proof.
  induction count as [|count IH]; intros i s y Hs; simpl in Hs; [discriminate|].
  fold (startAt i) in Hs.
  destruct (matcher input r (startAt i) (fun y => Some y)) as [y'|] eqn:E.
  - injection Hs as <- <-. split; [lia|]. split; [assumption|]. intros k Hk. lia.
  - apply IH in Hs. destruct Hs as (Hr & Hm & Hnone).
    split; [lia|]. split; [assumption|]. intros k Hk.
    destruct (Nat.eq_dec k i) as [-> | Hne]; [assumption|]. apply Hnone. lia.
Qed.

Lemma search_None r count :
  forall i,
    search input r count i = None ->
    forall k, i <= k < i + count -> matcher input r (startAt k) (fun y => Some y) = None.
Proof.
  induction count as [|count IH]; intros i Hs k Hk; simpl in Hs; [lia|].
  fold (startAt i) in Hs.
  destruct (matcher input r (startAt i) (fun y => Some y)) as [y'|] eqn:E; [discriminate|].
  destruct (Nat.eq_dec k i) as [-> | Hne]; [assumption|].
  apply (IH (S i)); [assumption | lia].
Qed.

Lemma matcher_span r s y :
  matcher input r (startAt s) (fun y => Some y) = Some y ->
  Lang input r s (endIndex y).
Proof.
  intros Hm. apply matcher_sound in Hm.
  destruct Hm as (y' & [= ->] & HL & _). exact HL.
Qed.

Lemma exec_Some r lastIndex s y :
  exec input r lastIndex = Some (s, y) ->
  lastIndex <= s <= length input
  /\ matcher input r (startAt s) (fun y => Some y) = Some y
  /\ Lang input r s (endIndex y)
  /\ forall k, lastIndex <= k < s -> matcher input r (startAt k) (fun y => Some y) = None.
Proof.
  unfold exec. destruct (length input <? lastIndex) eqn:E; [discriminate|].
  apply Nat.ltb_ge in E. intros Hs. apply search_Some in Hs.
  destruct Hs as (Hr & Hm & Hnone).
  split; [lia|]. split; [assumption|]. split; [|assumption].
  apply matcher_span. assumption.
Qed.

Lemma exec_None r lastIndex :
  exec input r lastIndex = None ->
  forall k, lastIndex <= k <= length input ->
    matcher input r (startAt k) (fun y => Some y) = None.
Proof.
  unfold exec. destruct (length input <? lastIndex) eqn:E.
  - apply Nat.ltb_lt in E. intros _ k Hk. lia.
  - apply Nat.ltb_ge in E. intros Hs k Hk. eapply search_None; [exact Hs | lia].
Qed.

(** [exec] finds a match as soon as there is one to find. *)
Lemma exec_finds r lastIndex k j :
  lastIndex <= k <= length input ->
  Lang input r k j ->
  exists s y, exec input r lastIndex = Some (s, y) /\ s <= k.
Proof.
  intros Hk HL.
  destruct (exec input r lastIndex) as [[s y]|] eqn:E.
  - exists s, y. split; [reflexivity|].
    apply exec_Some in E. destruct E as (Hr & _ & _ & Hnone).
    destruct (le_lt_dec s k) as [Hle | Hlt]; [assumption|].
    exfalso. assert (Hn : matcher input r (startAt k) (fun y => Some y) = None)
      by (apply Hnone; lia).
    revert Hn. apply (matcher_complete input r k j HL); [reflexivity|].
    intros y' _. discriminate.
  - exfalso. pose proof (exec_None r lastIndex E k Hk) as Hn.
    revert Hn. apply (matcher_complete input r k j HL); [reflexivity|].
    intros y' _. discriminate.
Qed.

End ExecFacts.

(** ** The loop over the matches of one pattern *)

Lemma substring_length text s e :
  s <= e <= length text -> length (substring text s e) = e - s.
Proof.
  intros Hr. unfold substring. rewrite length_firstn, length_skipn. lia.
Qed.

Lemma truthy_length s : truthy s = true -> 0 < length s.
Proof. destruct s; simpl; [discriminate | lia]. Qed.

(** The record pushed for the text found from [from] to [to]. *)
Lemma pushed_record text from to :
  from <= to <= length text ->
  truthy (substring text from to) = true ->
  WellFormed text {| MatchInfo.match_ := substring text from to;
                     MatchInfo.index := from;
                     MatchInfo.length := length (substring text from to) |}.
Proof.
  intros Hr Ht. apply truthy_length in Ht.
  rewrite substring_length in * by assumption.
  unfold WellFormed, endOf. simpl.
  replace (from + (to - from)) with to by lia. split; [reflexivity|]. lia.
Qed.

Lemma group1_match text r s y :
  matcher text (Group 1 r) (startAt s) (fun y => Some y) = Some y ->
  Lang text r s (endIndex y) /\ getCapture (captures y) 1 = Some (s, endIndex y).
Proof.
  cbn [matcher]. intros Hm. apply matcher_sound in Hm.
  destruct Hm as (y0 & [= <-] & HL & _). simpl in *. auto.
Qed.

Lemma pushes_group1 patternIndex r :
  (patternIndex =? 4) = false -> PushesInside patternIndex (Group 1 r).
Proof.
  intros Hidx text s y Hm. apply group1_match in Hm. destruct Hm as [HL Hcap].
  pose proof (Lang_bounds text r s (endIndex y) HL) as Hb.
  unfold pushed, group. rewrite Hidx, Hcap. simpl.
  destruct (truthy (substring text s (endIndex y))) eqn:Et; simpl.
  2:{ exists []. repeat split; auto. }
  destruct (truthy (trim (substring text s (endIndex y)))); simpl.
  2:{ exists []. repeat split; auto. }
  eexists. split; [reflexivity|].
  assert (Hs : s <= length text \/ s = endIndex y) by lia.
  assert (Hr : s <= endIndex y <= length text).
  { destruct Hs as [Hs | Hs]; [lia|].
    rewrite <- Hs in Et. unfold substring in Et. rewrite Nat.sub_diag in Et.
    discriminate. }
  split; [|split].
  - constructor; [|constructor]. apply pushed_record; assumption.
  - constructor; [|constructor]. unfold endOf. simpl.
    rewrite substring_length by assumption. lia.
  - simpl. lia.
Qed.

(** A match of three groups in a row records where each group is. *)
Lemma three_groups_match text a b c s y :
  ~ In 1 (groups b) -> ~ In 1 (groups c) -> ~ In 2 (groups c) ->
  matcher text (Seq (Group 1 a) (Seq (Group 2 b) (Group 3 c)))
          (startAt s) (fun y => Some y) = Some y ->
  exists j t,
    Lang text a s j /\ Lang text b j t /\ Lang text c t (endIndex y)
    /\ getCapture (captures y) 1 = Some (s, j)
    /\ getCapture (captures y) 2 = Some (j, t).
Proof.
  intros H1b H1c H2c. cbn [matcher]. intros Hm.
  apply matcher_sound in Hm. destruct Hm as (y1 & Hm & HLa & _).
  apply matcher_sound in Hm. destruct Hm as (y2 & Hm & HLb & Hcapb).
  apply matcher_sound in Hm. destruct Hm as (y3 & [= <-] & HLc & Hcapc).
  cbn [endIndex captures startAt] in *.
  exists (endIndex y1), (endIndex y2).
  split; [assumption|]. split; [assumption|]. split; [assumption|].
  cbn [getCapture Nat.eqb]. rewrite !Hcapc by assumption.
  cbn [getCapture Nat.eqb]. rewrite Hcapb by assumption.
  cbn [getCapture Nat.eqb]. split; reflexivity.
Qed.

Lemma pushes_three_groups a b c :
  ~ In 1 (groups b) -> ~ In 1 (groups c) -> ~ In 2 (groups c) ->
  PushesInside 4 (Seq (Group 1 a) (Seq (Group 2 b) (Group 3 c))).
Proof.
  intros H1b H1c H2c text s y Hm.
  apply three_groups_match in Hm; try assumption.
  destruct Hm as (j & t & HLa & HLb & HLc & Hcap1 & Hcap2).
  pose proof (Lang_bounds text a s j HLa) as Hba.
  pose proof (Lang_bounds text b j t HLb) as Hbb.
  pose proof (Lang_bounds text c t (endIndex y) HLc) as Hbc.
  unfold pushed, group. rewrite Hcap1, Hcap2. cbn [Nat.eqb bind fst snd].
  destruct (truthy (substring text j t)) eqn:Et; cbn [andb].
  2:{ exists []. repeat split; auto. }
  destruct (truthy (trim (substring text j t))).
  2:{ exists []. repeat split; auto. }
  assert (Hr : j <= t <= length text).
  { destruct (Nat.eq_dec j t) as [E | Hne]; [|lia].
    rewrite <- E in Et. unfold substring in Et. rewrite Nat.sub_diag in Et.
    discriminate. }
  assert (Hprefix : length (substring text s j) = j - s)
    by (apply substring_length; lia).
  rewrite Hprefix. replace (s + (j - s)) with j by lia.
  eexists. split; [reflexivity|]. split; [|split].
  - constructor; [|constructor]. apply pushed_record; assumption.
  - constructor; [|constructor]. unfold endOf. simpl.
    rewrite substring_length by assumption. lia.
  - simpl. lia.
Qed.

Section WhileFacts.

Variable text : jsstring.
Variable patternIndex : nat.
Variable pattern : regex.

Hypothesis progress : 1 <= minLen pattern.
Hypothesis pushes : PushesInside patternIndex pattern.

(** The loop ends, without an exception; the matches it pushed are
    well-formed, in increasing order and apart from each other. *)
Lemma whileExec_returns :
  forall turns lastIndex,
    length text + 1 - lastIndex < turns ->
    exists ms,
      whileExec text patternIndex pattern turns lastIndex = Ret ms
      /\ Forall (WellFormed text) ms
      /\ Forall (fun m => lastIndex <= MatchInfo.index m) ms
      /\ Disjoint ms.
Proof.
  induction turns as [|turns IH]; intros lastIndex Hturns; [lia|].
  cbn [whileExec].
  destruct (exec text pattern lastIndex) as [[s y]|] eqn:E.
  2:{ exists []. repeat split; constructor. }
  apply exec_Some in E. destruct E as (Hr & Hm & HL & _).
  pose proof (Lang_minLen text pattern s (endIndex y) HL) as Hmin.
  pose proof (Lang_bounds text pattern s (endIndex y) HL) as Hb.
  destruct (pushes text s y Hm) as (now & Hnow & Hwf & Hin & Hone).
  destruct (IH (endIndex y)) as (later & Hlater & Hwf' & Hfrom & Hdis); [lia|].
  rewrite Hnow, Hlater. cbn [bind].
  exists (now ++ later). split; [reflexivity|]. split; [|split].
  - apply Forall_app. auto.
  - apply Forall_app. split.
    + eapply Forall_impl; [|exact Hin]. cbn beta. intros m Hmm. lia.
    + eapply Forall_impl; [|exact Hfrom]. cbn beta. intros m Hmm. lia.
  - destruct now as [|m [|m' now]]; [exact Hdis | | simpl in Hone; lia].
    cbn [app]. constructor; [exact Hdis|].
    inversion Hin as [|? ? [_ Hend] _]; subst.
    eapply Forall_impl; [|exact Hfrom]. cbn beta. intros m' Hm'. lia.
Qed.

End WhileFacts.

(** ** The five patterns *)

Lemma patternMatches_returns text patternIndex pattern :
  1 <= minLen pattern ->
  PushesInside patternIndex pattern ->
  exists ms,
    patternMatches text patternIndex pattern = Ret ms
    /\ Forall (WellFormed text) ms
    /\ Disjoint ms.
Proof.
  intros Hmin Hpush. unfold patternMatches.
  destruct (whileExec_returns text patternIndex pattern Hmin Hpush (length text + 2) 0)
    as (ms & Hms & Hwf & _ & Hdis); [lia|].
  exists ms. auto.
Qed.

Lemma rawMatches_returns text patternIndex :
  patternIndex < 5 ->
  exists ms,
    rawMatches text patternIndex = Ret ms
    /\ Forall (WellFormed text) ms
    /\ Disjoint ms.
Proof.
  intros Hlt. unfold rawMatches.
  destruct patternIndex as [|[|[|[|[|k]]]]]; [| | | | |lia]; cbn [nth patterns];
    apply patternMatches_returns;
    try (cbn; lia);
    try (apply pushes_group1; reflexivity).
  apply pushes_three_groups; cbn; tauto.
Qed.

Lemma collectMatches_families text :
  exists m0 m1 m2 m3 m4,
    rawMatches text 0 = Ret m0 /\ rawMatches text 1 = Ret m1
    /\ rawMatches text 2 = Ret m2 /\ rawMatches text 3 = Ret m3
    /\ rawMatches text 4 = Ret m4
    /\ collectMatches text = Ret (concat [m0; m1; m2; m3; m4])
    /\ Forall (Forall (WellFormed text)) [m0; m1; m2; m3; m4]
    /\ Forall Disjoint [m0; m1; m2; m3; m4].
Proof.
  destruct (rawMatches_returns text 0) as (m0 & H0 & W0 & D0); [lia|].
  destruct (rawMatches_returns text 1) as (m1 & H1 & W1 & D1); [lia|].
  destruct (rawMatches_returns text 2) as (m2 & H2 & W2 & D2); [lia|].
  destruct (rawMatches_returns text 3) as (m3 & H3 & W3 & D3); [lia|].
  destruct (rawMatches_returns text 4) as (m4 & H4 & W4 & D4); [lia|].
  exists m0, m1, m2, m3, m4. repeat (split; [assumption|]).
  split; [|split; repeat (constructor; [assumption|]); constructor].
  unfold rawMatches in *. cbn [nth patterns] in *.
  unfold collectMatches, patterns. cbn [forEachPattern].
  rewrite H0, H1, H2, H3, H4. reflexivity.
Qed.

Lemma collectMatches_returns text :
  exists matches,
    collectMatches text = Ret matches /\ Forall (WellFormed text) matches.
Proof.
  destruct (collectMatches_families text)
    as (m0 & m1 & m2 & m3 & m4 & _ & _ & _ & _ & _ & Hc & Hwf & _).
  exists (concat [m0; m1; m2; m3; m4]). split; [assumption|].
  apply Forall_concat. exact Hwf.
Qed.

(** ** The sort *)

Lemma insertMatch_perm m l : Permutation (m :: l) (insertMatch m l).
Proof.
  induction l as [|m' l IH]; cbn [insertMatch]; [reflexivity|].
  destruct (MatchInfo.index m <=? MatchInfo.index m'); [reflexivity|].
  rewrite perm_swap. apply perm_skip. exact IH.
Qed.

Lemma sortMatches_perm l : Permutation l (sortMatches l).
Proof.
  induction l as [|m l IH]; cbn [sortMatches]; [reflexivity|].
  rewrite <- insertMatch_perm. apply perm_skip. exact IH.
Qed.

Lemma insertMatch_sorted m l :
  StronglySorted byIndex l -> StronglySorted byIndex (insertMatch m l).
Proof.
  induction 1 as [|m' l Hs IH Hall]; cbn [insertMatch].
  - constructor; constructor.
  - destruct (MatchInfo.index m <=? MatchInfo.index m') eqn:E.
    + apply Nat.leb_le in E. constructor; [constructor; assumption|].
      constructor; [exact E|].
      eapply Forall_impl; [|exact Hall]. unfold byIndex. intros k Hk. lia.
    + apply Nat.leb_gt in E. constructor; [exact IH|].
      rewrite <- insertMatch_perm. constructor; [unfold byIndex; lia | exact Hall].
Qed.

Lemma sortMatches_sorted l : StronglySorted byIndex (sortMatches l).
Proof.
  induction l as [|m l IH]; cbn [sortMatches]; [constructor|].
  apply insertMatch_sorted. exact IH.
Qed.

(** The sort is stable: the matches at one offset keep their order. *)
Lemma insertMatch_stable i m l :
  filter (startsAt i) (insertMatch m l) = filter (startsAt i) (m :: l).
Proof.
  induction l as [|m' l IH]; cbn [insertMatch]; [reflexivity|].
  destruct (MatchInfo.index m <=? MatchInfo.index m') eqn:E; [reflexivity|].
  apply Nat.leb_gt in E. cbn [filter] in *. rewrite IH.
  unfold startsAt.
  destruct (MatchInfo.index m =? i) eqn:Em; [|reflexivity].
  destruct (MatchInfo.index m' =? i) eqn:Em'; [|reflexivity].
  apply Nat.eqb_eq in Em, Em'. lia.
Qed.

Lemma sortMatches_stable i l :
  filter (startsAt i) (sortMatches l) = filter (startsAt i) l.
Proof.
  induction l as [|m l IH]; cbn [sortMatches]; [reflexivity|].
  rewrite insertMatch_stable. cbn [filter]. rewrite IH. reflexivity.
Qed.

(** ** The sweep *)

Lemma boundOf_snoc acc m : boundOf (acc ++ [m]) = endOf m.
Proof.
  unfold boundOf. rewrite map_app. cbn [map]. rewrite last_last. reflexivity.
Qed.

Lemma removeOverlaps_from l :
  forall acc,
    fold_left
      (fun uniqueMatches currentMatch =>
         match last (map Some uniqueMatches) None with
         | None => uniqueMatches ++ [currentMatch]
         | Some lastMatch =>
             if MatchInfo.index lastMatch + MatchInfo.length lastMatch
                <=? MatchInfo.index currentMatch
             then uniqueMatches ++ [currentMatch]
             else uniqueMatches
         end) l acc
    = acc ++ sweepFrom (boundOf acc) l.
Proof.
  induction l as [|c l IH]; intros acc; cbn [fold_left sweepFrom].
  - rewrite app_nil_r. reflexivity.
  - rewrite IH. unfold boundOf at 2.
    destruct (last (map Some acc) None) as [lastMatch|] eqn:E.
    + fold (endOf lastMatch).
      destruct (endOf lastMatch <=? MatchInfo.index c) eqn:Ec.
      * rewrite boundOf_snoc. rewrite <- app_assoc. reflexivity.
      * unfold boundOf. rewrite E. reflexivity.
    + cbn [Nat.leb]. rewrite boundOf_snoc. rewrite <- app_assoc. reflexivity.
Qed.

Lemma removeOverlaps_sweep l : removeOverlaps l = sweepFrom 0 l.
Proof.
  unfold removeOverlaps. rewrite removeOverlaps_from. reflexivity.
Qed.

Lemma sweepFrom_In bound l k :
  In k (sweepFrom bound l) -> In k l /\ bound <= MatchInfo.index k.
Proof.
  revert bound. induction l as [|c l IH]; intros bound; cbn [sweepFrom]; [intros []|].
  destruct (bound <=? MatchInfo.index c) eqn:E.
  - apply Nat.leb_le in E. intros [<- | Hk].
    + split; [left; reflexivity | assumption].
    + apply IH in Hk. destruct Hk as [Hin Hb]. split; [right; assumption|].
      unfold endOf in Hb. lia.
  - intros Hk. apply IH in Hk. destruct Hk as [Hin Hb]. split; [right|]; assumption.
Qed.

Lemma sweepFrom_disjoint l : forall bound, Disjoint (sweepFrom bound l).
Proof.
  induction l as [|c l IH]; intros bound; cbn [sweepFrom]; [constructor|].
  destruct (bound <=? MatchInfo.index c); [|apply IH].
  constructor; [apply IH|].
  apply Forall_forall. intros k Hk. apply sweepFrom_In in Hk. tauto.
Qed.

Lemma sweepFrom_Forall (P : MatchInfo.t -> Prop) l bound :
  Forall P l -> Forall P (sweepFrom bound l).
Proof.
  intros Hall. apply Forall_forall. intros k Hk. apply sweepFrom_In in Hk.
  rewrite Forall_forall in Hall. apply Hall. tauto.
Qed.

(** ** The parts *)

Lemma firstn_plus {A} (l : list A) : forall n m,
  firstn (n + m) l = firstn n l ++ firstn m (skipn n l).
Proof.
  induction l as [|x l IH]; intros n m.
  - rewrite skipn_nil, !firstn_nil. reflexivity.
  - destruct n as [|n]; [reflexivity|]. cbn [Nat.add firstn skipn app].
    f_equal. apply IH.
Qed.

Lemma skipn_plus {A} (l : list A) : forall n m,
  skipn m (skipn n l) = skipn (n + m) l.
Proof.
  induction l as [|x l IH]; intros n m.
  - rewrite !skipn_nil. reflexivity.
  - destruct n as [|n]; [reflexivity|]. cbn [Nat.add skipn]. apply IH.
Qed.

Lemma substring_app text a b c :
  a <= b <= c ->
  substring text a b ++ substring text b c = substring text a c.
Proof.
  intros Hr. unfold substring.
  replace (c - a) with ((b - a) + (c - b)) by lia.
  rewrite firstn_plus. f_equal. rewrite skipn_plus.
  replace (a + (b - a)) with b by lia. reflexivity.
Qed.

Lemma substring_empty text a : substring text a a = [].
Proof. unfold substring. rewrite Nat.sub_diag. reflexivity. Qed.

Lemma concat_snoc (parts : list Part) p :
  concat (map partText (parts ++ [p])) = concat (map partText parts) ++ partText p.
Proof.
  rewrite map_app, concat_app. cbn [map concat]. rewrite app_nil_r. reflexivity.
Qed.

(** The parts built from matches that are apart, from [lastIndex] on, show
    the text from [lastIndex] to the end of the last match. *)
Lemma buildParts_from text kept :
  Forall (WellFormed text) kept ->
  Disjoint kept ->
  forall parts lastIndex,
    Forall (fun m => lastIndex <= MatchInfo.index m) kept ->
    exists parts' lastIndex',
      fold_left (addParts text) kept (parts, lastIndex)
      = (parts', lastIndex')
      /\ concat (map partText parts')
         = concat (map partText parts) ++ substring text lastIndex lastIndex'
      /\ lastIndex <= lastIndex'
      /\ (lastIndex <= length text -> lastIndex' <= length text).
Proof.
  intros Hwf Hdis. induction kept as [|m kept IH]; intros parts lastIndex Hfrom.
  - exists parts, lastIndex. cbn [fold_left]. rewrite substring_empty, app_nil_r. auto.
  - inversion Hwf as [|? ? (Htext & Hend & Hpos) Hwf']; subst.
    inversion Hdis as [|? ? Hdis' Hafter]; subst.
    inversion Hfrom as [|? ? Hm _]; subst.
    cbn [fold_left]. unfold addParts at 2. fold (endOf m).
    destruct (IH Hwf' Hdis'
                (((if lastIndex <? MatchInfo.index m
                   then parts ++ [PlainText (substring text lastIndex (MatchInfo.index m))]
                   else parts) ++ [VariableSpan (MatchInfo.match_ m)]))
                (endOf m) Hafter)
      as (parts' & lastIndex' & Hfold & Hconcat & Hle & Hin).
    exists parts', lastIndex'. split; [exact Hfold|]. split; [|split].
    + rewrite Hconcat. rewrite concat_snoc. cbn [partText]. rewrite Htext.
      assert (Hgap : concat (map partText
                       (if lastIndex <? MatchInfo.index m
                        then parts ++ [PlainText (substring text lastIndex (MatchInfo.index m))]
                        else parts))
                     = concat (map partText parts)
                       ++ substring text lastIndex (MatchInfo.index m)).
      { destruct (lastIndex <? MatchInfo.index m) eqn:E.
        - rewrite concat_snoc. reflexivity.
        - apply Nat.ltb_ge in E. replace (MatchInfo.index m) with lastIndex by lia.
          rewrite substring_empty, app_nil_r. reflexivity. }
      rewrite Hgap. rewrite <- !app_assoc. f_equal.
      unfold endOf in *. rewrite app_assoc.
      rewrite substring_app by lia. apply substring_app. lia.
    + unfold endOf in *. lia.
    + intros _. apply Hin. exact Hend.
Qed.

Lemma uniqueMatchesOf_returns text :
  exists matches,
    collectMatches text = Ret matches
    /\ Forall (WellFormed text) matches
    /\ uniqueMatchesOf text = Ret (sweepFrom 0 (sortMatches matches)).
Proof.
  destruct (collectMatches_returns text) as (matches & Hc & Hwf).
  exists matches. split; [assumption|]. split; [assumption|].
  unfold uniqueMatchesOf. rewrite Hc. cbn [bind].
  rewrite removeOverlaps_sweep. reflexivity.
Qed.

Lemma kept_well_formed text matches :
  Forall (WellFormed text) matches ->
  Forall (WellFormed text) (sweepFrom 0 (sortMatches matches)).
Proof.
  intros Hwf. apply sweepFrom_Forall.
  apply Forall_forall. intros k Hk.
  rewrite Forall_forall in Hwf. apply Hwf.
  apply (Permutation_in k (Permutation_sym (sortMatches_perm matches))). exact Hk.
Qed.

(** C1.  For every text the scan ends with a list of kept matches and a
    rendering.  Every kept match is the substring of the text at its range
    [[index, index + length)], which is inside the text and not empty; each
    kept match ends at or before the start of every later one, so the
    starts increase strictly and no two ranges overlap; and the rendering
    (the gap before each token, the token, the rest of the text) shows the
    text itself. *)
Theorem scan_covers_text (text : jsstring) :
  exists uniqueMatches rendered,
    uniqueMatchesOf text = Ret uniqueMatches
    /\ renderVariableName text = Ret rendered
    /\ Forall (WellFormed text) uniqueMatches
    /\ StronglySorted
         (fun a b => MatchInfo.index a < MatchInfo.index b
                     /\ MatchInfo.index a + MatchInfo.length a <= MatchInfo.index b)
         uniqueMatches
    /\ renderedText rendered = text.
Proof.
  destruct (uniqueMatchesOf_returns text) as (matches & Hc & Hwf & Hu).
  pose proof (kept_well_formed text matches Hwf) as Hkwf.
  pose proof (sweepFrom_disjoint (sortMatches matches) 0) as Hdis.
  set (kept := sweepFrom 0 (sortMatches matches)) in *.
  destruct (buildParts_from text kept Hkwf Hdis [] 0) as (parts & lastIndex & Hfold & Hconcat & _ & Hin).
  { apply Forall_forall. intros m _. lia. }
  specialize (Hin (Nat.le_0_l _)).
  eexists kept, _. split; [exact Hu|]. split; [|split; [exact Hkwf|split]].
  - unfold renderVariableName. rewrite Hu. cbn [bind].
    unfold buildParts. rewrite Hfold. reflexivity.
  - clear - Hkwf Hdis. induction Hdis as [|m l Hs IH Hall]; [constructor|].
    inversion Hkwf as [|? ? (_ & _ & Hpos) Hwf']; subst.
    constructor; [apply IH; assumption|].
    eapply Forall_impl; [|exact Hall]. cbn beta. unfold endOf. intros k Hk. lia.
  - destruct (0 <? length kept); [|reflexivity].
    cbn [renderedText]. cbn [map concat app] in Hconcat.
    assert (Hfirst : substring text 0 lastIndex = firstn lastIndex text).
    { unfold substring. rewrite Nat.sub_0_r. reflexivity. }
    destruct (lastIndex <? length text) eqn:E.
    + rewrite concat_snoc, Hconcat, Hfirst. cbn [partText]. apply firstn_skipn.
    + apply Nat.ltb_ge in E. rewrite Hconcat, Hfirst.
      apply firstn_all2. lia.
Qed.

(** ** Scenario 1 *)

(** C4, as the scanner has it.  The scan of scenario 1 keeps three tokens:
    [obj.method()] at 0, [returned] at 13 (a bare identifier between two
    spaces) and [offset(x+1)`123a] at 22; the two spaces stay plain text. *)
Theorem scenario1_tokens :
  uniqueMatchesOf scenario1
  = Ret [ token (lit "obj.method()") 0;
          token (lit "returned") 13;
          token (lit "offset(x+1)`123a") 22 ]
  /\ renderVariableName scenario1
     = Ret (Fragment [ VariableSpan (lit "obj.method()");
                       PlainText (lit " ");
                       VariableSpan (lit "returned");
                       PlainText (lit " ");
                       VariableSpan (lit "offset(x+1)`123a") ]).
Proof. split; vm_compute; reflexivity. Qed.

(** The scan of scenario 1 does not keep exactly the two tokens
    [obj.method()] and [offset(x+1)`123a]. *)
Lemma scenario1_not_two_tokens :
  uniqueMatchesOf scenario1
  <> Ret [ token (lit "obj.method()") 0; token (lit "offset(x+1)`123a") 22 ].
Proof. vm_compute. discriminate. Qed.

(** The forms the patterns are written for: each is one token. *)
Example documented_forms :
  Forall (fun s => uniqueMatchesOf s = Ret [ token s 0 ])
    [ lit "obj.method"; lit "obj.method()"; lit "obj.prop.method`123";
      lit "obj.prop.method`123a"; lit "ptr->member"; lit "ptr->member->prop`123a";
      lit "offset(expression)"; lit "offset(var)`123a"; lit "{loop iteration}";
      lit "{loop iteration}`123"; lit "{loop iteration}'456"; lit "variable`123" ].
Proof. repeat constructor. Qed.

(** ** Ties *)

Lemma find_filter {A} (p : A -> bool) l : find p l = hd_error (filter p l).
Proof.
  induction l as [|x l IH]; cbn [find filter]; [reflexivity|].
  destruct (p x); [reflexivity | exact IH].
Qed.

Lemma find_app {A} (p : A -> bool) l1 l2 :
  find p (l1 ++ l2) = match find p l1 with Some x => Some x | None => find p l2 end.
Proof.
  induction l1 as [|x l1 IH]; cbn [find app]; [reflexivity|].
  destruct (p x); [reflexivity | exact IH].
Qed.

(** A kept match is the first of the swept list that starts at its
    offset. *)
Lemma sweepFrom_first l :
  Forall (fun m => 0 < MatchInfo.length m) l ->
  forall bound k,
    In k (sweepFrom bound l) -> find (startsAt (MatchInfo.index k)) l = Some k.
Proof.
  induction 1 as [|c l Hpos Hall IH]; intros bound k; cbn [sweepFrom find]; [intros []|].
  unfold startsAt at 1.
  destruct (bound <=? MatchInfo.index c) eqn:E.
  - intros [<- | Hk]; [rewrite Nat.eqb_refl; reflexivity|].
    pose proof (sweepFrom_In _ _ _ Hk) as [_ Hb]. unfold endOf in Hb.
    replace (MatchInfo.index c =? MatchInfo.index k) with false
      by (symmetry; apply Nat.eqb_neq; lia).
    apply (IH _ _ Hk).
  - apply Nat.leb_gt in E. intros Hk.
    pose proof (sweepFrom_In _ _ _ Hk) as [_ Hb].
    replace (MatchInfo.index c =? MatchInfo.index k) with false
      by (symmetry; apply Nat.eqb_neq; lia).
    apply (IH _ _ Hk).
Qed.

(** In a list of families, the first match at an offset is of the first
    family that has a match there. *)
Lemma find_families i k (fams : list (list MatchInfo.t)) :
  forall p m,
    find (startsAt i) (concat fams) = Some k ->
    In m (nth p fams []) ->
    MatchInfo.index m = i ->
    exists q, q <= p /\ In k (nth q fams []).
Proof.
  induction fams as [|f rest IH]; intros p m Hfind Hm Hi.
  - destruct p; destruct Hm.
  - cbn [concat] in Hfind. rewrite find_app in Hfind.
    destruct (find (startsAt i) f) as [x|] eqn:E.
    + injection Hfind as ->. apply find_some in E. exists 0. split; [lia | tauto].
    + destruct p as [|p].
      * exfalso. cbn [nth] in Hm.
        pose proof (find_none _ _ E m Hm) as Hn. unfold startsAt in Hn.
        apply Nat.eqb_neq in Hn. tauto.
      * cbn [nth] in Hm. destruct (IH p m Hfind Hm Hi) as (q & Hq & Hk).
        exists (S q). split; [lia | exact Hk].
Qed.

(** Every match of a sorted list starts inside a match the sweep keeps,
    unless it starts before the bound the sweep starts from. *)
Lemma sweepFrom_covers l :
  StronglySorted byIndex l ->
  Forall (fun m => 0 < MatchInfo.length m) l ->
  forall bound m,
    In m l ->
    MatchInfo.index m < bound
    \/ exists k, In k (sweepFrom bound l)
                 /\ MatchInfo.index k <= MatchInfo.index m < endOf k.
Proof.
  induction 1 as [|c l Hs IH Hafter]; intros Hpos bound m; [intros []|].
  inversion Hpos as [|? ? Hc Hpos']; subst.
  cbn [sweepFrom]. destruct (bound <=? MatchInfo.index c) eqn:E.
  - intros [<- | Hm].
    + right. exists c. split; [left; reflexivity|]. unfold endOf. lia.
    + destruct (IH Hpos' (endOf c) m Hm) as [Hlt | (k & Hk & Hr)].
      * right. exists c. split; [left; reflexivity|].
        rewrite Forall_forall in Hafter. specialize (Hafter m Hm).
        unfold byIndex in Hafter. lia.
      * right. exists k. split; [right; assumption | assumption].
  - apply Nat.leb_gt in E. intros [<- | Hm]; [left; assumption|].
    apply (IH Hpos' bound m Hm).
Qed.

Lemma Disjoint_cases l :
  Disjoint l ->
  forall a b, In a l -> In b l ->
    a = b \/ endOf a <= MatchInfo.index b \/ endOf b <= MatchInfo.index a.
Proof.
  induction 1 as [|c l Hs IH Hafter]; intros a b; [intros []|].
  rewrite Forall_forall in Hafter.
  intros [<- | Ha] [<- | Hb]; auto.
Qed.

Lemma WellFormed_positive text l :
  Forall (WellFormed text) l -> Forall (fun m => 0 < MatchInfo.length m) l.
Proof.
  intros Hwf. eapply Forall_impl; [|exact Hwf]. intros m (_ & _ & Hpos). exact Hpos.
Qed.

(** The scan, with the matches of each family. *)
Lemma scan_families text :
  exists fams kept,
    length fams = 5
    /\ (forall p, p < 5 -> rawMatches text p = Ret (nth p fams []))
    /\ uniqueMatchesOf text = Ret kept
    /\ kept = sweepFrom 0 (sortMatches (concat fams))
    /\ Forall (Forall (WellFormed text)) fams
    /\ Forall Disjoint fams.
Proof.
  destruct (collectMatches_families text)
    as (m0 & m1 & m2 & m3 & m4 & H0 & H1 & H2 & H3 & H4 & Hc & Hwf & Hdis).
  exists [m0; m1; m2; m3; m4], (sweepFrom 0 (sortMatches (concat [m0; m1; m2; m3; m4]))).
  split; [reflexivity|]. split; [|split; [|split; [reflexivity | split; assumption]]].
  - intros p Hp. destruct p as [|[|[|[|[|p]]]]]; try assumption. lia.
  - unfold uniqueMatchesOf. rewrite Hc. cbn [bind]. rewrite removeOverlaps_sweep.
    reflexivity.
Qed.

Lemma In_family (fams : list (list MatchInfo.t)) k :
  In k (concat fams) -> exists q, q < length fams /\ In k (nth q fams []).
Proof.
  induction fams as [|f rest IH]; cbn [concat]; [intros []|].
  rewrite in_app_iff. intros [Hk | Hk].
  - exists 0. cbn [length nth]. split; [lia | assumption].
  - destruct (IH Hk) as (q & Hq & Hin). exists (S q). cbn [length nth].
    split; [lia | assumption].
Qed.

Lemma family_In (fams : list (list MatchInfo.t)) p m :
  In m (nth p fams []) -> In m (concat fams).
Proof.
  revert p. induction fams as [|f rest IH]; intros p Hm.
  - destruct p; destruct Hm.
  - cbn [concat]. rewrite in_app_iff. destruct p as [|p]; [left; assumption|].
    right. apply (IH p). exact Hm.
Qed.

(** C6, as the sweep has it.  Of the raw matches that start at one offset,
    only the one of the lowest-numbered family can be kept: a kept token
    that starts where a match of family [p] starts is a match of a family
    numbered [p] or lower, and no two kept tokens start at the same offset.
    That match is kept unless the offset lies inside a token kept before:
    every raw match starts inside some kept token. *)
Theorem ties_go_to_the_lower_family (text : jsstring) :
  exists fams kept,
    (forall p, p < 5 -> rawMatches text p = Ret (nth p fams []))
    /\ uniqueMatchesOf text = Ret kept
    /\ (forall p m k,
          In m (nth p fams []) -> In k kept ->
          MatchInfo.index k = MatchInfo.index m ->
          exists q, q <= p /\ In k (nth q fams []))
    /\ (forall k k',
          In k kept -> In k' kept ->
          MatchInfo.index k = MatchInfo.index k' -> k = k')
    /\ (forall p m,
          In m (nth p fams []) ->
          exists k, In k kept
                    /\ MatchInfo.index k <= MatchInfo.index m
                    /\ MatchInfo.index m < MatchInfo.index k + MatchInfo.length k).
Proof.
  destruct (scan_families text) as (fams & kept & Hlen & Hraw & Hu & -> & Hwf & Hdis).
  assert (Hall : Forall (WellFormed text) (concat fams)) by (apply Forall_concat; exact Hwf).
  assert (Hpos : Forall (fun m => 0 < MatchInfo.length m) (sortMatches (concat fams))).
  { apply WellFormed_positive with (text := text).
    apply Forall_forall. intros k Hk. rewrite Forall_forall in Hall. apply Hall.
    apply (Permutation_in k (Permutation_sym (sortMatches_perm _))). exact Hk. }
  exists fams, (sweepFrom 0 (sortMatches (concat fams))).
  split; [exact Hraw|]. split; [exact Hu|]. split; [|split].
  - intros p m k Hm Hk Hi.
    pose proof (sweepFrom_first _ Hpos _ _ Hk) as Hfirst.
    rewrite find_filter, sortMatches_stable, <- find_filter in Hfirst.
    apply (find_families _ _ _ p m Hfirst Hm). symmetry. exact Hi.
  - intros k k' Hk Hk' Hi.
    pose proof (sweepFrom_first _ Hpos _ _ Hk) as H1.
    pose proof (sweepFrom_first _ Hpos _ _ Hk') as H2.
    rewrite Hi in H1. congruence.
  - intros p m Hm.
    assert (Hin : In m (sortMatches (concat fams))).
    { apply (Permutation_in m (sortMatches_perm _)). apply (family_In _ p). exact Hm. }
    destruct (sweepFrom_covers _ (sortMatches_sorted _) Hpos 0 m Hin) as [Hlt | (k & Hk & Hr)];
      [lia|].
    exists k. unfold endOf in Hr. split; [exact Hk | lia].
Qed.

(** In ["{offset(x)}"] the families 3 and 5 both have a match at offset 1,
    and neither is kept: the brace expression that starts at 0 covers them. *)
Lemma tie_inside_a_kept_token :
  rawMatches (lit "{offset(x)}") 2 = Ret [ token (lit "offset(x)") 1 ]
  /\ rawMatches (lit "{offset(x)}") 4 = Ret [ token (lit "offset") 1 ]
  /\ uniqueMatchesOf (lit "{offset(x)}") = Ret [ token (lit "{offset(x)}") 0 ]
  /\ ~ In (token (lit "offset(x)") 1) [ token (lit "{offset(x)}") 0 ].
Proof.
  repeat split; try (vm_compute; reflexivity).
  intros [E | []]. discriminate.
Qed.

(** ** Bare identifiers *)

(** The classes are ranges of codes: facts about them are arithmetic. *)
Ltac codes :=
  repeat match goal with
         | |- context [N_of_ascii ?a] =>
             let v := eval vm_compute in (N_of_ascii a) in
             change (N_of_ascii a) with v
         end.

Ltac compare_codes :=
  repeat (match goal with
          | |- context [N.leb ?a ?b] => destruct (N.leb_spec a b)
          | |- context [N.eqb ?a ?b] => destruct (N.eqb_spec a b)
          end;
          cbn [andb orb xorb negb];
          try lia; try (intros; discriminate); try (intros; reflexivity)).

Ltac each_code_unit c :=
  unfold isIdentStart, isIdentChar, isDigit, isLower, isBoundary, isWhiteSpace,
    inClass, identStart, identChar, identOrDot, inRange;
  cbn [existsb fst snd]; codes; compare_codes.

Lemma identStart_identChar c : isIdentStart c = true -> isIdentChar c = true.
Proof. each_code_unit c. Qed.

Lemma digit_identChar c : isDigit c = true -> isIdentChar c = true.
Proof. each_code_unit c. Qed.

Lemma lower_identChar c : isLower c = true -> isIdentChar c = true.
Proof. each_code_unit c. Qed.

Lemma identChar_not_boundary c : isIdentChar c = true -> isBoundary c = true -> False.
Proof. each_code_unit c. Qed.

Lemma identStart_not_digit c : isIdentStart c = true -> isDigit c = true -> False.
Proof. each_code_unit c. Qed.

Lemma identStart_not_space c : isIdentStart c = true -> isWhiteSpace c = false.
Proof. each_code_unit c. Qed.

Lemma backtick_not_identChar : isIdentChar backtick = false.
Proof. reflexivity. Qed.

Section BareFacts.

Variable text : jsstring.

Lemma charAt_inside i p : charAt text i p -> i < length text.
Proof. intros (c & Hc & _). apply nth_error_Some. congruence. Qed.

Lemma charAt_both i p q :
  charAt text i p -> charAt text i q -> exists c, p c = true /\ q c = true.
Proof.
  intros (c & Hc & Hp) (d & Hd & Hq). exists c. split; [assumption|]. congruence.
Qed.

Lemma charAt_impl i (p q : N -> bool) :
  (forall c, p c = true -> q c = true) -> charAt text i p -> charAt text i q.
Proof. intros Hpq (c & Hc & Hp). exists c. auto. Qed.

Lemma Lang_Class neg ranges i j :
  Lang text (Class neg ranges) i j <-> charAt text i (inClass neg ranges) /\ j = S i.
Proof.
  cbn [Lang]. unfold charAt. split.
  - intros (a & Ha & Hin & ->). split; [exists a; auto | reflexivity].
  - intros ((a & Ha & Hin) & ->). exists a. auto.
Qed.

Lemma iter_Class neg ranges u v :
  iter (Lang text (Class neg ranges)) u v <->
  u <= v /\ forall k, u <= k < v -> charAt text k (inClass neg ranges).
Proof.
  split.
  - induction 1 as [i | i m j Him _ IH].
    + split; [lia|]. intros k Hk. lia.
    + apply Lang_Class in Him. destruct Him as [Hc ->]. destruct IH as [Hle Hall].
      split; [lia|]. intros k Hk.
      destruct (Nat.eq_dec k i) as [-> | Hne]; [assumption|]. apply Hall. lia.
  - intros [Hle Hall]. remember (v - u) as n eqn:En. revert u Hle Hall En.
    induction n as [|n IH]; intros u Hle Hall En.
    + replace v with u by lia. constructor.
    + apply iter_step with (m := S u).
      * apply Lang_Class. split; [apply Hall; lia | reflexivity].
      * apply IH; [lia | intros k Hk; apply Hall; lia | lia].
Qed.

Lemma Lang_identifier j u : Lang text identifier j u <-> IdentifierRun text j u.
Proof.
  unfold identifier, IdentifierRun. cbn [Lang]. split.
  - intros (m & (a & Ha & Hin & ->) & Hit). apply iter_Class in Hit.
    destruct Hit as [Hle Hall]. split; [lia|]. split; [exists a; auto|].
    intros k Hk. apply Hall. lia.
  - intros (Hlt & (a & Ha & Hin) & Hall). exists (S j). split; [exists a; auto|].
    apply iter_Class. split; [lia|]. intros k Hk. apply Hall. lia.
Qed.

(** A subscript is nothing, or a backtick, a digit and more letters and
    digits. *)
Lemma Lang_subscript u t :
  Lang text subscript u t ->
  t = u
  \/ (nth_error text u = Some backtick
      /\ S u < t
      /\ charAt text (S u) isDigit
      /\ forall k, u < k < t -> charAt text k isIdentChar).
Proof.
  unfold subscript. cbn [Lang].
  intros [(m1 & [Hb ->] & m2 & (m3 & Hd & Hit) & Hl) | ->]; [right | left; reflexivity].
  destruct Hd as (d & Hd & Hdin & ->).
  apply iter_Class in Hit. destruct Hit as [Hle Hall].
  assert (Hdigits : forall k, u < k < m2 -> charAt text k isIdentChar).
  { intros k Hk. destruct (Nat.eq_dec k (S u)) as [-> | Hne].
    - exists d. split; [assumption|]. apply digit_identChar. exact Hdin.
    - apply charAt_impl with (p := isDigit); [exact digit_identChar|]. apply Hall. lia. }
  split; [exact Hb|].
  destruct Hl as [(l & Hl & Hlin & ->) | ->].
  - split; [lia|]. split; [exists d; auto|]. intros k Hk.
    destruct (Nat.eq_dec k m2) as [-> | Hne].
    + exists l. split; [assumption|]. apply lower_identChar. exact Hlin.
    + apply Hdigits. lia.
  - split; [lia|]. split; [exists d; auto|]. exact Hdigits.
Qed.

(** The shape of a bare token from [j] up to [t]. *)
Lemma Lang_bareToken j t :
  Lang text bareToken j t ->
  j < t
  /\ charAt text j isIdentStart
  /\ charAt text (t - 1) isIdentChar
  /\ (forall k, j <= k < t ->
        charAt text k isIdentChar
        \/ (nth_error text k = Some backtick /\ charAt text (S k) isDigit))
  /\ exists u, IdentifierRun text j u /\ u <= t
               /\ (u < t -> nth_error text u = Some backtick).
Proof.
  unfold bareToken. cbn [Lang]. fold (Lang text identifier) (Lang text subscript).
  intros (u & Hid & Hsub). apply Lang_identifier in Hid.
  destruct Hid as (Hlt & Hstart & Hrun).
  assert (Hin : forall k, j <= k < u -> charAt text k isIdentChar).
  { intros k Hk. destruct (Nat.eq_dec k j) as [-> | Hne].
    - apply charAt_impl with (p := isIdentStart); [exact identStart_identChar | assumption].
    - apply Hrun. lia. }
  apply Lang_subscript in Hsub.
  destruct Hsub as [-> | (Hb & Hlt' & Hd & Hrest)].
  - split; [assumption|]. split; [assumption|]. split; [apply Hin; lia|].
    split; [intros k Hk; left; apply Hin; assumption|].
    exists u. split; [repeat split; assumption|]. split; [lia|]. lia.
  - split; [lia|]. split; [assumption|]. split; [apply Hrest; lia|].
    split.
    + intros k Hk. destruct (lt_eq_lt_dec k u) as [[Hk' | ->] | Hk'].
      * left. apply Hin. lia.
      * right. auto.
      * left. apply Hrest. lia.
    + exists u. split; [repeat split; assumption|]. split; [lia|]. intros _. exact Hb.
Qed.

Lemma Lang_leftBoundary s j :
  Lang text leftBoundary s j <->
  (s = 0 /\ j = s) \/ (charAt text s isBoundary /\ j = S s).
Proof.
  unfold leftBoundary. cbn [Lang]. fold (Lang text (Class true identOrDot) s j).
  rewrite Lang_Class. reflexivity.
Qed.

Lemma Lang_rightBoundary t e :
  Lang text rightBoundary t e <->
  (t = length text /\ e = t) \/ (charAt text t isBoundary /\ e = S t).
Proof.
  unfold rightBoundary. cbn [Lang]. fold (Lang text (Class true identOrDot) t e).
  rewrite Lang_Class. reflexivity.
Qed.

(** A boundary code unit followed by the start of an identifier is not
    inside a bare token. *)
Lemma boundary_not_in_token j t a :
  Lang text bareToken j t ->
  j <= a < t ->
  charAt text a isBoundary ->
  charAt text (S a) isIdentStart ->
  False.
Proof.
  intros Htok Ha Hb Hs. apply Lang_bareToken in Htok.
  destruct Htok as (_ & _ & _ & Hall & _).
  destruct (Hall a Ha) as [Hc | [_ Hd]].
  - destruct (charAt_both _ _ _ Hc Hb) as (c & H1 & H2).
    apply (identChar_not_boundary c H1 H2).
  - destruct (charAt_both _ _ _ Hs Hd) as (c & H1 & H2).
    apply (identStart_not_digit c H1 H2).
Qed.

End BareFacts.

(** *** What the loop pushes for a match of the fifth pattern *)

Lemma skipn_nth_error {A} (l : list A) : forall j c,
  nth_error l j = Some c -> skipn j l = c :: skipn (S j) l.
Proof.
  induction l as [|x l IH]; intros j c Hc; [destruct j; discriminate|].
  destruct j as [|j]; [injection Hc as ->; reflexivity|].
  cbn [nth_error] in Hc. cbn [skipn]. apply IH in Hc. exact Hc.
Qed.

Lemma substring_cons text j t c :
  nth_error text j = Some c -> j < t ->
  substring text j t = c :: substring text (S j) t.
Proof.
  intros Hc Hlt. unfold substring. rewrite (skipn_nth_error _ _ _ Hc).
  replace (t - j) with (S (t - S j)) by lia. reflexivity.
Qed.

Lemma trimStart_snoc l c :
  isWhiteSpace c = false -> truthy (trimStart (l ++ [c])) = true.
Proof.
  intros Hc. induction l as [|x l IH]; cbn [app trimStart].
  - rewrite Hc. reflexivity.
  - destruct (isWhiteSpace x); [exact IH | reflexivity].
Qed.

Lemma truthy_rev s : truthy (rev s) = truthy s.
Proof.
  destruct s as [|c s]; [reflexivity|]. cbn [rev truthy].
  destruct (rev s); reflexivity.
Qed.

Lemma trim_truthy c s : isWhiteSpace c = false -> truthy (trim (c :: s)) = true.
Proof.
  intros Hc. unfold trim. cbn [trimStart]. rewrite Hc.
  rewrite truthy_rev. cbn [rev]. apply trimStart_snoc. exact Hc.
Qed.

Lemma pushed_bare text s y :
  matcher text pattern5 (startAt s) (fun y => Some y) = Some y ->
  exists j t,
    Lang text leftBoundary s j
    /\ Lang text bareToken j t
    /\ Lang text rightBoundary t (endIndex y)
    /\ pushed text 4 s y
       = Ret [ {| MatchInfo.match_ := substring text j t;
                  MatchInfo.index := j;
                  MatchInfo.length := t - j |} ].
Proof.
  intros Hm.
  change pattern5
    with (Seq (Group 1 leftBoundary) (Seq (Group 2 bareToken) (Group 3 rightBoundary))) in Hm.
  apply three_groups_match in Hm; try (cbn; tauto).
  destruct Hm as (j & t & HLa & HLb & HLc & Hcap1 & Hcap2).
  exists j, t. repeat (split; [assumption|]).
  pose proof (Lang_bounds text _ _ _ HLa) as Hba.
  pose proof (Lang_bounds text _ _ _ HLb) as Hbb.
  pose proof (Lang_bareToken text j t HLb) as (Hlt & (c & Hc & Hstart) & _).
  assert (Hj : j < length text) by (apply nth_error_Some; congruence).
  unfold pushed, group. rewrite Hcap1, Hcap2. cbn [Nat.eqb bind fst snd].
  rewrite (substring_cons text j t c Hc Hlt).
  rewrite trim_truthy by (apply identStart_not_space; exact Hstart).
  cbn [truthy andb]. rewrite <- (substring_cons text j t c Hc Hlt).
  rewrite !substring_length by lia.
  replace (s + (j - s)) with j by lia. reflexivity.
Qed.

Lemma bind_Ret {A B} (c : outcome A) (k : A -> outcome B) b :
  bind c k = Ret b -> exists a, c = Ret a /\ k a = Ret b.
Proof. destruct c as [a|e]; cbn [bind]; [|discriminate]. intros E. exists a. auto. Qed.

Section RunFacts.

Variable text : jsstring.
Variables j j2 : nat.

Hypothesis run : IdentifierRun text j j2.
Hypothesis right : BoundedRight text j2.

Lemma run_inside : j2 <= length text.
Proof.
  destruct run as (Hlt & Hstart & Hall).
  destruct (Nat.eq_dec j2 (S j)) as [-> | Hne].
  - apply charAt_inside in Hstart. lia.
  - assert (Hc : charAt text (j2 - 1) isIdentChar) by (apply Hall; lia).
    apply charAt_inside in Hc. lia.
Qed.

Lemma run_identChar k : j <= k < j2 -> charAt text k isIdentChar.
Proof.
  destruct run as (Hlt & Hstart & Hall). intros Hk.
  destruct (Nat.eq_dec k j) as [-> | Hne].
  - apply charAt_impl with (p := isIdentStart); [exact identStart_identChar | assumption].
  - apply Hall. lia.
Qed.

(** The fifth pattern matches the run, from the start of the text or from
    the boundary code unit before it. *)
Lemma run_matches :
  j = 0 \/ charAt text (j - 1) isBoundary ->
  exists e, Lang text pattern5 (j - 1) e.
Proof.
  intros Hleft.
  assert (Htok : Lang text bareToken j j2).
  { unfold bareToken. cbn [Lang]. fold (Lang text identifier j j2).
    exists j2. split; [apply Lang_identifier; exact run|].
    unfold subscript. cbn [Lang]. right. reflexivity. }
  assert (Hl : Lang text leftBoundary (j - 1) j).
  { apply Lang_leftBoundary. destruct Hleft as [-> | Hb]; [left; split; reflexivity|].
    destruct (Nat.eq_dec j 0) as [-> | Hne]; [left; split; reflexivity|].
    right. split; [exact Hb | lia]. }
  destruct right as [Hend | Hb].
  - exists j2. exists j. split; [exact Hl|]. exists j2. split; [exact Htok|].
    apply Lang_rightBoundary. left. split; [exact Hend | reflexivity].
  - exists (S j2). exists j. split; [exact Hl|]. exists j2. split; [exact Htok|].
    apply Lang_rightBoundary. right. split; [exact Hb | reflexivity].
Qed.

(** A match of the fifth pattern found where the run is anchored pushes a
    token that starts with the run. *)
Lemma anchored_match s t e :
  j = 0 \/ charAt text (j - 1) isBoundary ->
  Lang text leftBoundary (j - 1) s ->
  Lang text bareToken s t ->
  Lang text rightBoundary t e ->
  s = j /\ j2 <= t /\ (t = j2 \/ nth_error text j2 = Some backtick).
Proof.
  intros Hleft Hl Htok Hr.
  pose proof run_inside as Hin.
  pose proof (Lang_bareToken text s t Htok) as (Hlt & Hstart & _).
  destruct run as (Hrunlt & Hrunstart & _).
  assert (Hs : s = j).
  { apply Lang_leftBoundary in Hl.
    destruct Hl as [[Ha ->] | [Hb ->]].
    - destruct (Nat.eq_dec j 0) as [-> | Hne]; [reflexivity|].
      exfalso. destruct Hleft as [-> | Hb]; [lia|].
      rewrite Ha in *.
      destruct (charAt_both _ _ _ _ Hstart Hb) as (c & H1 & H2).
      apply (identChar_not_boundary c (identStart_identChar c H1) H2).
    - destruct (Nat.eq_dec j 0) as [-> | Hne]; [|lia].
      exfalso. cbn [Nat.sub] in Hb.
      destruct (charAt_both _ _ _ _ Hrunstart Hb) as (c & H1 & H2).
      apply (identChar_not_boundary c (identStart_identChar c H1) H2). }
  split; [exact Hs|]. subst s.
  assert (Hle : j2 <= t).
  { destruct (le_lt_dec j2 t) as [Hle | Hgt]; [exact Hle|]. exfalso.
    assert (Hc : charAt text t isIdentChar) by (apply run_identChar; lia).
    apply Lang_rightBoundary in Hr. destruct Hr as [[Hend _] | [Hb _]].
    - lia.
    - destruct (charAt_both _ _ _ _ Hc Hb) as (c & H1 & H2).
      apply (identChar_not_boundary c H1 H2). }
  split; [exact Hle|].
  pose proof (Lang_bareToken text j t Htok) as (_ & _ & _ & _ & u & Hu & Hut & Htick).
  destruct Hu as (Hju & _ & Hurun).
  assert (Hu2 : u = j2).
  { destruct (lt_eq_lt_dec u j2) as [[Hlt' | E] | Hgt]; [| exact E |]; exfalso.
    - assert (Hc : charAt text u isIdentChar) by (apply run_identChar; lia).
      destruct Hc as (c & Hc & Hcin). rewrite (Htick ltac:(lia)) in Hc.
      injection Hc as <-. rewrite backtick_not_identChar in Hcin. discriminate.
    - assert (Hc : charAt text j2 isIdentChar) by (apply Hurun; lia).
      destruct right as [Hend | Hb].
      + apply charAt_inside in Hc. lia.
      + destruct (charAt_both _ _ _ _ Hc Hb) as (c & H1 & H2).
        apply (identChar_not_boundary c H1 H2). }
  subst u. destruct (Nat.eq_dec t j2) as [E | Hne]; [left; exact E|].
  right. apply Htick. lia.
Qed.

(** The loop reaches the run: if it is at or before the anchor of the run,
    and no match it pushes ends at the boundary code unit before the run,
    it pushes a token that starts with the run. *)
Lemma scan_reaches_run :
  forall turns lastIndex ms,
    whileExec text 4 pattern5 turns lastIndex = Ret ms ->
    lastIndex <= j - 1 ->
    BoundedLeft text ms j ->
    exists m, In m ms /\ MatchInfo.index m = j /\ j2 <= endOf m
              /\ (endOf m = j2 \/ nth_error text j2 = Some backtick).
Proof.
  pose proof run_inside as Hin.
  induction turns as [|turns IH]; intros lastIndex ms Hw Hlast Hleft; [discriminate|].
  assert (Hanchor : j = 0 \/ charAt text (j - 1) isBoundary)
    by (destruct Hleft as [-> | [Hb _]]; auto).
  destruct (run_matches Hanchor) as (e & He).
  destruct run as (Hrunlt & Hrunstart & _).
  destruct (exec_finds text pattern5 lastIndex (j - 1) e) as (s & y & Hexec & Hs);
    [lia | exact He |].
  cbn [whileExec] in Hw. rewrite Hexec in Hw.
  apply exec_Some in Hexec. destruct Hexec as (Hr & Hm & _ & _).
  apply pushed_bare in Hm. destruct Hm as (s' & t & Hl & Htok & Hrb & Hpushed).
  rewrite Hpushed in Hw. cbn [bind] in Hw.
  apply bind_Ret in Hw. destruct Hw as (later & Hlater & [= <-]).
  destruct (Nat.eq_dec s (j - 1)) as [-> | Hne].
  - destruct (anchored_match _ _ _ Hanchor Hl Htok Hrb) as (-> & Hle & Hsub).
    pose proof (Lang_bounds text _ _ _ Htok).
    eexists. split; [left; reflexivity|]. cbn [MatchInfo.index].
    split; [reflexivity|]. unfold endOf. cbn [MatchInfo.index MatchInfo.length].
    split; [lia|]. destruct Hsub as [-> | Htick]; [left; lia | right; exact Htick].
  - assert (Hj : j <> 0) by lia.
    destruct Hleft as [-> | [Hb Hnot]]; [lia|].
    pose proof (Lang_bounds text _ _ _ Htok) as Hbt.
    assert (Hend : endIndex y <= j - 1).
    { destruct (le_lt_dec (endIndex y) (j - 1)) as [Hle | Hgt]; [exact Hle|]. exfalso.
      assert (Hs' : s' <= S s).
      { apply Lang_leftBoundary in Hl. destruct Hl as [[_ ->] | [_ ->]]; lia. }
      assert (He' : endIndex y <= S t).
      { apply Lang_rightBoundary in Hrb. destruct Hrb as [[_ ->] | [_ ->]]; lia. }
      destruct (le_lt_dec t (j - 1)) as [Hle | Hin'].
      - apply (Hnot _ (or_introl eq_refl)). unfold endOf.
        cbn [MatchInfo.index MatchInfo.length]. lia.
      - apply (boundary_not_in_token text s' t (j - 1) Htok); [lia | exact Hb|].
        replace (S (j - 1)) with j by lia. exact Hrunstart. }
    destruct (IH (endIndex y) later Hlater Hend) as (m & Hmin & Hidx & Hcover & Hsub).
    { right. split; [exact Hb|]. intros m Hmin. apply Hnot. right. exact Hmin. }
    exists m. split; [right; exact Hmin | auto].
Qed.

End RunFacts.

(** A match that is apart from the matches of the other families is
    kept. *)
Lemma kept_if_apart text (fams : list (list MatchInfo.t)) p m :
  Forall (Forall (WellFormed text)) fams ->
  Forall Disjoint fams ->
  In m (nth p fams []) ->
  (forall q m', q <> p -> In m' (nth q fams []) -> Apart m m') ->
  In m (sweepFrom 0 (sortMatches (concat fams))).
Proof.
  intros Hwf Hdis Hm Hapart.
  assert (Hall : Forall (WellFormed text) (concat fams)) by (apply Forall_concat; exact Hwf).
  assert (Hpos : Forall (fun m => 0 < MatchInfo.length m) (sortMatches (concat fams))).
  { apply WellFormed_positive with (text := text).
    apply Forall_forall. intros k Hk. rewrite Forall_forall in Hall. apply Hall.
    apply (Permutation_in k (Permutation_sym (sortMatches_perm _))). exact Hk. }
  assert (Hin : In m (sortMatches (concat fams))).
  { apply (Permutation_in m (sortMatches_perm _)). apply (family_In _ p). exact Hm. }
  assert (Hmpos : 0 < MatchInfo.length m).
  { rewrite Forall_forall in Hpos. apply Hpos. exact Hin. }
  destruct (sweepFrom_covers _ (sortMatches_sorted _) Hpos 0 m Hin) as [Hlt | (k & Hk & Hr)];
    [lia|].
  assert (Hkin : In k (concat fams)).
  { apply (Permutation_in k (Permutation_sym (sortMatches_perm _))).
    apply (sweepFrom_In _ _ _ Hk). }
  assert (Hkpos : 0 < MatchInfo.length k).
  { rewrite Forall_forall in Hall. apply (Hall k Hkin). }
  destruct (In_family _ _ Hkin) as (q & Hq & Hkq).
  assert (Hcases : k = m \/ Apart m k).
  { destruct (Nat.eq_dec q p) as [-> | Hne].
    - assert (Hd : Disjoint (nth p fams [])).
      { rewrite Forall_forall in Hdis. apply Hdis. apply nth_In. exact Hq. }
      destruct (Disjoint_cases _ Hd k m Hkq Hm) as [E | [H1 | H2]];
        [left; exact E | right; left; exact H1 | right; right; exact H2].
    - right. apply (Hapart q k Hne Hkq). }
  destruct Hcases as [<- | [H1 | H2]]; [exact Hk | |]; unfold endOf in *; lia.
Qed.

(** C5, as the scanner has it.  Take a run of letters, digits and
    underscores that does not start with a digit, followed by the end of the
    text or by a code unit outside [[a-zA-Z0-9_.]], and preceded by the
    start of the text or by such a code unit that is not the one right after
    another bare-identifier match.  Then the fifth family has a match that
    starts where the run starts and covers the run (it ends with the run,
    or goes on with a subscript that starts with the backtick after the run),
    and that match is kept as a token when it is apart from every match of
    the families 1 to 4. *)
Theorem bare_identifier_emitted (text : jsstring) :
  exists fams kept,
    (forall p, p < 5 -> rawMatches text p = Ret (nth p fams []))
    /\ uniqueMatchesOf text = Ret kept
    /\ forall j j2,
         IdentifierRun text j j2 ->
         BoundedRight text j2 ->
         BoundedLeft text (nth 4 fams []) j ->
         exists m,
           In m (nth 4 fams [])
           /\ MatchInfo.index m = j
           /\ j2 <= MatchInfo.index m + MatchInfo.length m
           /\ (MatchInfo.index m + MatchInfo.length m = j2
               \/ nth_error text j2 = Some backtick)
           /\ MatchInfo.match_ m
              = substring text j (MatchInfo.index m + MatchInfo.length m)
           /\ ((forall p m', p < 4 -> In m' (nth p fams []) -> Apart m m') ->
               In m kept).
Proof.
  destruct (scan_families text) as (fams & kept & Hlen & Hraw & Hu & -> & Hwf & Hdis).
  exists fams, (sweepFrom 0 (sortMatches (concat fams))).
  split; [exact Hraw|]. split; [exact Hu|].
  intros j j2 Hrun Hright Hleft.
  pose proof (Hraw 4 (Nat.lt_succ_diag_r 4)) as H4.
  unfold rawMatches, patternMatches in H4. cbn [nth patterns] in H4.
  destruct (scan_reaches_run text j j2 Hrun Hright _ _ _ H4)
    as (m & Hm & Hidx & Hcover & Hsub); [lia | exact Hleft |].
  exists m. split; [exact Hm|]. split; [exact Hidx|]. split; [exact Hcover|].
  split; [exact Hsub|]. split.
  - assert (Hmwf : WellFormed text m).
    { assert (H4wf : Forall (WellFormed text) (nth 4 fams [])).
      { rewrite Forall_forall in Hwf. apply Hwf. apply nth_In. lia. }
      rewrite Forall_forall in H4wf. apply H4wf. exact Hm. }
    destruct Hmwf as (Htext & _ & _). rewrite Htext. unfold endOf. rewrite Hidx. reflexivity.
  - intros Hapart. apply (kept_if_apart text fams 4 m Hwf Hdis Hm).
    intros q m' Hq Hm'.
    destruct (le_lt_dec 5 q) as [Hbig | Hsmall].
    + rewrite nth_overflow in Hm' by lia. destruct Hm'.
    + apply (Hapart q m'); [lia | exact Hm'].
Qed.

(** In ["a b c"] the identifiers [a] and [c] are kept and [b] is not: the
    space before [b] went with the match of [a].  In ["a."] nothing is kept:
    the dot is not a boundary the fifth pattern accepts.  No other family has
    a match in either text. *)
Lemma bare_identifier_missed :
  uniqueMatchesOf (lit "a b c") = Ret [ token (lit "a") 0; token (lit "c") 4 ]
  /\ rawMatches (lit "a b c") 0 = Ret [] /\ rawMatches (lit "a b c") 1 = Ret []
  /\ rawMatches (lit "a b c") 2 = Ret [] /\ rawMatches (lit "a b c") 3 = Ret []
  /\ IdentifierRun (lit "a b c") 2 3
  /\ uniqueMatchesOf (lit "a.") = Ret []
  /\ IdentifierRun (lit "a.") 0 1.
Proof.
  assert (Hrun : forall text j c,
            nth_error text j = Some c -> isIdentStart c = true ->
            IdentifierRun text j (S j)).
  { intros text j c Hc Hs. split; [lia|]. split; [exists c; auto|].
    intros k Hk. lia. }
  split; [vm_compute; reflexivity|].
  split; [vm_compute; reflexivity|].
  split; [vm_compute; reflexivity|].
  split; [vm_compute; reflexivity|].
  split; [vm_compute; reflexivity|].
  split; [apply (Hrun _ _ ("b"%char : N)); reflexivity|].
  split; [vm_compute; reflexivity|].
  apply (Hrun _ _ ("a"%char : N)); reflexivity.
Qed.

(** * More of the code *)

(** ** Navigation: the other queries, and how the queries compose *)

Lemma firstFrom_upto {A} (b : nat -> option A) count i j a :
  i <= j < i + count -> b j = Some a ->
  exists k a', i <= k <= j /\ b k = Some a' /\ firstFrom b count i = Some a'.
Proof.
  intros Hj Hb. destruct (firstFrom b count i) as [a'|] eqn:E.
  - apply firstFrom_Some in E. destruct E as (k & Hk & Hbk & Hfirst).
    exists k, a'. split; [|auto].
    destruct (le_lt_dec k j) as [Hle | Hlt]; [lia|].
    rewrite (Hfirst j) in Hb by lia. discriminate.
  - rewrite firstFrom_None in E. rewrite (E j Hj) in Hb. discriminate.
Qed.

Lemma lastBelow_downto {A} (b : nat -> option A) n j a :
  j < n -> b j = Some a ->
  exists k a', j <= k < n /\ b k = Some a' /\ lastBelow b n = Some a'.
Proof.
  intros Hj Hb. destruct (lastBelow b n) as [a'|] eqn:E.
  - apply lastBelow_Some in E. destruct E as (k & Hk & Hbk & Hlast).
    exists k, a'. split; [|auto].
    destruct (le_lt_dec j k) as [Hle | Hlt]; [lia|].
    rewrite (Hlast j) in Hb by lia. discriminate.
  - rewrite lastBelow_None in E. rewrite (E j Hj) in Hb. discriminate.
Qed.

Lemma lastBelow_ext {A} (b b' : nat -> option A) n :
  (forall i, i < n -> b i = b' i) -> lastBelow b n = lastBelow b' n.
Proof.
  induction n as [|n IH]; intros Hb; cbn [lastBelow]; [reflexivity|].
  rewrite (Hb n) by lia. destruct (b' n); [reflexivity|].
  apply IH. intros i Hi. apply Hb. lia.
Qed.

Lemma lastBelow_map {A B} (f : A -> B) (b : nat -> option A) n :
  lastBelow (fun i => option_map f (b i)) n = option_map f (lastBelow b n).
Proof.
  induction n as [|n IH]; cbn [lastBelow]; [reflexivity|].
  destruct (b n); [reflexivity | exact IH].
Qed.

Section NavigationExtras.

Context `{NumberModel} `{PrototypeModel}.

Variable locs : list ThreadFlowLocation.
Variable variable : jsstring.

(** X1.  [findNextChanged] at the current index [idx]: not-found when [idx]
    is -1 or the last index (or beyond), and when [getVariableValue] returns
    [null] for the current step; otherwise, with [currentValue] what it
    returns there (read from a key of the state or from a name inherited
    from [Object.prototype], whether the state is empty or not), the answer
    is the least index above [idx] whose step has a non-empty state and
    reads a value different from [currentValue], and not-found exactly when
    there is no such index. *)
Theorem findNextChanged_spec (idx : Z) :
  ((idx = -1 \/ Z.of_nat (length locs) - 1 <= idx)%Z ->
   findNextChangedAt locs variable idx = Ret None)
  /\ (getVariableValue (index locs idx) variable = Ret None ->
      findNextChangedAt locs variable idx = Ret None)
  /\ (forall currentValue,
      getVariableValue (index locs idx) variable = Ret (Some currentValue) ->
      (forall i,
          findNextChangedAt locs variable idx = Ret (Some i) <->
          Z.to_nat idx < i < length locs
          /\ differsAt locs variable currentValue i
          /\ forall j, Z.to_nat idx < j < i -> ~ differsAt locs variable currentValue j)
      /\ (findNextChangedAt locs variable idx = Ret None <->
          forall j, Z.to_nat idx < j < length locs ->
                    ~ differsAt locs variable currentValue j)).
Proof.
  assert (Hout : (idx = -1 \/ Z.of_nat (length locs) - 1 <= idx)%Z ->
                 findNextChangedAt locs variable idx = Ret None).
  { intros Hout. unfold findNextChangedAt.
    destruct Hout as [-> | Hlast]; [reflexivity|].
    apply Z.leb_le in Hlast. rewrite Hlast. rewrite orb_true_r. reflexivity. }
  split; [exact Hout|]. split.
  - intros Hnull. apply index_getVariableValue in Hnull. destruct Hnull as [Hr Hnull].
    destruct (Z_lt_ge_dec idx (Z.of_nat (length locs) - 1)) as [Hlt | Hge];
      [|apply Hout; lia].
    rewrite findNextChangedAt_pure by lia. rewrite Hnull. reflexivity.
  - intros cur Hcur. apply index_getVariableValue in Hcur. destruct Hcur as [Hr Hcur].
    destruct (Z_lt_ge_dec idx (Z.of_nat (length locs) - 1)) as [Hlt | Hge].
    2:{ rewrite Hout by lia. split.
        - intros i. split; [discriminate | intros [Hi _]; lia].
        - split; [intros _ j Hj; lia | reflexivity]. }
    rewrite findNextChangedAt_pure by lia. rewrite Hcur. split.
    + intros i. split.
      * intros [= Hi]. apply firstFrom_Some in Hi.
        destruct Hi as (k & Hk & Hbk & Hfirst).
        apply changedAt_Some in Hbk. destruct Hbk as [-> Hdiff].
        split; [lia|]. split; [assumption|].
        intros j Hj. apply changedAt_None. apply Hfirst. lia.
      * intros (Hi & Hdiff & Hfirst). f_equal. apply firstFrom_Some.
        exists i. split; [lia|]. split.
        -- apply changedAt_Some. auto.
        -- intros j Hj. apply changedAt_None. apply Hfirst. lia.
    + split.
      * intros [= Hn] j Hj. apply changedAt_None.
        apply (proj1 (firstFrom_None _ _ _) Hn). lia.
      * intros Hn. f_equal. apply firstFrom_None. intros j Hj.
        apply changedAt_None. apply Hn. lia.
Qed.

Lemma initializedAt_Some i t :
  initializedAt locs variable i = Some t <->
  t = i /\ exists v, readsAt locs variable i v.
Proof.
  unfold initializedAt. split.
  - destruct (stepValueAt locs variable i) as [v|] eqn:E; [|discriminate].
    intros [= <-]. split; [reflexivity|]. exists v. apply stepValueAt_Some. exact E.
  - intros (-> & v & Hd). apply stepValueAt_Some in Hd. rewrite Hd. reflexivity.
Qed.

Lemma initializedAt_None i :
  initializedAt locs variable i = None <-> forall v, ~ readsAt locs variable i v.
Proof.
  unfold initializedAt. rewrite <- stepValueAt_None.
  destruct (stepValueAt locs variable i); split; congruence.
Qed.

Lemma readsAt_inside i v : readsAt locs variable i v -> i < length locs.
Proof. intros (step & Hs & _). apply nth_error_Some. congruence. Qed.

(** With a name every state inherits, each step with a non-empty state
    reads a value. *)
Lemma inherited_readsAt printed i :
  Object_prototype variable = Some printed ->
  validAt locs i -> exists v, readsAt locs variable i v.
Proof.
  intros Hproto (step & Hs & Hvalid).
  assert (Hv : exists v, getVariableValue (Some step) variable = Ret (Some v)).
  { cbn [getVariableValue hasValidState] in *.
    destruct (state step) as [st|]; [|discriminate].
    unfold Get. rewrite Hproto.
    destruct (getProperty st variable); eexists; reflexivity. }
  destruct Hv as (v & Hv). exists v, step. auto.
Qed.

(** X2.  [findInitialized] returns the least index whose step has a
    non-empty state and for which [getVariableValue] returns a value, and
    not-found exactly when there is no such step.  The value is that of a
    key of the state or of a name inherited from [Object.prototype]: for a
    name [Object.prototype] has, the answer is the first step with a
    non-empty state, whatever its keys. *)
Theorem findInitialized_spec :
  (forall i,
      findInitialized locs variable = Ret (Some i) <->
      (exists v, readsAt locs variable i v)
      /\ forall j v, j < i -> ~ readsAt locs variable j v)
  /\ (findInitialized locs variable = Ret None <->
      forall j v, ~ readsAt locs variable j v)
  /\ (forall printed,
      Object_prototype variable = Some printed ->
      forall i,
        findInitialized locs variable = Ret (Some i) <->
        validAt locs i /\ forall j, j < i -> ~ validAt locs j).
Proof.
  assert (Hsome : forall i,
      findInitialized locs variable = Ret (Some i) <->
      (exists v, readsAt locs variable i v)
      /\ forall j v, j < i -> ~ readsAt locs variable j v).
  { rewrite findInitialized_pure. intros i. split.
    + intros [= Hi]. apply firstFrom_Some in Hi.
      destruct Hi as (k & Hk & Hbk & Hfirst).
      apply initializedAt_Some in Hbk. destruct Hbk as [-> Hdef].
      split; [exact Hdef|]. intros j v Hj.
      apply (proj1 (initializedAt_None j)). apply Hfirst. lia.
    + intros ((v & Hdef) & Hfirst). f_equal. apply firstFrom_Some.
      exists i. split; [pose proof (readsAt_inside i v Hdef); lia|]. split.
      * apply initializedAt_Some. split; [reflexivity|]. exists v. exact Hdef.
      * intros j Hj. apply initializedAt_None. intros w. apply Hfirst. lia. }
  split; [exact Hsome|]. split.
  - rewrite findInitialized_pure. split.
    + intros [= Hn] j v Hd.
      pose proof (readsAt_inside j v Hd) as Hj.
      apply (proj1 (initializedAt_None j) (proj1 (firstFrom_None _ _ _) Hn j ltac:(lia)) v Hd).
    + intros Hn. f_equal. apply firstFrom_None. intros j _.
      apply initializedAt_None. intros v. apply Hn.
  - intros printed Hproto i. rewrite Hsome. split.
    + intros ((v & Hd) & Hfirst). split; [apply (readsAt_valid Hd)|].
      intros j Hj Hvalid.
      destruct (inherited_readsAt printed j Hproto Hvalid) as (w & Hw).
      apply (Hfirst j w Hj Hw).
    + intros (Hvalid & Hfirst). split; [apply (inherited_readsAt printed i Hproto Hvalid)|].
      intros j v Hj Hd. apply (Hfirst j Hj). apply (readsAt_valid Hd).
Qed.

(** Where a loop reads a value, [findInitialized] answers at or before. *)
Lemma findInitialized_before i v :
  readsAt locs variable i v ->
  exists k, findInitialized locs variable = Ret (Some k) /\ k <= i.
Proof.
  intros Hd. rewrite findInitialized_pure.
  destruct (firstFrom_upto (initializedAt locs variable) (length locs) 0 i i)
    as (k & a' & Hk & Hbk & Hfirst).
  - pose proof (readsAt_inside i v Hd). lia.
  - apply initializedAt_Some. split; [reflexivity|]. exists v. exact Hd.
  - apply initializedAt_Some in Hbk. destruct Hbk as [-> _].
    exists k. rewrite Hfirst. split; [reflexivity | lia].
Qed.

Lemma findPreviouslyChangedAt_Some idx t :
  findPreviouslyChangedAt locs variable idx = Ret (Some t) ->
  (0 < idx < Z.of_nat (length locs))%Z
  /\ t < Z.to_nat idx
  /\ exists cur, valueAt locs variable (Z.to_nat idx) = Some cur
                 /\ differsAt locs variable cur t
                 /\ forall j, t < j < Z.to_nat idx -> ~ differsAt locs variable cur j.
Proof.
  intros Hprev.
  assert (Hpos : (0 < idx)%Z).
  { destruct (Z_le_gt_dec idx 0) as [Hle | Hgt]; [|lia].
    unfold findPreviouslyChangedAt in Hprev.
    apply Z.leb_le in Hle. rewrite Hle in Hprev. discriminate. }
  assert (Hlt : (idx < Z.of_nat (length locs))%Z).
  { destruct (Z_lt_ge_dec idx (Z.of_nat (length locs))) as [Hlt | Hge]; [exact Hlt|].
    exfalso. unfold findPreviouslyChangedAt in Hprev.
    destruct (idx <=? 0)%Z eqn:E; [apply Z.leb_le in E; lia|].
    unfold index in Hprev. destruct (idx <? 0)%Z; [discriminate|].
    assert (Hnone : nth_error locs (Z.to_nat idx) = None) by (apply nth_error_None; lia).
    rewrite Hnone in Hprev. discriminate. }
  split; [lia|].
  rewrite findPreviouslyChangedAt_pure in Hprev by lia.
  destruct (valueAt locs variable (Z.to_nat idx)) as [cur|] eqn:Ecur; [|discriminate].
  injection Hprev as Hprev. apply lastBelow_Some in Hprev.
  destruct Hprev as (k & Hk & Hbk & Hlast).
  apply changedAt_Some in Hbk. destruct Hbk as [-> Hdiff].
  split; [exact Hk|]. exists cur. split; [reflexivity|].
  split; [exact Hdiff|]. intros j Hj. apply changedAt_None. apply Hlast. exact Hj.
Qed.

Lemma findNextChangedAt_Some idx t :
  findNextChangedAt locs variable idx = Ret (Some t) ->
  (0 <= idx < Z.of_nat (length locs) - 1)%Z
  /\ Z.to_nat idx < t < length locs
  /\ exists cur, valueAt locs variable (Z.to_nat idx) = Some cur
                 /\ differsAt locs variable cur t
                 /\ forall j, Z.to_nat idx < j < t -> ~ differsAt locs variable cur j.
Proof.
  intros Hnext.
  assert (Hr : (0 <= idx < Z.of_nat (length locs) - 1)%Z).
  { destruct (Z_lt_ge_dec idx 0) as [Hneg | Hpos].
    - exfalso. unfold findNextChangedAt in Hnext.
      destruct ((idx =? -1)%Z || (Z.of_nat (length locs) - 1 <=? idx)%Z); [discriminate|].
      unfold index in Hnext. apply Z.ltb_lt in Hneg. rewrite Hneg in Hnext. discriminate.
    - destruct (Z_lt_ge_dec idx (Z.of_nat (length locs) - 1)) as [Hlt | Hge]; [lia|].
      exfalso. unfold findNextChangedAt in Hnext.
      replace (Z.of_nat (length locs) - 1 <=? idx)%Z with true in Hnext
        by (symmetry; apply Z.leb_le; lia).
      rewrite orb_true_r in Hnext. discriminate. }
  split; [exact Hr|].
  rewrite findNextChangedAt_pure in Hnext by exact Hr.
  destruct (valueAt locs variable (Z.to_nat idx)) as [cur|] eqn:Ecur; [|discriminate].
  injection Hnext as Hnext. apply firstFrom_Some in Hnext.
  destruct Hnext as (k & Hk & Hbk & Hfirst).
  apply changedAt_Some in Hbk. destruct Hbk as [-> Hdiff].
  split; [lia|]. exists cur. split; [reflexivity|].
  split; [exact Hdiff|]. intros j Hj. apply changedAt_None. apply Hfirst. lia.
Qed.

Lemma findLastChanged_Some t :
  findLastChanged locs variable = Ret (Some t) ->
  exists i finalValue,
    t = i + 1 /\ i < length locs - 1
    /\ readsAt locs variable (length locs - 1) finalValue
    /\ differsAt locs variable finalValue i
    /\ validAt locs t.
Proof.
  rewrite findLastChanged_pure.
  destruct (length locs =? 0); [discriminate|].
  destruct (nonEmptyAt locs (length locs - 1)); [|discriminate].
  destruct (stepValueAt locs variable (length locs - 1)) as [finalValue|] eqn:E;
    [|discriminate].
  intros [= Ht]. apply lastBelow_Some in Ht. destruct Ht as (i & Hi & Hbi & _).
  apply lastChangedAt_Some in Hbi. destruct Hbi as (-> & Hdiff & Hvalid).
  exists i, finalValue. split; [reflexivity|]. split; [exact Hi|].
  split; [apply stepValueAt_Some; exact E|]. split; assumption.
Qed.

(** X3.  Whenever one of the three other queries finds a step,
    [findInitialized] finds one too, and not a later one: at or before the
    answer of [findPreviouslyChanged] and of [findNextChanged], strictly
    before the answer of [findLastChanged]. *)
Theorem initialized_comes_first (selected : option ThreadFlowLocation) (t : nat) :
  (findPreviouslyChanged locs variable selected = Ret (Some t)
   \/ findNextChanged locs variable selected = Ret (Some t) ->
   exists i, findInitialized locs variable = Ret (Some i) /\ i <= t)
  /\ (findLastChanged locs variable = Ret (Some t) ->
      exists i, findInitialized locs variable = Ret (Some i) /\ i < t).
Proof.
  split.
  - intros [Hprev | Hnext].
    + apply findPreviouslyChangedAt_Some in Hprev.
      destruct Hprev as (_ & _ & cur & _ & (v & Hd & _) & _).
      apply (findInitialized_before t v Hd).
    + apply findNextChangedAt_Some in Hnext.
      destruct Hnext as (_ & _ & cur & _ & (v & Hd & _) & _).
      apply (findInitialized_before t v Hd).
  - intros Hlast. apply findLastChanged_Some in Hlast.
    destruct Hlast as (i & finalValue & -> & _ & _ & (v & Hd & _) & _).
    destruct (findInitialized_before i v Hd) as (k & Hk & Hle).
    exists k. split; [exact Hk | lia].
Qed.

(** A value read at a step with a non-empty state is read by the loops. *)
Lemma valueAt_readsAt i v :
  validAt locs i -> valueAt locs variable i = Some v -> readsAt locs variable i v.
Proof.
  intros Hvalid Hv. apply stepValueAt_Some. unfold stepValueAt.
  rewrite (proj2 (nonEmptyAt_true locs i) Hvalid). exact Hv.
Qed.

Lemma readsAt_valueAt i v :
  readsAt locs variable i v -> valueAt locs variable i = Some v.
Proof.
  intros (step & Hs & _ & Hv). apply valueAt_Some. exists step. auto.
Qed.

Lemma previous_then_next (idx : Z) (i : nat) :
  validAt locs (Z.to_nat idx) ->
  findPreviouslyChangedAt locs variable idx = Ret (Some i) ->
  exists k, findNextChangedAt locs variable (Z.of_nat i) = Ret (Some k)
            /\ i < k <= Z.to_nat idx.
Proof.
  intros Hvalid Hprev. apply findPreviouslyChangedAt_Some in Hprev.
  destruct Hprev as (Hr & Hlt & cur & Hcur & (v & Hv & Hne) & _).
  rewrite findNextChangedAt_pure by lia. rewrite Nat2Z.id.
  rewrite (readsAt_valueAt i v Hv).
  destruct (firstFrom_upto (changedAt locs variable v)
              (length locs - (i + 1)) (i + 1) (Z.to_nat idx) (Z.to_nat idx))
    as (k & a' & Hk & Hbk & Hfirst).
  - lia.
  - apply changedAt_Some. split; [reflexivity|]. exists cur.
    split; [apply valueAt_readsAt; assumption|]. congruence.
  - apply changedAt_Some in Hbk. destruct Hbk as [-> _].
    exists k. rewrite Hfirst. split; [reflexivity | lia].
Qed.

Lemma next_then_previous (idx : Z) (i : nat) :
  validAt locs (Z.to_nat idx) ->
  findNextChangedAt locs variable idx = Ret (Some i) ->
  exists k, findPreviouslyChangedAt locs variable (Z.of_nat i) = Ret (Some k)
            /\ Z.to_nat idx <= k < i.
Proof.
  intros Hvalid Hnext. apply findNextChangedAt_Some in Hnext.
  destruct Hnext as (Hr & Hlt & cur & Hcur & (v & Hv & Hne) & _).
  rewrite findPreviouslyChangedAt_pure by lia. rewrite Nat2Z.id.
  rewrite (readsAt_valueAt i v Hv).
  destruct (lastBelow_downto (changedAt locs variable v) i (Z.to_nat idx) (Z.to_nat idx))
    as (k & a' & Hk & Hbk & Hlast).
  - lia.
  - apply changedAt_Some. split; [reflexivity|]. exists cur.
    split; [apply valueAt_readsAt; assumption|]. congruence.
  - apply changedAt_Some in Hbk. destruct Hbk as [-> _].
    exists k. rewrite Hlast. split; [reflexivity | lia].
Qed.

(** X4.  From a current step with a non-empty state, the two relative
    queries lead back towards each other.  If [findPreviouslyChanged] at
    [idx] answers [i], then [findNextChanged] at [i] finds a step, after [i]
    and at or before [idx]; if [findNextChanged] at [idx] answers [i], then
    [findPreviouslyChanged] at [i] finds a step, at or after [idx] and
    before [i].  (From a step with an empty state the way back can be
    missing: the step is read as the current one but passed over by the
    loops.) *)
Theorem changes_lead_back (idx : Z) (i : nat) :
  validAt locs (Z.to_nat idx) ->
  (findPreviouslyChangedAt locs variable idx = Ret (Some i) ->
   exists k, findNextChangedAt locs variable (Z.of_nat i) = Ret (Some k)
             /\ i < k <= Z.to_nat idx)
  /\ (findNextChangedAt locs variable idx = Ret (Some i) ->
      exists k, findPreviouslyChangedAt locs variable (Z.of_nat i) = Ret (Some k)
                /\ Z.to_nat idx <= k < i).
Proof.
  intros Hvalid.
  split; [apply previous_then_next | apply next_then_previous]; exact Hvalid.
Qed.

(** X5.  On a timeline where every step has a non-empty state,
    [findLastChanged] is the step after the one [findPreviouslyChanged]
    finds from the final step. *)
Theorem last_changed_follows_previous :
  (forall i, i < length locs -> validAt locs i) ->
  findLastChanged locs variable
  = (r <- findPreviouslyChangedAt locs variable (Z.of_nat (length locs) - 1) ;;
     Ret (option_map S r)).
Proof.
  intros Hall. rewrite findLastChanged_pure.
  destruct (Nat.eq_dec (length locs) 0) as [E0 | Hne0].
  { rewrite E0. reflexivity. }
  replace (length locs =? 0) with false by (symmetry; apply Nat.eqb_neq; exact Hne0).
  rewrite (proj2 (nonEmptyAt_true locs (length locs - 1)) (Hall (length locs - 1) ltac:(lia))).
  destruct (Nat.eq_dec (length locs) 1) as [E1 | Hne1].
  { rewrite E1. cbn [Nat.sub lastBelow].
    destruct (stepValueAt locs variable 0); reflexivity. }
  rewrite findPreviouslyChangedAt_pure by lia.
  replace (Z.to_nat (Z.of_nat (length locs) - 1)) with (length locs - 1) by lia.
  cbn [bind]. unfold stepValueAt at 1.
  rewrite (proj2 (nonEmptyAt_true locs (length locs - 1)) (Hall (length locs - 1) ltac:(lia))).
  destruct (valueAt locs variable (length locs - 1)) as [finalValue|]; [|reflexivity].
  f_equal. rewrite <- lastBelow_map. apply lastBelow_ext.
  intros i Hi. unfold lastChangedAt, changedAt.
  destruct (stepValueAt locs variable i) as [v|]; [|reflexivity].
  destruct (strictEq v finalValue); [reflexivity|].
  rewrite (proj2 (nonEmptyAt_true locs (i + 1)) (Hall (i + 1) ltac:(lia))).
  cbn [option_map]. f_equal. lia.
Qed.

(** *** The functions that navigate *)

Lemma findIndex_first {A} (p : A -> bool) (l : list A) i a :
  nth_error l i = Some a -> p a = true ->
  (forall j b, j < i -> nth_error l j = Some b -> p b = false) ->
  findIndex p l = Z.of_nat i.
Proof.
  intros Hi Hp Hfirst. unfold findIndex.
  enough (G : forall l i (start : Z),
    nth_error l i = Some a ->
    (forall j b, j < i -> nth_error l j = Some b -> p b = false) ->
    (fix go (l : list A) (i : Z) : Z :=
       match l with
       | [] => (-1)%Z
       | a :: rest => if p a then i else go rest (i + 1)%Z
       end) l start = (start + Z.of_nat i)%Z).
  { rewrite (G l i 0%Z Hi Hfirst). lia. }
  clear l i Hi Hfirst. induction l as [|x l IH]; intros i start Hi Hfirst.
  - destruct i; discriminate.
  - destruct i as [|i].
    + injection Hi as ->. rewrite Hp. lia.
    + rewrite (Hfirst 0 x) by (lia || reflexivity).
      rewrite (IH i (start + 1)%Z Hi); [lia|].
      intros j b Hj Hb. apply (Hfirst (S j) b); [lia | exact Hb].
Qed.

(** The index of a step of a timeline whose steps are distinct objects. *)
Lemma getCurrentStepIndex_nth i :
  NoDup (map (@ref _) locs) ->
  i < length locs ->
  getCurrentStepIndex locs (nth_error locs i) = Z.of_nat i.
Proof.
  intros Hnd Hi. unfold getCurrentStepIndex.
  destruct (nth_error locs i) as [step|] eqn:E; [|apply nth_error_None in E; lia].
  apply (findIndex_first _ locs i step E); [apply Nat.eqb_refl|].
  intros j b Hj Hb. apply Nat.eqb_neq. intros Href.
  assert (H1 : nth_error (map (@ref _) locs) j = Some (ref b))
    by (rewrite nth_error_map, Hb; reflexivity).
  assert (H2 : nth_error (map (@ref _) locs) i = Some (ref step))
    by (rewrite nth_error_map, E; reflexivity).
  rewrite Href in H1.
  assert (Hji : j = i).
  { apply (proj1 (NoDup_nth_error _) Hnd); [|congruence].
    rewrite length_map. lia. }
  lia.
Qed.

Section Navigating.

Variable Menu : Type.

Lemma navigateToStep_lands (r : option nat) (st : DetailsState Menu) :
  NoDup (map (@ref _) locs) ->
  (forall t, r = Some t -> t < length locs) ->
  Lands locs st r (navigateToStep locs r st).
Proof.
  intros Hnd Hin. unfold Lands, navigateToStep. cbn [contextMenu selectedThreadFlowLocation].
  split; [reflexivity|]. destruct r as [t|]; [|reflexivity].
  apply getCurrentStepIndex_nth; [exact Hnd | apply Hin; reflexivity].
Qed.

(** X6.  On a timeline of distinct step objects, each of the four
    navigation functions closes the context menu and either selects the
    step its query found, so that the current step index is the answer of
    the query, or, when the query found nothing, leaves the selection as it
    was. *)
Theorem navigation_lands_on_the_answer (st : DetailsState Menu) :
  NoDup (map (@ref _) locs) ->
  (exists r st',
      findInitialized locs variable = Ret r
      /\ navigateToInitialized locs variable st = Ret st'
      /\ Lands locs st r st')
  /\ (exists r st',
        findPreviouslyChanged locs variable (selectedThreadFlowLocation st) = Ret r
        /\ navigateToPreviouslyChanged locs variable st = Ret st'
        /\ Lands locs st r st')
  /\ (exists r st',
        findNextChanged locs variable (selectedThreadFlowLocation st) = Ret r
        /\ navigateToNextChanged locs variable st = Ret st'
        /\ Lands locs st r st')
  /\ (exists r st',
        findLastChanged locs variable = Ret r
        /\ navigateToLastChanged locs variable st = Ret st'
        /\ Lands locs st r st').
Proof.
  intros Hnd. split; [|split; [|split]].
  - unfold navigateToInitialized.
    destruct (findInitialized locs variable) as [r|e] eqn:E.
    2:{ rewrite findInitialized_pure in E. discriminate. }
    exists r, (navigateToStep locs r st). split; [reflexivity|]. split; [reflexivity|].
    apply navigateToStep_lands; [exact Hnd|]. intros t ->.
    rewrite findInitialized_pure in E. injection E as E.
    apply firstFrom_Some in E. destruct E as (k & _ & Hbk & _).
    apply initializedAt_Some in Hbk. destruct Hbk as (-> & v & Hd).
    apply (readsAt_inside _ _ Hd).
  - unfold navigateToPreviouslyChanged.
    destruct (findPreviouslyChanged_returns locs variable (selectedThreadFlowLocation st))
      as (r & E).
    rewrite E. exists r, (navigateToStep locs r st).
    split; [reflexivity|]. split; [reflexivity|].
    apply navigateToStep_lands; [exact Hnd|]. intros t ->.
    apply findPreviouslyChangedAt_Some in E. destruct E as (_ & _ & _ & _ & (v & Hd & _) & _).
    apply (readsAt_inside _ _ Hd).
  - unfold navigateToNextChanged.
    destruct (findNextChanged_returns locs variable (selectedThreadFlowLocation st))
      as (r & E).
    rewrite E. exists r, (navigateToStep locs r st).
    split; [reflexivity|]. split; [reflexivity|].
    apply navigateToStep_lands; [exact Hnd|]. intros t ->.
    apply findNextChangedAt_Some in E. destruct E as (_ & Hr & _). lia.
  - unfold navigateToLastChanged.
    destruct (findLastChanged locs variable) as [r|e] eqn:E.
    2:{ rewrite findLastChanged_pure in E. discriminate. }
    exists r, (navigateToStep locs r st). split; [reflexivity|]. split; [reflexivity|].
    apply navigateToStep_lands; [exact Hnd|]. intros t ->.
    apply findLastChanged_Some in E. destruct E as (i & _ & -> & Hi & _). lia.
Qed.

(** X7.  On a timeline of distinct step objects, when the current step has
    a non-empty state: after a successful "Previously Changed", "Next
    Changed" is enabled; after a successful "Next Changed", "Previously
    Changed" is enabled. *)
Theorem the_way_back_is_enabled (st st' : DetailsState Menu) :
  NoDup (map (@ref _) locs) ->
  validAt locs (Z.to_nat (getCurrentStepIndex locs (selectedThreadFlowLocation st))) ->
  (canNavigateToPreviouslyChanged locs variable st = Ret true ->
   navigateToPreviouslyChanged locs variable st = Ret st' ->
   canNavigateToNextChanged locs variable st' = Ret true)
  /\ (canNavigateToNextChanged locs variable st = Ret true ->
      navigateToNextChanged locs variable st = Ret st' ->
      canNavigateToPreviouslyChanged locs variable st' = Ret true).
Proof.
  intros Hnd Hvalid. split.
  - unfold canNavigateToPreviouslyChanged, navigateToPreviouslyChanged, findPreviouslyChanged.
    destruct (findPreviouslyChangedAt locs variable
                (getCurrentStepIndex locs (selectedThreadFlowLocation st)))
      as [[t|]|e] eqn:E; cbn [bind notNull]; try discriminate.
    intros _ [= <-].
    pose proof (findPreviouslyChangedAt_Some _ _ E) as (_ & _ & _ & _ & (v & Hd & _) & _).
    destruct (previous_then_next _ _ Hvalid E) as (k & Hk & _).
    unfold canNavigateToNextChanged, findNextChanged, navigateToStep.
    cbn [selectedThreadFlowLocation].
    rewrite getCurrentStepIndex_nth by (exact Hnd || apply (readsAt_inside _ _ Hd)).
    rewrite Hk. reflexivity.
  - unfold canNavigateToNextChanged, navigateToNextChanged, findNextChanged.
    destruct (findNextChangedAt locs variable
                (getCurrentStepIndex locs (selectedThreadFlowLocation st)))
      as [[t|]|e] eqn:E; cbn [bind notNull]; try discriminate.
    intros _ [= <-].
    pose proof (findNextChangedAt_Some _ _ E) as (_ & Hr & _).
    destruct (next_then_previous _ _ Hvalid E) as (k & Hk & _).
    unfold canNavigateToPreviouslyChanged, findPreviouslyChanged, navigateToStep.
    cbn [selectedThreadFlowLocation].
    rewrite getCurrentStepIndex_nth by (exact Hnd || lia).
    rewrite Hk. reflexivity.
Qed.

End Navigating.

End NavigationExtras.

(** ** The projection and the states table *)

Section ProjectionExtras.

Context `{NumberModel} `{PrototypeModel}.

Lemma getProperty_In st k raw :
  getProperty st k = Some raw -> In (k, raw) st.
Proof.
  induction st as [|[k' raw'] st IH]; cbn [getProperty]; [discriminate|].
  destruct (strictEq k' k) eqn:E.
  - apply strictEq_true in E. intros [= ->]. left. congruence.
  - intros Hp. right. apply IH. exact Hp.
Qed.

Lemma In_getProperty st k raw :
  NoDup (map fst st) -> In (k, raw) st -> getProperty st k = Some raw.
Proof.
  induction st as [|[k' raw'] st IH]; cbn [getProperty map fst]; [intros _ []|].
  intros Hnd Hin. inversion Hnd as [|? ? Hnotin Hnd']; subst.
  destruct Hin as [[= -> ->] | Hin].
  - rewrite (proj2 (strictEq_true k k) eq_refl). reflexivity.
  - destruct (strictEq k' k) eqn:E; [|apply IH; assumption].
    apply strictEq_true in E. subst k'. exfalso. apply Hnotin.
    apply (in_map fst) in Hin. exact Hin.
Qed.

(** X8.  For a step whose state has distinct keys, the states table and
    [getVariableValue] agree on the keys of the state: the table has a row
    [(k, v)] exactly when [k] is a key of the state and [getVariableValue]
    gives [v] for it. *)
Theorem table_shows_what_navigation_reads (step : ThreadFlowLocation) st :
  state step = Some st ->
  NoDup (map fst st) ->
  forall k v,
    In {| key := k; value := v |} (statesTableStore (Some step))
    <-> In k (map fst st) /\ getVariableValue (Some step) k = Ret (Some v).
Proof.
  intros Hst Hnd k v. cbn [statesTableStore getVariableValue]. rewrite Hst.
  unfold Get. rewrite in_map_iff. split.
  - intros ([k' raw] & Heq & Hin). cbn [fst snd] in Heq.
    injection Heq as Hk Hv. subst k v. split.
    + apply (in_map fst) in Hin. exact Hin.
    + rewrite (In_getProperty st k' raw Hnd Hin). reflexivity.
  - intros [Hkey Hv]. apply in_map_iff in Hkey. destruct Hkey as ([k' raw] & Hk & Hin).
    cbn [fst] in Hk. subst k'.
    rewrite (In_getProperty st k raw Hnd Hin) in Hv.
    injection Hv as <-. exists (k, raw). split; [reflexivity | exact Hin].
Qed.


(** X10.  For a key of the state without [$], the value
    [getVariableValue] gives, and the states table shows, is the display
    text of the raw value with every [{expr}] replaced, literally, by the
    key in parentheses. *)
Theorem plain_key_replaces_literally (step : ThreadFlowLocation) st k raw :
  state step = Some st ->
  getProperty st k = Some raw ->
  hasDollar k = false ->
  getVariableValue (Some step) k
  = Ret (Some (replaceLiteralFrom (lit "(" ++ k ++ lit ")") 0 (displayText raw)))
  /\ In {| key := k;
           value := replaceLiteralFrom (lit "(" ++ k ++ lit ")") 0 (displayText raw) |}
        (statesTableStore (Some step)).
Proof.
  intros Hst Hraw Hd.
  assert (Hv : processedValue k raw
               = replaceLiteralFrom (lit "(" ++ k ++ lit ")") 0 (displayText raw)).
  { unfold processedValue, replaceExpr. apply replaceExprFrom_plain.
    unfold hasDollar in *. rewrite !existsb_app. rewrite Hd. reflexivity. }
  cbn [getVariableValue statesTableStore]. unfold Get. rewrite Hst, Hraw, Hv.
  split; [reflexivity|].
  apply in_map_iff. exists (k, raw). cbn [fst snd]. rewrite Hv.
  split; [reflexivity|]. apply getProperty_In. exact Hraw.
Qed.

Lemma replaceExprFrom_without template s :
  hasPlaceholder s = false ->
  forall before, replaceExprFrom template 0 before s = s.
Proof.
  induction s as [|c s IH]; intros Hno before; [reflexivity|].
  cbn [hasPlaceholder] in Hno. apply orb_false_iff in Hno. destruct Hno as [Hhere Hrest].
  cbn [replaceExprFrom]. rewrite Hhere. f_equal. apply IH. exact Hrest.
Qed.

(** X11.  A raw value whose display text has no [{expr}] is displayed as
    that text, whatever the key. *)
Theorem without_placeholder_unchanged k (raw : RawValue) :
  hasPlaceholder (displayText raw) = false ->
  processedValue k raw = displayText raw.
Proof.
  intros Hno. unfold processedValue, replaceExpr.
  apply replaceExprFrom_without. exact Hno.
Qed.

End ProjectionExtras.

(** ** The scanner *)

Lemma sweepFrom_chain k :
  Disjoint k ->
  forall bound, Forall (fun m => bound <= MatchInfo.index m) k -> sweepFrom bound k = k.
Proof.
  induction 1 as [|c k Hs IH Hafter]; intros bound Hfrom; [reflexivity|].
  inversion Hfrom as [|? ? Hc _]; subst. cbn [sweepFrom].
  replace (bound <=? MatchInfo.index c) with true by (symmetry; apply Nat.leb_le; exact Hc).
  f_equal. apply IH. exact Hafter.
Qed.

Lemma sweepFrom_from bound l :
  Forall (fun m => bound <= MatchInfo.index m) (sweepFrom bound l).
Proof.
  apply Forall_forall. intros k Hk. apply (sweepFrom_In _ _ _ Hk).
Qed.

(** X12.  The sweep that removes overlaps is idempotent, and it removes
    nothing from a list in which each match ends at or before the start of
    the later ones. *)
Theorem removeOverlaps_idempotent (matches : list MatchInfo.t) :
  removeOverlaps (removeOverlaps matches) = removeOverlaps matches
  /\ (Disjoint matches -> removeOverlaps matches = matches).
Proof.
  rewrite !removeOverlaps_sweep. split.
  - apply sweepFrom_chain; [apply sweepFrom_disjoint | apply sweepFrom_from].
  - intros Hdis. apply sweepFrom_chain; [exact Hdis|].
    apply Forall_forall. intros m _. lia.
Qed.

(** *** What the matches of each family are *)

Section LoopInvariant.

Variable text : jsstring.
Variable patternIndex : nat.
Variable pattern : regex.
Variable P : MatchInfo.t -> Prop.

Hypothesis pushed_P :
  forall s y ms,
    matcher text pattern (startAt s) (fun y => Some y) = Some y ->
    pushed text patternIndex s y = Ret ms ->
    Forall P ms.

Lemma whileExec_Forall :
  forall turns lastIndex ms,
    whileExec text patternIndex pattern turns lastIndex = Ret ms -> Forall P ms.
Proof.
  induction turns as [|turns IH]; intros lastIndex ms Hw; [discriminate|].
  cbn [whileExec] in Hw.
  destruct (exec text pattern lastIndex) as [[s y]|] eqn:E.
  2:{ injection Hw as <-. constructor. }
  apply exec_Some in E. destruct E as (_ & Hm & _ & _).
  apply bind_Ret in Hw. destruct Hw as (now & Hnow & Hw).
  apply bind_Ret in Hw. destruct Hw as (later & Hlater & [= <-]).
  apply Forall_app. split; [apply (pushed_P s y now Hm Hnow) | apply (IH _ _ Hlater)].
Qed.

End LoopInvariant.

Lemma pushed_group1_Lang text patternIndex r s y ms :
  (patternIndex =? 4) = false ->
  matcher text (Group 1 r) (startAt s) (fun y => Some y) = Some y ->
  pushed text patternIndex s y = Ret ms ->
  Forall (fun m => Lang text r (MatchInfo.index m) (endOf m)) ms.
Proof.
  intros Hidx Hm. apply group1_match in Hm. destruct Hm as [HL Hcap].
  pose proof (Lang_bounds text r s (endIndex y) HL) as Hb.
  unfold pushed, group. rewrite Hidx, Hcap. cbn [bind fst snd].
  destruct (truthy (substring text s (endIndex y))) eqn:Et; cbn [andb].
  2:{ intros [= <-]. constructor. }
  destruct (truthy (trim (substring text s (endIndex y)))).
  2:{ intros [= <-]. constructor. }
  intros [= <-]. constructor; [|constructor].
  assert (Hr : s <= endIndex y <= length text).
  { destruct (Nat.eq_dec s (endIndex y)) as [E | Hne]; [|lia].
    rewrite <- E in Et. rewrite substring_empty in Et. discriminate. }
  unfold endOf. cbn [MatchInfo.index MatchInfo.length].
  rewrite substring_length by exact Hr.
  replace (s + (endIndex y - s)) with (endIndex y) by lia. exact HL.
Qed.

Lemma pushed_bare_Lang text s y ms :
  matcher text pattern5 (startAt s) (fun y => Some y) = Some y ->
  pushed text 4 s y = Ret ms ->
  Forall (fun m =>
            Lang text bareToken (MatchInfo.index m) (endOf m)
            /\ (MatchInfo.index m = 0 \/ charAt text (MatchInfo.index m - 1) isBoundary)
            /\ (endOf m = length text \/ charAt text (endOf m) isBoundary)) ms.
Proof.
  intros Hm Hp. apply pushed_bare in Hm.
  destruct Hm as (j & t & Hl & Htok & Hr & Hpushed).
  rewrite Hpushed in Hp. injection Hp as <-. constructor; [|constructor].
  pose proof (Lang_bounds text _ _ _ Htok) as Hb.
  unfold endOf. cbn [MatchInfo.index MatchInfo.length].
  replace (j + (t - j)) with t by lia.
  split; [exact Htok|]. split.
  - apply Lang_leftBoundary in Hl. destruct Hl as [[-> ->] | [Hc ->]]; [left; reflexivity|].
    right. replace (S s - 1) with s by lia. exact Hc.
  - apply Lang_rightBoundary in Hr. destruct Hr as [[Hend _] | [Hc _]]; [left | right];
      assumption.
Qed.

(** The matches of each family are matches of its token pattern. *)
Lemma rawMatches_Lang text p ms :
  p < 5 ->
  rawMatches text p = Ret ms ->
  Forall (fun m => Lang text (tokenPattern p) (MatchInfo.index m) (endOf m)) ms.
Proof.
  intros Hp. unfold rawMatches, patternMatches.
  destruct p as [|[|[|[|[|p]]]]]; [| | | | |lia]; cbn [nth patterns]; intros Hw.
  1-4: eapply whileExec_Forall; [|exact Hw];
       intros s y now Hm Hnow;
       eapply pushed_group1_Lang; [| exact Hm | exact Hnow]; reflexivity.
  assert (Hall : Forall (fun m =>
            Lang text bareToken (MatchInfo.index m) (endOf m)
            /\ (MatchInfo.index m = 0 \/ charAt text (MatchInfo.index m - 1) isBoundary)
            /\ (endOf m = length text \/ charAt text (endOf m) isBoundary)) ms).
  { eapply whileExec_Forall; [|exact Hw].
    intros s y now Hm Hnow. apply (pushed_bare_Lang _ _ _ _ Hm Hnow). }
  eapply Forall_impl; [|exact Hall].
  intros m Hm. exact (proj1 Hm).
Qed.

(** X13.  Every token the scan keeps is, in full, a match of one of the five
    token patterns: at its range, the text is in the language of the group
    of one of the patterns 1 to 4 or of the identifier group of pattern 5. *)
Theorem tokens_are_pattern_matches (text : jsstring) :
  exists kept,
    uniqueMatchesOf text = Ret kept
    /\ forall m, In m kept ->
         exists p, p < 5
                   /\ Lang text (tokenPattern p) (MatchInfo.index m)
                        (MatchInfo.index m + MatchInfo.length m).
Proof.
  destruct (scan_families text) as (fams & kept & Hlen & Hraw & Hu & -> & Hwf & Hdis).
  eexists. split; [exact Hu|]. intros m Hm.
  apply sweepFrom_In in Hm. destruct Hm as [Hm _].
  apply (Permutation_in m (Permutation_sym (sortMatches_perm _))) in Hm.
  apply In_family in Hm. destruct Hm as (p & Hp & Hin).
  exists p. split; [lia|].
  pose proof (rawMatches_Lang text p _ ltac:(lia) (Hraw p ltac:(lia))) as Hall.
  rewrite Forall_forall in Hall. apply (Hall m Hin).
Qed.

(** X14.  A bare-identifier match is never part of a longer word or of a
    dotted name: it is an identifier with an optional subscript, it starts
    the text or follows a code unit outside [[a-zA-Z0-9_.]], and it ends the
    text or is followed by such a code unit. *)
Theorem bare_matches_are_bounded (text : jsstring) :
  exists bare,
    rawMatches text 4 = Ret bare
    /\ forall m, In m bare ->
         Lang text bareToken (MatchInfo.index m) (MatchInfo.index m + MatchInfo.length m)
         /\ (MatchInfo.index m = 0 \/ charAt text (MatchInfo.index m - 1) isBoundary)
         /\ (MatchInfo.index m + MatchInfo.length m = length text
             \/ charAt text (MatchInfo.index m + MatchInfo.length m) isBoundary).
Proof.
  destruct (rawMatches_returns text 4) as (bare & Hraw & _); [lia|].
  exists bare. split; [exact Hraw|].
  unfold rawMatches, patternMatches in Hraw. cbn [nth patterns] in Hraw.
  assert (Hall : Forall (fun m =>
            Lang text bareToken (MatchInfo.index m) (endOf m)
            /\ (MatchInfo.index m = 0 \/ charAt text (MatchInfo.index m - 1) isBoundary)
            /\ (endOf m = length text \/ charAt text (endOf m) isBoundary)) bare).
  { eapply whileExec_Forall; [|exact Hraw].
    intros s y now Hm Hnow. apply (pushed_bare_Lang _ _ _ _ Hm Hnow). }
  rewrite Forall_forall in Hall. exact Hall.
Qed.

(** A token starts with a letter, an underscore or an opening brace. *)
Lemma Lang_token_start text p i j :
  p < 5 ->
  Lang text (tokenPattern p) i j ->
  exists c, nth_error text i = Some c /\ (isIdentStart c = true \/ c = openBrace).
Proof.
  intros Hp.
  destruct p as [|[|[|[|[|p]]]]]; [| | | | |lia];
    unfold tokenPattern, patterns, pattern1, pattern2, pattern3, pattern4, pattern5;
    cbn [nth Lang].
  - intros (u & Hid & _). apply Lang_identifier in Hid.
    destruct Hid as (_ & (c & Hc & Hs) & _). exists c. auto.
  - intros (u & Hid & _). apply Lang_identifier in Hid.
    destruct Hid as (_ & (c & Hc & Hs) & _). exists c. auto.
  - intros (u & [Hc _] & _). eexists. split; [exact Hc|]. left. reflexivity.
  - intros (u & [Hc _] & _). eexists. split; [exact Hc|]. right. reflexivity.
  - intros (u & Hid & _). apply Lang_identifier in Hid.
    destruct Hid as (_ & (c & Hc & Hs) & _). exists c. auto.
Qed.

(** A match of one of the patterns 1 to 4 has a code unit that is not a
    letter, a digit or an underscore. *)
Lemma Lang_family_other text p i j :
  p < 4 ->
  Lang text (tokenPattern p) i j ->
  exists k c, nth_error text k = Some c /\ isIdentChar c = false.
Proof.
  intros Hp.
  destruct p as [|[|[|[|p]]]]; [| | | |lia];
    unfold tokenPattern, patterns, pattern1, pattern2, pattern3, pattern4;
    cbn [nth Lang].
  - intros (u & _ & u2 & (m & (m' & [Hc _] & _) & _) & _).
    eexists _, _. split; [exact Hc | reflexivity].
  - intros (u & _ & u2 & (m & (m' & [Hc _] & _) & _) & _).
    eexists _, _. split; [exact Hc | reflexivity].
  - intros (u1 & _ & u2 & _ & u3 & _ & u4 & _ & u5 & _ & u6 & _ & u7 & [Hc _] & _).
    eexists _, _. split; [exact Hc | reflexivity].
  - intros (u & [Hc _] & _). eexists _, _. split; [exact Hc | reflexivity].
Qed.

Lemma no_elements {A} (l : list A) : (forall a, ~ In a l) -> l = [].
Proof. destruct l as [|a l]; [reflexivity|]. intros Hn. destruct (Hn a). left. reflexivity. Qed.

Lemma renderVariableName_empty text :
  uniqueMatchesOf text = Ret [] -> renderVariableName text = Ret (Unchanged text).
Proof.
  intros Hu. unfold renderVariableName. rewrite Hu. cbn [bind buildParts fold_left length].
  destruct (0 <? length text); reflexivity.
Qed.

(** X15.  A text without a letter, an underscore or an opening brace has no
    token: the scan keeps nothing and the text is rendered as it is. *)
Theorem no_candidate_no_token (text : jsstring) :
  (forall c, In c text -> isIdentStart c = false /\ c <> openBrace) ->
  uniqueMatchesOf text = Ret []
  /\ renderVariableName text = Ret (Unchanged text).
Proof.
  intros Hnone.
  destruct (scan_families text) as (fams & kept & Hlen & Hraw & Hu & Hk & Hwf & Hdis).
  assert (Hempty : concat fams = []).
  { apply no_elements. intros m Hm.
    apply In_family in Hm. destruct Hm as (p & Hp & Hin).
    pose proof (rawMatches_Lang text p _ ltac:(lia) (Hraw p ltac:(lia))) as Hall.
    rewrite Forall_forall in Hall.
    destruct (Lang_token_start text p _ _ ltac:(lia) (Hall m Hin)) as (c & Hc & Hstart).
    apply nth_error_In in Hc. destruct (Hnone c Hc) as [Hs Hb].
    destruct Hstart as [Hs' | Hb']; [congruence | tauto]. }
  rewrite Hempty in Hk. cbn [sortMatches sweepFrom] in Hk. subst kept.
  split; [exact Hu | apply renderVariableName_empty; exact Hu].
Qed.

(** *** The shape of the rendering *)

Lemma spansOf_snoc parts p : spansOf (parts ++ [p]) = spansOf parts ++ spansOf [p].
Proof. unfold spansOf. apply flat_map_app. Qed.

Lemma substring_nonempty text a b :
  a < b <= length text -> substring text a b <> [].
Proof.
  intros Hr E. apply (f_equal (@length _)) in E.
  rewrite substring_length in E by lia. cbn [length] in E. lia.
Qed.

Lemma match_nonempty text m : WellFormed text m -> MatchInfo.match_ m <> [].
Proof.
  intros (Htext & Hend & Hpos). rewrite Htext. apply substring_nonempty.
  unfold endOf in *. lia.
Qed.

Lemma buildParts_shape text kept :
  Forall (WellFormed text) kept ->
  forall parts lastIndex,
    Forall (fun p => partText p <> []) parts ->
    exists parts' lastIndex',
      fold_left (addParts text) kept (parts, lastIndex) = (parts', lastIndex')
      /\ spansOf parts' = spansOf parts ++ map MatchInfo.match_ kept
      /\ Forall (fun p => partText p <> []) parts'.
Proof.
  induction 1 as [|m kept Hm Hwf IH]; intros parts lastIndex Hparts.
  - exists parts, lastIndex. cbn [fold_left map]. rewrite app_nil_r. auto.
  - cbn [fold_left]. unfold addParts at 2.
    assert (Hgap : Forall (fun p => partText p <> [])
                     (if lastIndex <? MatchInfo.index m
                      then parts ++ [PlainText (substring text lastIndex (MatchInfo.index m))]
                      else parts)
                   /\ spansOf (if lastIndex <? MatchInfo.index m
                               then parts ++ [PlainText (substring text lastIndex (MatchInfo.index m))]
                               else parts) = spansOf parts).
    { destruct (lastIndex <? MatchInfo.index m) eqn:E; [|auto].
      apply Nat.ltb_lt in E. split.
      - apply Forall_app. split; [exact Hparts|]. constructor; [|constructor].
        cbn [partText]. apply substring_nonempty.
        destruct Hm as (_ & Hend & _). unfold endOf in Hend. lia.
      - rewrite spansOf_snoc. cbn. apply app_nil_r. }
    destruct Hgap as [Hgap Hspans].
    destruct (IH ((if lastIndex <? MatchInfo.index m
                   then parts ++ [PlainText (substring text lastIndex (MatchInfo.index m))]
                   else parts) ++ [VariableSpan (MatchInfo.match_ m)])
                 (MatchInfo.index m + MatchInfo.length m))
      as (parts' & lastIndex' & Hfold & Hsp & Hne).
    { apply Forall_app. split; [exact Hgap|]. constructor; [|constructor].
      cbn [partText]. apply (match_nonempty text m Hm). }
    exists parts', lastIndex'. split; [exact Hfold|]. split; [|exact Hne].
    rewrite Hsp, spansOf_snoc, Hspans. cbn [map]. rewrite <- app_assoc. reflexivity.
Qed.

(** X16.  The rendering is the text itself exactly when no token is kept.
    Otherwise it is a fragment whose variable spans are the kept tokens, in
    order, and none of whose parts is empty. *)
Theorem rendering_shape (text : jsstring) :
  exists kept rendered,
    uniqueMatchesOf text = Ret kept
    /\ renderVariableName text = Ret rendered
    /\ match rendered with
       | Unchanged t => t = text /\ kept = []
       | Fragment parts =>
           kept <> []
           /\ spansOf parts = map MatchInfo.match_ kept
           /\ Forall (fun p => partText p <> []) parts
       end.
Proof.
  destruct (uniqueMatchesOf_returns text) as (matches & Hc & Hwf & Hu).
  pose proof (kept_well_formed text matches Hwf) as Hkwf.
  set (kept := sweepFrom 0 (sortMatches matches)) in *.
  destruct (buildParts_shape text kept Hkwf [] 0 (Forall_nil _))
    as (parts & lastIndex & Hfold & Hsp & Hne).
  unfold renderVariableName. rewrite Hu. cbn [bind]. unfold buildParts. rewrite Hfold.
  eexists kept, _. split; [reflexivity|]. split; [reflexivity|].
  destruct kept as [|m kept'] eqn:Ek.
  - change (0 <? length (@nil MatchInfo.t)) with false. cbv beta iota zeta. auto.
  - change (0 <? length (m :: kept')) with true. cbv beta iota zeta.
    destruct (lastIndex <? length text) eqn:E; cbv beta iota zeta;
      (split; [discriminate|]).
    + split.
      * rewrite spansOf_snoc. cbn [spansOf flat_map]. rewrite app_nil_r. exact Hsp.
      * apply Forall_app. split; [exact Hne|]. constructor; [|constructor].
        cbn [partText]. apply Nat.ltb_lt in E. intros Hnil.
        apply (f_equal (@length _)) in Hnil. rewrite length_skipn in Hnil.
        cbn [length] in Hnil. lia.
    + split; [exact Hsp | exact Hne].
Qed.

(** *** A text that is one identifier *)

Lemma substring_all (text : jsstring) : substring text 0 (length text) = text.
Proof. unfold substring. rewrite Nat.sub_0_r. cbn [skipn]. apply firstn_all. Qed.

Lemma Disjoint_same_start text ms m m' :
  Forall (WellFormed text) ms -> Disjoint ms ->
  In m ms -> In m' ms ->
  MatchInfo.index m = MatchInfo.index m' -> m = m'.
Proof.
  intros Hwf Hdis. revert m m'.
  induction Hdis as [|k ms Hdis IH Hafter]; intros m m' Hm Hm' Hidx; [destruct Hm|].
  inversion Hwf as [|? ? Hk Hwf']; subst.
  rewrite Forall_forall in Hafter.
  destruct Hm as [<- | Hm], Hm' as [<- | Hm'].
  - reflexivity.
  - exfalso. specialize (Hafter m' Hm'). destruct Hk as (_ & _ & Hpos).
    unfold endOf in Hafter. lia.
  - exfalso. specialize (Hafter m Hm). destruct Hk as (_ & _ & Hpos).
    unfold endOf in Hafter. lia.
  - apply IH; assumption.
Qed.

Lemma only_element {A} (l : list A) a :
  NoDup l -> In a l -> (forall b, In b l -> b = a) -> l = [a].
Proof.
  intros Hnd Ha Hall. destruct l as [|x l]; [destruct Ha|].
  assert (x = a) by (apply Hall; left; reflexivity). subst x.
  destruct l as [|y l]; [reflexivity|]. exfalso.
  assert (y = a) by (apply Hall; right; left; reflexivity). subst y.
  inversion Hnd as [|? ? Hnotin _]; subst. apply Hnotin. left. reflexivity.
Qed.

Lemma Disjoint_NoDup text ms :
  Forall (WellFormed text) ms -> Disjoint ms -> NoDup ms.
Proof.
  intros Hwf Hdis. induction Hdis as [|k ms Hdis IH Hafter]; [constructor|].
  inversion Hwf as [|? ? Hk Hwf']; subst. constructor; [|apply IH; exact Hwf'].
  intros Hin. rewrite Forall_forall in Hafter. specialize (Hafter k Hin).
  destruct Hk as (_ & _ & Hpos). unfold endOf in Hafter. lia.
Qed.

(** X17.  A text that is one identifier, letters, digits and underscores
    not starting with a digit, is one token: the scan keeps exactly the
    whole text, at offset 0, and the rendering is one variable span. *)
Theorem identifier_is_one_token (text : jsstring) :
  IdentifierRun text 0 (length text) ->
  uniqueMatchesOf text = Ret [token text 0]
  /\ renderVariableName text = Ret (Fragment [VariableSpan text]).
Proof.
  intros Hrun.
  assert (Hright : BoundedRight text (length text)) by (left; reflexivity).
  assert (Hchars : forall k c, nth_error text k = Some c -> isIdentChar c = true).
  { intros k c Hc.
    assert (Hk : k < length text) by (apply nth_error_Some; congruence).
    destruct (run_identChar text 0 (length text) Hrun k ltac:(lia)) as (c' & Hc' & Hid).
    congruence. }
  assert (Hnob : forall k, ~ charAt text k isBoundary).
  { intros k (c & Hc & Hb). apply (identChar_not_boundary c (Hchars k c Hc) Hb). }
  destruct (scan_families text) as (fams & kept & Hlen & Hraw & Hu & Hk & Hwf & Hdis).
  assert (Hempty : forall p, p < 4 -> nth p fams [] = []).
  { intros p Hp. apply no_elements. intros m Hm.
    pose proof (rawMatches_Lang text p _ ltac:(lia) (Hraw p ltac:(lia))) as Hall.
    rewrite Forall_forall in Hall.
    destruct (Lang_family_other text p _ _ Hp (Hall m Hm)) as (k & c & Hc & Hno).
    rewrite (Hchars k c Hc) in Hno. discriminate. }
  pose proof (Hraw 4 (Nat.lt_succ_diag_r 4)) as H4.
  assert (H4wf : Forall (WellFormed text) (nth 4 fams [])).
  { rewrite Forall_forall in Hwf. apply Hwf. apply nth_In. lia. }
  assert (H4dis : Disjoint (nth 4 fams [])).
  { rewrite Forall_forall in Hdis. apply Hdis. apply nth_In. lia. }
  assert (Hone : nth 4 fams [] = [token text 0]).
  { assert (Hstart : forall m, In m (nth 4 fams []) -> MatchInfo.index m = 0).
    { intros m Hm. unfold rawMatches, patternMatches in H4. cbn [nth patterns] in H4.
      assert (Hall : Forall (fun m =>
                Lang text bareToken (MatchInfo.index m) (endOf m)
                /\ (MatchInfo.index m = 0 \/ charAt text (MatchInfo.index m - 1) isBoundary)
                /\ (endOf m = length text \/ charAt text (endOf m) isBoundary))
                (nth 4 fams [])).
      { eapply whileExec_Forall; [|exact H4].
        intros s y now Hmatch Hnow. apply (pushed_bare_Lang _ _ _ _ Hmatch Hnow). }
      rewrite Forall_forall in Hall.
      destruct (Hall m Hm) as (_ & [H0 | Hb] & _); [exact H0|].
      destruct (Hnob _ Hb). }
    assert (Hin : In (token text 0) (nth 4 fams [])).
    { pose proof H4 as H4'.
      unfold rawMatches, patternMatches in H4'. cbn [nth patterns] in H4'.
      destruct (scan_reaches_run text 0 (length text) Hrun Hright _ _ _ H4')
        as (m & Hm & Hidx & Hcover & _); [lia | left; reflexivity |].
      rewrite Forall_forall in H4wf. destruct (H4wf m Hm) as (Htext & Hend & Hpos).
      assert (He : endOf m = length text) by lia.
      rewrite He, Hidx, substring_all in Htext.
      assert (Hm0 : m = token text 0).
      { destruct m as [s i l]. unfold endOf in He.
        cbn [MatchInfo.match_ MatchInfo.index MatchInfo.length] in *.
        subst. unfold token. f_equal. lia. }
      rewrite <- Hm0. exact Hm. }
    apply only_element; [apply (Disjoint_NoDup text); assumption | exact Hin |].
    intros b Hb. apply (Disjoint_same_start text (nth 4 fams [])); try assumption.
    rewrite (Hstart b Hb). reflexivity. }
  assert (Hcat : concat fams = [token text 0]).
  { destruct fams as [|f0 [|f1 [|f2 [|f3 [|f4 [|f5 rest]]]]]]; try discriminate Hlen.
    pose proof (Hempty 0 ltac:(lia)) as E0. pose proof (Hempty 1 ltac:(lia)) as E1.
    pose proof (Hempty 2 ltac:(lia)) as E2. pose proof (Hempty 3 ltac:(lia)) as E3.
    cbn [nth] in E0, E1, E2, E3, Hone. subst. reflexivity. }
  rewrite Hcat in Hk. cbn in Hk. subst kept.
  split; [exact Hu|].
  unfold renderVariableName. rewrite Hu. cbn [bind]. unfold buildParts.
  cbn [fold_left addParts token MatchInfo.index MatchInfo.match_ MatchInfo.length].
  cbn [Nat.add app].
  change (0 <? 0) with false. change (0 <? length [token text 0]) with true.
  rewrite Nat.ltb_irrefl. reflexivity.
Qed.

(** ** The link of a GitHub alert *)

Lemma StringIndexOf_cons c s pat :
  StringIndexOf (c :: s) pat
  = if startsWith pat (c :: s) then Some 0 else option_map S (StringIndexOf s pat).
Proof. reflexivity. Qed.

Lemma StringIndexOf_miss c s pat :
  startsWith pat (c :: s) = false ->
  StringIndexOf (c :: s) pat = option_map S (StringIndexOf s pat).
Proof. intros E. rewrite StringIndexOf_cons, E. reflexivity. Qed.

(** The search passes over a word without a slash when the pattern starts
    with one. *)
Lemma StringIndexOf_skip w t pat :
  ~ In slash w ->
  StringIndexOf (w ++ t) (slash :: pat)
  = option_map (Nat.add (length w)) (StringIndexOf t (slash :: pat)).
Proof.
  induction w as [|a w IH]; intros Hno.
  - cbn [app length]. destruct (StringIndexOf t (slash :: pat)); reflexivity.
  - cbn [app length]. rewrite StringIndexOf_cons. cbn [startsWith].
    assert (Ha : N.eqb slash a = false).
    { apply N.eqb_neq. intros E. apply Hno. left. symmetry. exact E. }
    rewrite Ha. cbn [andb]. rewrite IH by (intros Hin; apply Hno; right; exact Hin).
    destruct (StringIndexOf t (slash :: pat)); reflexivity.
Qed.

Lemma strictEq_cons a c (x o : jsstring) :
  strictEq (c :: o) (a :: x) = N.eqb a c && strictEq o x.
Proof.
  destruct (N.eqb a c) eqn:E; cbn [andb].
  - apply N.eqb_eq in E. subst c. destruct (strictEq o x) eqn:Eo.
    + apply strictEq_true in Eo. subst. apply strictEq_true. reflexivity.
    + apply strictEq_false in Eo. apply strictEq_false. congruence.
  - apply N.eqb_neq in E. apply strictEq_false. congruence.
Qed.

(** Two words up to a slash: the first starts the second when the words
    are equal and what follows starts what follows. *)
Lemma startsWith_word x o y r :
  ~ In slash x -> ~ In slash o ->
  startsWith (x ++ slash :: y) (o ++ slash :: r) = strictEq o x && startsWith y r.
Proof.
  revert o. induction x as [|a x IH]; intros o Hx Ho.
  - destruct o as [|c o]; cbn [app startsWith].
    + rewrite N.eqb_refl. reflexivity.
    + assert (Hc : N.eqb slash c = false).
      { apply N.eqb_neq. intros E. apply Ho. left. symmetry. exact E. }
      rewrite Hc. reflexivity.
  - assert (Ha : N.eqb a slash = false).
    { apply N.eqb_neq. intros E. apply Hx. left. exact E. }
    destruct o as [|c o]; cbn [app startsWith].
    + rewrite Ha. reflexivity.
    + rewrite strictEq_cons, IH; [apply andb_assoc | |].
      * intros Hin. apply Hx. right. exact Hin.
      * intros Hin. apply Ho. right. exact Hin.
Qed.

Lemma startsWith_before y r t :
  ~ In slash y -> startsWith y (r ++ slash :: t) = startsWith y r.
Proof.
  revert r. induction y as [|a y IH]; intros r Hy; [reflexivity|].
  assert (Ha : N.eqb a slash = false).
  { apply N.eqb_neq. intros E. apply Hy. left. exact E. }
  destruct r as [|c r]; cbn [app startsWith].
  - rewrite Ha. reflexivity.
  - rewrite IH; [reflexivity|]. intros Hin. apply Hy. right. exact Hin.
Qed.

Lemma startsWith_split p s :
  startsWith p s = true -> s = p ++ skipn (length p) s.
Proof.
  revert s. induction p as [|a p IH]; intros s; [reflexivity|].
  destruct s as [|c s]; cbn [startsWith]; [discriminate|].
  intros E. apply andb_true_iff in E. destruct E as [Ec Es].
  apply N.eqb_eq in Ec. subst c. cbn [length skipn app]. f_equal. apply IH. exact Es.
Qed.

Lemma startsWith_app p s : startsWith p (p ++ s) = true.
Proof.
  induction p as [|a p IH]; [reflexivity|]. cbn [app startsWith].
  rewrite N.eqb_refl. exact IH.
Qed.

(** A replacement without [$] put where the search finds the pattern. *)
Lemma String_replace_found pre pat rep post :
  StringIndexOf (pre ++ pat ++ post) pat = Some (length pre) ->
  hasDollar rep = false ->
  String_replace (pre ++ pat ++ post) pat rep = pre ++ rep ++ post.
Proof.
  intros Hfound Hd. unfold String_replace. rewrite Hfound. cbv zeta.
  rewrite GetSubstitution_plain by exact Hd.
  rewrite firstn_app, firstn_all, Nat.sub_diag. cbn [firstn]. rewrite app_nil_r.
  f_equal. f_equal.
  rewrite skipn_app, skipn_all2 by lia. cbn [app].
  replace (length pre + length pat - length pre) with (length pat) by lia.
  rewrite skipn_app, skipn_all, Nat.sub_diag. reflexivity.
Qed.

(** X18.  The link of an alert.  For the address of an alert of the
    repository [owner/repo] on the API host, the link is the address of the
    alert on the site, unless the owner is called [code-scanning] and the
    name of the repository starts with [alerts]: the second [replace] then
    rewrites the names of the owner and the repository instead of the path
    of the alert. *)
Theorem alert_link (owner repo rest : jsstring) :
  ~ In slash owner -> ~ In slash repo ->
  alertHref (lit "https://api.github.com/repos/" ++ owner ++ lit "/" ++ repo
             ++ lit "/code-scanning/alerts/" ++ rest)
  = if strictEq owner (lit "code-scanning") && startsWith (lit "alerts") repo
    then lit "https://github.com/security/code-scanning" ++ skipn 6 repo
         ++ lit "/code-scanning/alerts/" ++ rest
    else lit "https://github.com/" ++ owner ++ lit "/" ++ repo
         ++ lit "/security/code-scanning/" ++ rest.
Proof.
  intros Howner Hrepo. unfold alertHref.
  set (tail := lit "code-scanning" ++ slash :: lit "alerts").
  assert (Hfirst :
    String_replace (lit "https://api.github.com/repos/" ++ owner ++ lit "/" ++ repo
                    ++ lit "/code-scanning/alerts/" ++ rest)
      (lit "api.github.com/repos") (lit "github.com")
    = lit "https:" ++ slash :: slash :: lit "github.com"
      ++ slash :: owner ++ slash :: repo ++ slash :: tail ++ slash :: rest).
  { subst tail. vm_compute. reflexivity. }
  rewrite Hfirst. clear Hfirst.
  assert (Hword1 : ~ In slash (lit "https:")).
  { intros Hin. vm_compute in Hin. repeat (destruct Hin as [Hin | Hin]; [discriminate Hin|]).
    exact Hin. }
  assert (Hword2 : ~ In slash (lit "github.com")).
  { intros Hin. vm_compute in Hin. repeat (destruct Hin as [Hin | Hin]; [discriminate Hin|]).
    exact Hin. }
  assert (Hword3 : ~ In slash (lit "code-scanning")).
  { intros Hin. vm_compute in Hin. repeat (destruct Hin as [Hin | Hin]; [discriminate Hin|]).
    exact Hin. }
  assert (Hword4 : ~ In slash (lit "alerts")).
  { intros Hin. vm_compute in Hin. repeat (destruct Hin as [Hin | Hin]; [discriminate Hin|]).
    exact Hin. }
  change (lit "/code-scanning/alerts") with (slash :: tail).
  assert (Hat : startsWith (slash :: tail)
                  (slash :: owner ++ slash :: repo ++ slash :: tail ++ slash :: rest)
                = strictEq owner (lit "code-scanning") && startsWith (lit "alerts") repo).
  { cbn [startsWith]. rewrite N.eqb_refl. cbn [andb]. subst tail.
    rewrite startsWith_word by assumption.
    rewrite startsWith_before by assumption. reflexivity. }
  assert (Hindex :
    StringIndexOf (lit "https:" ++ slash :: slash :: lit "github.com"
                   ++ slash :: owner ++ slash :: repo ++ slash :: tail ++ slash :: rest)
      (slash :: tail)
    = if strictEq owner (lit "code-scanning") && startsWith (lit "alerts") repo
      then Some 18
      else Some (19 + length owner + 1 + length repo)).
  { rewrite StringIndexOf_skip by exact Hword1.
    rewrite StringIndexOf_miss by (subst tail; reflexivity).
    rewrite StringIndexOf_miss by (subst tail; reflexivity).
    rewrite StringIndexOf_skip by exact Hword2.
    rewrite StringIndexOf_cons, Hat.
    destruct (strictEq owner (lit "code-scanning") && startsWith (lit "alerts") repo);
      [reflexivity|].
    rewrite StringIndexOf_skip by exact Howner.
    rewrite StringIndexOf_cons.
    assert (Hrepo_at : startsWith (slash :: tail)
                         (slash :: repo ++ slash :: tail ++ slash :: rest) = false).
    { cbn [startsWith]. rewrite N.eqb_refl. cbn [andb]. subst tail.
      rewrite startsWith_word by assumption.
      match goal with |- _ && ?t = false => change t with false end.
      apply andb_false_r. }
    rewrite Hrepo_at.
    rewrite StringIndexOf_skip by exact Hrepo.
    rewrite StringIndexOf_cons.
    replace (slash :: tail ++ slash :: rest) with ((slash :: tail) ++ slash :: rest)
      by reflexivity.
    rewrite startsWith_app.
    cbn [option_map]. f_equal. change (length (lit "https:")) with 6.
    change (length (lit "github.com")) with 10. lia. }
  destruct (strictEq owner (lit "code-scanning")) eqn:Eowner; cbn [andb] in *.
  - destruct (startsWith (lit "alerts") repo) eqn:Erepo.
    + apply strictEq_true in Eowner. subst owner.
      apply startsWith_split in Erepo. change (length (lit "alerts")) with 6 in Erepo.
      set (r := skipn 6 repo) in *. rewrite Erepo in *. clear Erepo.
      change (lit "https:" ++ slash :: slash :: lit "github.com"
              ++ slash :: lit "code-scanning" ++ slash :: (lit "alerts" ++ r)
              ++ slash :: tail ++ slash :: rest)
        with (lit "https://github.com" ++ (slash :: tail)
              ++ (r ++ slash :: tail ++ slash :: rest)) in *.
      rewrite String_replace_found; [| exact Hindex | reflexivity].
      subst tail. vm_compute. reflexivity.
    + replace (lit "https:" ++ slash :: slash :: lit "github.com"
               ++ slash :: owner ++ slash :: repo ++ slash :: tail ++ slash :: rest)
        with ((lit "https://github.com/" ++ owner ++ slash :: repo) ++ (slash :: tail)
              ++ (slash :: rest)) in *
        by (rewrite <- !app_assoc; reflexivity).
      rewrite String_replace_found; [| | reflexivity].
      * rewrite <- !app_assoc. reflexivity.
      * rewrite Hindex. f_equal. rewrite !length_app. cbn [length].
        change (length (lit "https://github.com/")) with 19. lia.
  - replace (lit "https:" ++ slash :: slash :: lit "github.com"
             ++ slash :: owner ++ slash :: repo ++ slash :: tail ++ slash :: rest)
      with ((lit "https://github.com/" ++ owner ++ slash :: repo) ++ (slash :: tail)
            ++ (slash :: rest)) in *
      by (rewrite <- !app_assoc; reflexivity).
    rewrite String_replace_found; [| | reflexivity].
    + rewrite <- !app_assoc. reflexivity.
    + rewrite Hindex. f_equal. rewrite !length_app. cbn [length].
      change (length (lit "https://github.com/")) with 19. lia.
Qed.
(** ** The theorems at concrete inputs *)

#[local] Existing Instance integerNumbers.
#[local] Existing Instance v8ObjectPrototype.

(** C2, at its inputs.  Scenario 2 holds: from index 3 the answer for [ptr]
    is 2.  But the variable is looked up with [state[variable]], which also
    finds the names a state inherits.  In [shadowTimeline] with its last
    step selected, [constructor] is no key of the selected state, whose only
    entry is [x]; a value is read for it all the same, the function
    [Object] as it prints, and the answer is 1 instead of not-found. *)
Theorem findPreviouslyChanged_at_inherited_name :
  findPreviouslyChanged scenario2 (lit "ptr") (nth_error scenario2 3) = Ret (Some 2)
  /\ statesTableStore (nth_error shadowTimeline 2)
     = [ {| key := lit "x"; value := lit "1" |} ]
  /\ getVariableValue (nth_error shadowTimeline 2) (lit "constructor")
     = Ret (Some (lit "function Object() { [native code] }"))
  /\ findPreviouslyChanged shadowTimeline (lit "constructor") (nth_error shadowTimeline 2)
     = Ret (Some 1).
Proof. repeat split; reflexivity. Qed.

(** C3, at its inputs.  In scenario 2 the last change of [ptr] is at step
    3, and where the differing step is followed by an empty state the answer
    is not-found.  But in [shadowTimeline] the final state has no key
    [constructor], its only entry is [x], and the answer for [constructor]
    is 2 instead of not-found: the inherited function is read as the final
    value, and the step that has the key differs from it. *)
Theorem findLastChanged_at_inherited_name :
  findLastChanged scenario2 (lit "ptr") = Ret (Some 3)
  /\ findLastChanged gapTimeline (lit "ptr") = Ret None
  /\ statesTableStore (nth_error shadowTimeline 2)
     = [ {| key := lit "x"; value := lit "1" |} ]
  /\ findLastChanged shadowTimeline (lit "constructor") = Ret (Some 2).
Proof. repeat split; reflexivity. Qed.

(** C8, at its inputs.  In [shadowTimeline] with the second step selected,
    the two relative queries for [constructor] answer 0 and 2: steps whose
    states have the one entry [x] and nothing for [constructor]. *)
Theorem changed_index_at_inherited_name :
  findPreviouslyChanged shadowTimeline (lit "constructor") (nth_error shadowTimeline 1)
  = Ret (Some 0)
  /\ findNextChanged shadowTimeline (lit "constructor") (nth_error shadowTimeline 1)
     = Ret (Some 2)
  /\ statesTableStore (nth_error shadowTimeline 0)
     = [ {| key := lit "x"; value := lit "1" |} ]
  /\ statesTableStore (nth_error shadowTimeline 2)
     = [ {| key := lit "x"; value := lit "1" |} ].
Proof. repeat split; reflexivity. Qed.

(** C10, at its inputs.  The four queries never throw, whatever the host,
    the timeline, the variable and the selection.  But for a variable that
    is no key of the states they read, they do not all answer not-found:
    in scenario 2, where no state has a key [constructor],
    [findInitialized] answers 0; in [shadowTimeline], where only the second
    step has it, the relative queries from the last and from the first step
    answer 1, and [findLastChanged] answers 2. *)
Theorem navigation_at_inherited_name :
  (forall (numbers : NumberModel) (prototype : PrototypeModel)
          (locs : list ThreadFlowLocation) (variable : jsstring)
          (selected : option ThreadFlowLocation),
      (exists r, @findInitialized numbers prototype locs variable = Ret r)
      /\ (exists r, @findPreviouslyChanged numbers prototype locs variable selected = Ret r)
      /\ (exists r, @findNextChanged numbers prototype locs variable selected = Ret r)
      /\ (exists r, @findLastChanged numbers prototype locs variable = Ret r))
  /\ findInitialized scenario2 (lit "constructor") = Ret (Some 0)
  /\ findPreviouslyChanged shadowTimeline (lit "constructor") (nth_error shadowTimeline 2)
     = Ret (Some 1)
  /\ findNextChanged shadowTimeline (lit "constructor") (nth_error shadowTimeline 0)
     = Ret (Some 1)
  /\ findLastChanged shadowTimeline (lit "constructor") = Ret (Some 2).
Proof.
  split; [|repeat split; reflexivity].
  intros numbers prototype locs variable selected.
  apply (@queries_return numbers prototype locs variable selected).
Qed.

Lemma scenario2_read :
  readsAt scenario2 (lit "ptr") 3 (lit "0x4")
  /\ readsAt scenario2 (lit "ptr") 2 (lit "0x0").
Proof.
  split; eexists; (split; [reflexivity|]); split; reflexivity.
Defined.

Lemma findPreviouslyChanged_witness :
  getVariableValue (index scenario2 3) (lit "ptr") = Ret (Some (lit "0x4"))
  /\ 2 < Z.to_nat 3
  /\ differsAt scenario2 (lit "ptr") (lit "0x4") 2.
Proof.
  split; [reflexivity|].
  destruct (findPreviouslyChanged_spec scenario2 (lit "ptr") 3) as (_ & _ & Hspec).
  destruct (Hspec (lit "0x4") eq_refl) as [Hsome _].
  destruct (proj1 (Hsome 2) eq_refl) as (Hlt & Hdiff & _).
  split; [exact Hlt | exact Hdiff].
Defined.

Lemma findLastChanged_witness :
  readsAt scenario2 (lit "ptr") (length scenario2 - 1) (lit "0x4")
  /\ exists i, 3 = i + 1 /\ differsAt scenario2 (lit "ptr") (lit "0x4") i
               /\ validAt scenario2 (i + 1).
Proof.
  split; [exact (proj1 scenario2_read)|].
  destruct (findLastChanged_spec scenario2 (lit "ptr")) as (_ & _ & Hspec).
  destruct (Hspec (lit "0x4") (proj1 scenario2_read)) as (Hsome & _).
  destruct (proj1 (Hsome 3) eq_refl) as (i & Hi & _ & Hdiff & Hvalid & _).
  exists i. split; [exact Hi|]. split; [exact Hdiff | exact Hvalid].
Defined.

Lemma changed_index_witness :
  findPreviouslyChangedAt scenario2 (lit "ptr") 3 = Ret (Some 2)
  /\ exists step v,
       nth_error scenario2 2 = Some step
       /\ 2 < length scenario2
       /\ hasValidState (Some step) = Ret true
       /\ getVariableValue (Some step) (lit "ptr") = Ret (Some v).
Proof.
  split; [reflexivity|].
  apply (@changed_index_is_read integerNumbers v8ObjectPrototype scenario2 (lit "ptr") 3 2).
  left. reflexivity.
Defined.

Lemma navigation_sentinels_witness :
  getCurrentStepIndex scenario2 None = (-1)%Z
  /\ findPreviouslyChanged scenario2 (lit "ptr") None = Ret None
  /\ findNextChanged scenario2 (lit "ptr") None = Ret None.
Proof.
  split; [reflexivity|].
  destruct (navigation_sentinels scenario2 (lit "ptr") None) as (Hinvalid & _).
  apply Hinvalid. reflexivity.
Defined.

(** The matches of a family, from the computed value of the scan. *)
Ltac family_is E l :=
  match type of E with
  | ?scan = Ret _ =>
      let Hc := fresh "Hc" in
      assert (Hc : scan = Ret l) by (vm_compute; reflexivity);
      rewrite Hc in E; injection E as E; symmetry; exact E
  end.

(** In ["offset(x)"] the families 3 and 5 both have a match at offset 0:
    the one of family 3 is kept. *)
Lemma ties_witness :
  In (token (lit "offset(x)") 0) [ token (lit "offset(x)") 0 ]
  /\ exists kept,
       uniqueMatchesOf (lit "offset(x)") = Ret kept
       /\ forall k, In k kept -> MatchInfo.index k = 0 ->
                    k = token (lit "offset(x)") 0.
Proof.
  split; [left; reflexivity|].
  destruct (ties_go_to_the_lower_family (lit "offset(x)"))
    as (fams & kept & Hraw & Hu & Hlow & _ & _).
  exists kept. split; [exact Hu|]. intros k Hk Hidx.
  assert (H0 : nth 0 fams [] = []).
  { pose proof (Hraw 0 ltac:(lia)) as E. family_is E (@nil MatchInfo.t). }
  assert (H1 : nth 1 fams [] = []).
  { pose proof (Hraw 1 ltac:(lia)) as E. family_is E (@nil MatchInfo.t). }
  assert (H2 : nth 2 fams [] = [ token (lit "offset(x)") 0 ]).
  { pose proof (Hraw 2 ltac:(lia)) as E. family_is E [ token (lit "offset(x)") 0 ]. }
  destruct (Hlow 2 (token (lit "offset(x)") 0) k) as (q & Hq & Hin).
  - rewrite H2. left. reflexivity.
  - exact Hk.
  - exact Hidx.
  - destruct q as [|[|[|q]]].
    + rewrite H0 in Hin. destruct Hin.
    + rewrite H1 in Hin. destruct Hin.
    + rewrite H2 in Hin. destruct Hin as [<- | []]. reflexivity.
    + lia.
Defined.

(** In ["a b c"] the run [c] is kept: the space before it comes after [b],
    which no match ends with. *)
Lemma bare_identifier_witness :
  IdentifierRun (lit "a b c") 4 5
  /\ BoundedRight (lit "a b c") 5
  /\ exists kept,
       uniqueMatchesOf (lit "a b c") = Ret kept
       /\ exists m, In m kept /\ MatchInfo.index m = 4.
Proof.
  assert (Hrun : IdentifierRun (lit "a b c") 4 5).
  { split; [lia|]. split; [exists ("c"%char : N); split; reflexivity|].
    intros k Hk. lia. }
  assert (Hright : BoundedRight (lit "a b c") 5) by (left; reflexivity).
  split; [exact Hrun|]. split; [exact Hright|].
  destruct (bare_identifier_emitted (lit "a b c")) as (fams & kept & Hraw & Hu & Hrunning).
  exists kept. split; [exact Hu|].
  assert (H4 : nth 4 fams [] = [ token (lit "a") 0; token (lit "c") 4 ]).
  { pose proof (Hraw 4 ltac:(lia)) as E.
    family_is E [ token (lit "a") 0; token (lit "c") 4 ]. }
  assert (Hnone : forall p, p < 4 -> nth p fams [] = []).
  { intros p Hp. pose proof (Hraw p ltac:(lia)) as E.
    destruct p as [|[|[|[|p]]]]; [| | | |lia]; family_is E (@nil MatchInfo.t). }
  destruct (Hrunning 4 5 Hrun Hright) as (m & _ & Hidx & _ & _ & _ & Hkept).
  - right. split; [exists (" "%char : N); split; reflexivity|].
    rewrite H4. intros m [<- | [<- | []]]; vm_compute; lia.
  - exists m. split; [|exact Hidx]. apply Hkept.
    intros p m' Hp Hm'. rewrite (Hnone p Hp) in Hm'. destruct Hm'.
Defined.

(** ** The further properties at concrete inputs *)

(** The timeline of scenario 2 from its third step on: every state is
    non-empty. *)
Lemma scenario2_tail_valid :
  forall i, i < length (skipn 2 scenario2) -> validAt (skipn 2 scenario2) i.
Proof.
  intros i Hi. destruct i as [|[|i]]; [| |cbn in Hi; lia];
    eexists; split; reflexivity.
Defined.

Lemma scenario2_distinct : NoDup (map (@ref _) scenario2).
Proof.
  unfold scenario2. cbn [map ref].
  repeat (apply NoDup_cons; [cbn [In]; lia|]). apply NoDup_nil.
Defined.

Lemma findNextChanged_witness :
  getVariableValue (index scenario2 0) (lit "ptr") = Ret (Some (lit "0x0"))
  /\ Z.to_nat 0 < 3 < length scenario2
  /\ differsAt scenario2 (lit "ptr") (lit "0x0") 3.
Proof.
  split; [reflexivity|].
  destruct (findNextChanged_spec scenario2 (lit "ptr") 0) as (_ & _ & Hspec).
  destruct (Hspec (lit "0x0") eq_refl) as [Hsome _].
  destruct (proj1 (Hsome 3) eq_refl) as (Hlt & Hdiff & _).
  split; [exact Hlt | exact Hdiff].
Defined.

(** No state of scenario 2 has a key [constructor]; the first step with a
    non-empty state is the answer all the same. *)
Lemma findInitialized_witness :
  (exists v, readsAt scenario2 (lit "ptr") 0 v)
  /\ Object_prototype (lit "constructor") = Some (nativeFunction (lit "Object"))
  /\ findInitialized scenario2 (lit "constructor") = Ret (Some 0)
  /\ validAt scenario2 0.
Proof.
  split.
  - destruct (findInitialized_spec scenario2 (lit "ptr")) as [Hsome _].
    exact (proj1 (proj1 (Hsome 0) eq_refl)).
  - split; [reflexivity|]. split; [reflexivity|].
    destruct (findInitialized_spec scenario2 (lit "constructor")) as (_ & _ & Hproto).
    exact (proj1 (proj1 (Hproto (nativeFunction (lit "Object")) eq_refl 0) eq_refl)).
Defined.

Lemma initialized_comes_first_witness :
  findPreviouslyChanged scenario2 (lit "ptr") (nth_error scenario2 3) = Ret (Some 2)
  /\ exists i, findInitialized scenario2 (lit "ptr") = Ret (Some i) /\ i <= 2.
Proof.
  split; [reflexivity|].
  apply (proj1 (initialized_comes_first scenario2 (lit "ptr") (nth_error scenario2 3) 2)).
  left. reflexivity.
Defined.

Lemma scenario2_last_valid : validAt scenario2 (Z.to_nat 3).
Proof. eexists. split; reflexivity. Defined.

Lemma changes_lead_back_witness :
  validAt scenario2 (Z.to_nat 3)
  /\ findPreviouslyChangedAt scenario2 (lit "ptr") 3 = Ret (Some 2)
  /\ exists k, findNextChangedAt scenario2 (lit "ptr") (Z.of_nat 2) = Ret (Some k)
               /\ 2 < k <= Z.to_nat 3.
Proof.
  split; [exact scenario2_last_valid|]. split; [reflexivity|].
  apply (proj1 (changes_lead_back scenario2 (lit "ptr") 3 2 scenario2_last_valid)).
  reflexivity.
Defined.

Lemma last_changed_follows_previous_witness :
  (forall i, i < length (skipn 2 scenario2) -> validAt (skipn 2 scenario2) i)
  /\ findLastChanged (skipn 2 scenario2) (lit "ptr")
     = (r <- findPreviouslyChangedAt (skipn 2 scenario2) (lit "ptr")
               (Z.of_nat (length (skipn 2 scenario2)) - 1) ;;
        Ret (option_map S r)).
Proof.
  split; [exact scenario2_tail_valid|].
  apply (last_changed_follows_previous (skipn 2 scenario2) (lit "ptr")).
  exact scenario2_tail_valid.
Defined.

Lemma navigation_lands_witness :
  NoDup (map (@ref _) scenario2)
  /\ exists r st',
       findPreviouslyChanged scenario2 (lit "ptr") (selectedThreadFlowLocation atLastStep)
       = Ret r
       /\ navigateToPreviouslyChanged scenario2 (lit "ptr") atLastStep = Ret st'
       /\ Lands scenario2 atLastStep r st'.
Proof.
  split; [exact scenario2_distinct|].
  apply (proj1 (proj2 (navigation_lands_on_the_answer scenario2 (lit "ptr") unit atLastStep
                         scenario2_distinct))).
Defined.

Lemma the_way_back_witness :
  NoDup (map (@ref _) scenario2)
  /\ validAt scenario2
       (Z.to_nat (getCurrentStepIndex scenario2 (selectedThreadFlowLocation atLastStep)))
  /\ canNavigateToPreviouslyChanged scenario2 (lit "ptr") atLastStep = Ret true
  /\ navigateToPreviouslyChanged scenario2 (lit "ptr") atLastStep
     = Ret (navigateToStep scenario2 (Some 2) atLastStep)
  /\ canNavigateToNextChanged scenario2 (lit "ptr")
       (navigateToStep scenario2 (Some 2) atLastStep) = Ret true.
Proof.
  split; [exact scenario2_distinct|]. split; [exact scenario2_last_valid|].
  split; [reflexivity|]. split; [reflexivity|].
  apply (proj1 (the_way_back_is_enabled scenario2 (lit "ptr") unit atLastStep
                  (navigateToStep scenario2 (Some 2) atLastStep) scenario2_distinct
                  scenario2_last_valid));
    reflexivity.
Defined.

Lemma table_shows_witness :
  state countStep = Some [(lit "count", VObject (Some (lit "{expr} == 5")))]
  /\ NoDup (map fst [(lit "count", VObject (Some (lit "{expr} == 5")))])
  /\ In {| key := lit "count"; value := lit "(count) == 5" |}
        (statesTableStore (Some countStep)).
Proof.
  assert (Hnd : NoDup (map fst [(lit "count", VObject (Some (lit "{expr} == 5")))])).
  { cbn [map fst]. apply NoDup_cons; [intros []|]. apply NoDup_nil. }
  split; [reflexivity|]. split; [exact Hnd|].
  apply (proj2 (table_shows_what_navigation_reads countStep _ eq_refl Hnd
                  (lit "count") (lit "(count) == 5"))).
  split; [left; reflexivity | reflexivity].
Defined.

Lemma plain_key_witness :
  state countStep = Some [(lit "count", VObject (Some (lit "{expr} == 5")))]
  /\ hasDollar (lit "count") = false
  /\ getVariableValue (Some countStep) (lit "count") = Ret (Some (lit "(count) == 5")).
Proof.
  split; [reflexivity|]. split; [reflexivity|].
  exact (proj1 (plain_key_replaces_literally countStep _ (lit "count")
                  (VObject (Some (lit "{expr} == 5"))) eq_refl eq_refl eq_refl)).
Defined.

Lemma without_placeholder_witness :
  hasPlaceholder (displayText (VString (lit "0x4"))) = false
  /\ processedValue (lit "$&") (VString (lit "0x4")) = lit "0x4".
Proof.
  split; [reflexivity|].
  apply (without_placeholder_unchanged (lit "$&") (VString (lit "0x4"))). reflexivity.
Defined.

Lemma removeOverlaps_witness :
  Disjoint [ token (lit "a") 0; token (lit "c") 4 ]
  /\ removeOverlaps [ token (lit "a") 0; token (lit "c") 4 ]
     = [ token (lit "a") 0; token (lit "c") 4 ].
Proof.
  assert (Hd : Disjoint [ token (lit "a") 0; token (lit "c") 4 ]).
  { apply SSorted_cons;
      [apply SSorted_cons; [apply SSorted_nil | apply Forall_nil]
      | apply Forall_cons; [vm_compute; lia | apply Forall_nil]]. }
  split; [exact Hd|].
  apply (proj2 (removeOverlaps_idempotent [ token (lit "a") 0; token (lit "c") 4 ])).
  exact Hd.
Defined.

Lemma tokens_are_pattern_matches_witness :
  uniqueMatchesOf (lit "a b c") = Ret [ token (lit "a") 0; token (lit "c") 4 ]
  /\ exists p, p < 5 /\ Lang (lit "a b c") (tokenPattern p) 4 5.
Proof.
  split; [vm_compute; reflexivity|].
  destruct (tokens_are_pattern_matches (lit "a b c")) as (kept & Hu & Hall).
  assert (Hk : kept = [ token (lit "a") 0; token (lit "c") 4 ]) by (family_is Hu
    [ token (lit "a") 0; token (lit "c") 4 ]).
  apply (Hall (token (lit "c") 4)). rewrite Hk. right. left. reflexivity.
Defined.

Lemma bare_matches_witness :
  rawMatches (lit "a b c") 4 = Ret [ token (lit "a") 0; token (lit "c") 4 ]
  /\ charAt (lit "a b c") (4 - 1) isBoundary.
Proof.
  split; [vm_compute; reflexivity|].
  destruct (bare_matches_are_bounded (lit "a b c")) as (bare & Hraw & Hall).
  assert (Hb : bare = [ token (lit "a") 0; token (lit "c") 4 ]) by (family_is Hraw
    [ token (lit "a") 0; token (lit "c") 4 ]).
  destruct (Hall (token (lit "c") 4)) as (_ & [Hzero | Hleft] & _).
  - rewrite Hb. right. left. reflexivity.
  - discriminate Hzero.
  - exact Hleft.
Defined.

Lemma no_candidate_witness :
  (forall c, In c (lit "12 + 3") -> isIdentStart c = false /\ c <> openBrace)
  /\ renderVariableName (lit "12 + 3") = Ret (Unchanged (lit "12 + 3")).
Proof.
  assert (Hnone : forall c, In c (lit "12 + 3") -> isIdentStart c = false /\ c <> openBrace).
  { intros c Hc. vm_compute in Hc.
    repeat (destruct Hc as [<- | Hc];
            [split; [vm_compute; reflexivity | intros E; vm_compute in E; discriminate E]|]).
    destruct Hc. }
  split; [exact Hnone|].
  apply (proj2 (no_candidate_no_token (lit "12 + 3") Hnone)).
Defined.

Lemma identifier_witness :
  IdentifierRun (lit "count") 0 (length (lit "count"))
  /\ uniqueMatchesOf (lit "count") = Ret [ token (lit "count") 0 ].
Proof.
  assert (Hrun : IdentifierRun (lit "count") 0 (length (lit "count"))).
  { change (length (lit "count")) with 5.
    split; [lia|]. split; [exists ("c"%char : N); split; reflexivity|].
    intros k Hk. destruct k as [|[|[|[|[|k]]]]]; try lia;
      eexists; split; reflexivity. }
  split; [exact Hrun|].
  apply (proj1 (identifier_is_one_token (lit "count") Hrun)).
Defined.

Lemma alert_link_witness :
  ~ In slash (lit "octo") /\ ~ In slash (lit "demo")
  /\ alertHref (lit "https://api.github.com/repos/octo/demo/code-scanning/alerts/7")
     = lit "https://github.com/octo/demo/security/code-scanning/7".
Proof.
  assert (H1 : ~ In slash (lit "octo")).
  { intros Hin. vm_compute in Hin.
    repeat (destruct Hin as [Hin | Hin]; [discriminate Hin|]). exact Hin. }
  assert (H2 : ~ In slash (lit "demo")).
  { intros Hin. vm_compute in Hin.
    repeat (destruct Hin as [Hin | Hin]; [discriminate Hin|]). exact Hin. }
  split; [exact H1|]. split; [exact H2|].
  exact (alert_link (lit "octo") (lit "demo") (lit "7") H1 H2).
Defined.
